(** * go-mod-dependency-tree: a shallow embedding of the dependency walker

    The repository holds two variants of one program.  [dependency-tree.go]
    collects a graph (packages / indexes / unknown) and prints it as JSON;
    the second variant prints an indented text tree.  Both share the cache
    locator ([constructFilePath], [getNameAndVersion], [getSemVer]) and the
    case escaping ([escapeCapitalsInModuleName]) verbatim.

    Conventions of the embedding:
    - a Go [string] is a Rocq [string]; the model covers ASCII text, which is
      what module paths and version tokens are made of;
    - a Go [int] is a [Z] with the 64-bit wrap-around written out ([int_wrap]);
      an index, which is the [len] of a map, is a [nat];
    - a Go [map] is a [gmap], a [map[K]struct{}] is a [gset];
    - the file system and the go.mod parser are the fields of a [World];
    - the recursion of [getModuleList] carries explicit fuel, and a theorem
      shows that enough fuel always exists on a finite requirement graph. *)

From stdpp Require Import gmap strings list fin_maps sorting pretty.
From Stdlib Require Import ZArith Lia Ascii String.

Local Open Scope string_scope.
Local Open Scope list_scope.
Local Open Scope Z_scope.

Set Warnings "-clear-no-such-hyp".

(* ===================================================================== *)
(** * Part I: definitions                                                 *)
(* ===================================================================== *)

(** ** Go's [int] *)

(** Two's complement normalisation of a 64-bit [int]. *)
Definition int_wrap (z : Z) : Z := (z + 2 ^ 63) mod 2 ^ 64 - 2 ^ 63.

(** [depth - 1] as the machine computes it. *)
Definition int_pred (z : Z) : Z := int_wrap (z - 1).

(** ** Package [strings] (ASCII fragment) *)

Definition is_upper (c : ascii) : bool :=
  (65 <=? nat_of_ascii c)%nat && (nat_of_ascii c <=? 90)%nat.

Definition lower_ascii (c : ascii) : ascii :=
  if is_upper c then ascii_of_nat (nat_of_ascii c + 32) else c.

(** [strings.ToLower] on ASCII text: the letters [A] to [Z] are folded, any
    other byte stays.  Go folds every Unicode letter; the two agree on the
    strings of [ascii_only], and the theorems about the case escaping are
    stated for those. *)
Fixpoint strings_ToLower (s : string) : string :=
  match s with
  | EmptyString => EmptyString
  | String c s' => String (lower_ascii c) (strings_ToLower s')
  end.

(** [strings.HasPrefix s prefix] *)
Fixpoint strings_HasPrefix (s prefix : string) {struct prefix} : bool :=
  match prefix, s with
  | EmptyString, _ => true
  | String _ _, EmptyString => false
  | String p prefix', String c s' =>
      if Ascii.eqb p c then strings_HasPrefix s' prefix' else false
  end.

(** [strings.HasSuffix s suffix]: some tail of [s] is [suffix]. *)
Fixpoint strings_HasSuffix (s suffix : string) : bool :=
  if String.eqb s suffix then true
  else match s with
       | EmptyString => false
       | String _ s' => strings_HasSuffix s' suffix
       end.

(** [strings.Contains s substr] *)
Fixpoint strings_Contains (s substr : string) : bool :=
  if strings_HasPrefix s substr then true
  else match s with
       | EmptyString => false
       | String _ s' => strings_Contains s' substr
       end.

(** The loop of [strings.Split] for a non-empty separator: cut at every
    occurrence of [sep], leftmost first and without overlap.  [skip] counts
    the bytes of a separator that are still to be stepped over, [cur] is the
    piece being collected. *)
Fixpoint genSplit (sep : string) (skip : nat) (cur s : string) : list string :=
  match s with
  | EmptyString => [cur]
  | String c s' =>
      match skip with
      | S k => genSplit sep k cur s'
      | O =>
          if strings_HasPrefix s sep
          then cur :: genSplit sep (String.length sep - 1) EmptyString s'
          else genSplit sep O (cur +:+ String c EmptyString) s'
      end
  end.

(** [explode]: one string per byte, which is [strings.Split] with the
    empty separator on ASCII text (Go cuts after each UTF-8 sequence). *)
Fixpoint explode (s : string) : list string :=
  match s with
  | EmptyString => []
  | String c s' => String c EmptyString :: explode s'
  end.

(** [strings.Split s sep] *)
Definition strings_Split (s sep : string) : list string :=
  match sep with
  | EmptyString => explode s
  | String _ _ => genSplit sep O EmptyString s
  end.

(** [strings.Join elems sep] *)
Fixpoint strings_Join (elems : list string) (sep : string) : string :=
  match elems with
  | [] => EmptyString
  | [e] => e
  | e :: rest => e +:+ sep +:+ strings_Join rest sep
  end.

Definition is_space (c : ascii) : bool :=
  let n := nat_of_ascii c in
  ((9 <=? n)%nat && (n <=? 13)%nat) || (n =? 32)%nat.

Fixpoint trim_left (s : string) : string :=
  match s with
  | EmptyString => EmptyString
  | String c s' => if is_space c then trim_left s' else s
  end.

(** Drops the white space at the end of [s]. *)
Fixpoint trim_right (s : string) : string :=
  match s with
  | EmptyString => EmptyString
  | String c s' =>
      let t := trim_right s' in
      if String.eqb t EmptyString && is_space c then EmptyString
      else String c t
  end.

(** [strings.TrimSpace] on ASCII text: the white space of [is_space] (Go
    also trims the white space beyond ASCII). *)
Definition strings_TrimSpace (s : string) : string :=
  trim_right (trim_left s).

(** ** Package [path/filepath] (Unix) *)

(** One step of [Clean] over the path elements; [acc] is the cleaned path
    so far, innermost element first. *)
Definition clean_step (rooted : bool) (acc : list string) (c : string)
  : list string :=
  if String.eqb c EmptyString then acc
  else if String.eqb c "." then acc
  else if String.eqb c ".." then
    match acc with
    | top :: rest => if String.eqb top ".." then c :: acc else rest
    | [] => if rooted then [] else [c]
    end
  else c :: acc.

(** [filepath.Clean]: collapse separators, drop [.] elements, resolve inner
    [..] elements, drop [..] at the root; the empty result is [.]. *)
Definition filepath_Clean (p : string) : string :=
  let rooted := strings_HasPrefix p "/" in
  let acc := fold_left (clean_step rooted) (strings_Split p "/") [] in
  let out := (if rooted then "/" else EmptyString) +:+ strings_Join (rev acc) "/" in
  if String.eqb out EmptyString then "." else out.

(** [filepath.Join]: joins from the first non-empty element on and cleans
    the result; the empty string when every element is empty. *)
Fixpoint filepath_Join (elem : list string) : string :=
  match elem with
  | [] => EmptyString
  | e :: rest =>
      if String.eqb e EmptyString then filepath_Join rest
      else filepath_Clean (strings_Join elem "/")
  end.

(** ** Package [regexp]: the one pattern of the program *)

Definition is_digit (c : ascii) : bool :=
  (48 <=? nat_of_ascii c)%nat && (nat_of_ascii c <=? 57)%nat.

(** The longest run of digits at the head of [s], and what follows it. *)
Fixpoint span_digits (s : string) : string * string :=
  match s with
  | EmptyString => (EmptyString, EmptyString)
  | String c s' =>
      if is_digit c
      then let '(d, r) := span_digits s' in (String c d, r)
      else (EmptyString, s)
  end.

(** [\d+] at the head of [s]. *)
Definition digits1 (s : string) : option (string * string) :=
  match span_digits s with
  | (EmptyString, _) => None
  | (d, r) => Some (d, r)
  end.

(** A literal character at the head of [s]. *)
Definition lit (c : ascii) (s : string) : option string :=
  match s with
  | String c' s' => if Ascii.eqb c c' then Some s' else None
  | EmptyString => None
  end.

(** The pattern [v\d+\.\d+\.\d+] anchored at the head of [s]; the match. *)
Definition re_match_here (s : string) : option string :=
  match lit "v" s with
  | None => None
  | Some r0 =>
      match digits1 r0 with
      | None => None
      | Some (d1, r1) =>
          match lit "." r1 with
          | None => None
          | Some r2 =>
              match digits1 r2 with
              | None => None
              | Some (d2, r3) =>
                  match lit "." r3 with
                  | None => None
                  | Some r4 =>
                      match digits1 r4 with
                      | None => None
                      | Some (d3, _) =>
                          Some ("v" +:+ d1 +:+ "." +:+ d2 +:+ "." +:+ d3)
                      end
                  end
              end
          end
      end
  end.

(** [re.FindStringSubmatch]: the leftmost match; the pattern has no group,
    so the result is [nil] or a one-element slice. *)
Fixpoint re_FindStringSubmatch (s : string) : list string :=
  match re_match_here s with
  | Some m => [m]
  | None =>
      match s with
      | EmptyString => []
      | String _ s' => re_FindStringSubmatch s'
      end
  end.

(** ** The environment of a run *)

(** Errors of [os.Stat]; only [ENOENT] satisfies [os.IsNotExist]. *)
Inductive oserror := ENOENT | EACCES | ENOTDIR | EIO.

Definition os_IsNotExist (e : oserror) : bool :=
  match e with ENOENT => true | _ => false end.

(** One [require] directive: [require.Mod.Path], [require.Mod.Version]. *)
Record ModRequire := { Mod_Path : string; Mod_Version : string }.

(** What [modfile.Parse] yields: the module directive (absent when the file
    has none) and the [require] directives in declaration order. *)
Record ModFile := { Module_Path : option string; Requires : list ModRequire }.

(** The file system and the go.mod parser, as the program sees them.
    [on_disk] is the ground truth, [os_Stat] what the call reports ([None]
    is a nil error); [World_wf] relates the two. *)
Record World := {
  gopath : string;
  on_disk : string -> bool;
  os_Stat : string -> option oserror;
  os_ReadFile : string -> option string;
  modfile_Parse : string -> string -> option ModFile
}.

Definition World_wf (w : World) : Prop :=
  forall p,
    (os_Stat w p = None -> on_disk w p = true) /\
    (os_Stat w p = Some ENOENT -> on_disk w p = false).

(** How a run of a Go function ends. *)
Inductive outcome (A : Type) :=
| Ret (a : A)
| Exit (code : Z)
| Panic.
Arguments Ret {A} a.
Arguments Exit {A} code.
Arguments Panic {A}.

(** A fuelled run came back with a result. *)
Definition returned {A : Type} (o : option A) : bool :=
  match o with Some _ => true | None => false end.

(** ** Functions shared verbatim by both variants *)

Definition getSemVer (version : string) : string :=
  let match_ := re_FindStringSubmatch version in
  if Nat.eqb (List.length match_) 0 then EmptyString
  else if Nat.eqb (List.length match_) 1 then nth 0 match_ EmptyString
  else nth 1 match_ EmptyString.

(** The indexings [s[0]] and [s[1]] are in range on both branches (see
    [getNameAndVersion_in_range]), so [nth] never takes its default. *)
Definition getNameAndVersion (module : string) : string * string :=
  if strings_Contains module "@" then
    let s := strings_Split module "@" in
    (nth 0 s EmptyString, nth 1 s EmptyString)
  else
    let s := strings_Split module " " in
    if Nat.eqb (List.length s) 1 then (nth 0 s EmptyString, EmptyString)
    else (nth 0 s EmptyString, getSemVer (nth 1 s EmptyString)).

(** [err == nil || !os.IsNotExist(err)] *)
Definition stat_hit (w : World) (p : string) : bool :=
  match os_Stat w p with
  | None => true
  | Some err => negb (os_IsNotExist err)
  end.

Definition constructFilePath (w : World) (dep : string) : string * bool :=
  let '(module, version) := getNameAndVersion dep in
  let srcPath := filepath_Join [gopath w; "src"; module] in
  if stat_hit w srcPath then (srcPath, true)
  else
    let pkgPath :=
      filepath_Join [gopath w; "pkg"; "mod"; module +:+ "@" +:+ getSemVer version] in
    if stat_hit w pkgPath then (pkgPath, true)
    else
      let fullVersionPkgPath :=
        filepath_Join [gopath w; "pkg"; "mod"; module +:+ "@" +:+ version] in
      if stat_hit w fullVersionPkgPath then (fullVersionPkgPath, true)
      else (EmptyString, false).

Definition escapeCapitalsInModuleName (name : string) : string :=
  let letters := strings_Split name EmptyString in
  fold_left
    (fun newName letter =>
       if negb (String.eqb (strings_ToLower letter) letter)
       then newName +:+ "!" +:+ strings_ToLower letter
       else newName +:+ letter)
    letters EmptyString.

(** The identity string the walkers build for a requirement. *)
Definition requireLine (r : ModRequire) : string :=
  Mod_Path r +:+ " " +:+ Mod_Version r.

(** ** Specification-side vocabulary *)

(** The case escaping in the words of the specification: an uppercase
    letter becomes the marker [!] followed by its lowercase form, any other
    character stays. *)
Fixpoint escape_spec (name : string) : string :=
  match name with
  | EmptyString => EmptyString
  | String c rest =>
      if is_upper c
      then String "!" (String (lower_ascii c) (escape_spec rest))
      else String c (escape_spec rest)
  end.

(** The three cache layouts for a name and a version, in priority order. *)
Definition candidates (w : World) (name version : string) : list string :=
  [ filepath_Join [gopath w; "src"; name];
    filepath_Join [gopath w; "pkg"; "mod"; name +:+ "@" +:+ getSemVer version];
    filepath_Join [gopath w; "pkg"; "mod"; name +:+ "@" +:+ version] ].

(** The part of [getModuleList] between the visited-set bookkeeping and the
    loop over the requirements, with its three ways out. *)
Inductive resolution :=
| NotLocated
| NoManifest
| Manifest (reqs : list ModRequire).

Definition resolve (w : World) (modPath : string) : resolution :=
  match constructFilePath w (escapeCapitalsInModuleName modPath) with
  | (_, false) => NotLocated
  | (rawPath, true) =>
      let modFilePath := filepath_Join [rawPath; "go.mod"] in
      match os_ReadFile w modFilePath with
      | None => NoManifest
      | Some fileBytes =>
          match modfile_Parse w modFilePath fileBytes with
          | None => NoManifest
          | Some file => Manifest (Requires file)
          end
      end
  end.

(** [U] holds every identity that a manifest of the world can require: the
    requirement graph is finite. *)
Definition closed_world (w : World) (U : gset string) : Prop :=
  forall modPath reqs r,
    resolve w modPath = Manifest reqs -> r ∈ reqs -> requireLine r ∈ U.

(** [within w n a b]: [b] is at most [n] requirement edges away from [a]. *)
Inductive within (w : World) : nat -> string -> string -> Prop :=
| within_here n a : within w n a a
| within_step n a b reqs r :
    within w n a b ->
    resolve w b = Manifest reqs ->
    r ∈ reqs ->
    within w (S n) a (requireLine r).

(** Ghost events of a walk, in program order: an identity passes the
    visited-set test and is inserted; a call ends in the [depth == 0]
    branch; a requirement edge is recorded; an identity is not located. *)
Inductive event :=
| EvVisit (modPath : string)
| EvCutoff (modPath : string)
| EvEdge (requirer target : string)
| EvUnknown (modPath : string).

Definition visits (tr : list event) : list string :=
  omap (fun e => match e with EvVisit p => Some p | _ => None end) tr.

Definition cutoffs (tr : list event) : list string :=
  omap (fun e => match e with EvCutoff p => Some p | _ => None end) tr.

Definition targets (tr : list event) : list string :=
  omap (fun e => match e with EvEdge _ t => Some t | _ => None end) tr.

Definition edges (tr : list event) : list (string * string) :=
  omap (fun e => match e with EvEdge r t => Some (r, t) | _ => None end) tr.

(** In a log read from the left with [seen] already inserted, every edge
    is recorded after its requirer was inserted into the visited set. *)
Fixpoint edges_after_visit (seen : list string) (tr : list event) : Prop :=
  match tr with
  | [] => True
  | EvVisit p :: rest => edges_after_visit (p :: seen) rest
  | EvEdge a _ :: rest => a ∈ seen /\ edges_after_visit seen rest
  | _ :: rest => edges_after_visit seen rest
  end.

(** What an event of a walk from [p] with budget [n] may mention. *)
Definition event_within (w : World) (n : nat) (p : string) (e : event) : Prop :=
  match e with
  | EvVisit q | EvCutoff q | EvUnknown q => within w n p q
  | EvEdge a b => (1 <= n)%nat /\ within w (n - 1) p a /\ within w n p b
  end.

(** The first occurrences of a list, in order. *)
Fixpoint first_seen (seen : list string) (l : list string) : list string :=
  match l with
  | [] => []
  | x :: rest =>
      if decide (x ∈ seen) then first_seen seen rest
      else x :: first_seen (x :: seen) rest
  end.

(** ** More of [strings] and [path], and the process environment of [main] *)

(** [strings.Index s substr]: where [substr] occurs first in [s]. *)
Fixpoint strings_Index (s substr : string) : option nat :=
  if strings_HasPrefix s substr then Some O
  else match s with
       | EmptyString => None
       | String _ s' => option_map S (strings_Index s' substr)
       end.

(** [s[n:]] for [n <= len(s)]. *)
Fixpoint string_drop (n : nat) (s : string) : string :=
  match n, s with
  | S k, String _ s' => string_drop k s'
  | _, _ => s
  end.

(** [strings.TrimPrefix s prefix] *)
Definition strings_TrimPrefix (s prefix : string) : string :=
  if strings_HasPrefix s prefix then string_drop (String.length prefix) s
  else s.

(** [path.IsAbs] *)
Definition path_IsAbs (p : string) : bool := strings_HasPrefix p "/".

(** What [main] reads besides the file system: the three flags, and the
    results of [os.Getwd] and of [user.Current] ([None] is an error; the
    value of [user.Current] is its [HomeDir]).  The value of [GOPATH] is
    the field [gopath] of the [World]. *)
Record Env := {
  versionFlag : bool;
  maxDepth : Z;
  modulePath : string;
  os_Getwd : option string;
  user_Current : option string
}.

(** How a run of [main] ends: [os.Exit] with what [Flush] wrote before it
    (the other lines that [main] prints are not part of the model), a
    panic, or a walk that ran out of fuel. *)
Inductive ending (D : Type) :=
| Exited (code : Z) (flushed : option D)
| Panicked
| OutOfFuel.
Arguments Exited {D} code flushed.
Arguments Panicked {D}.
Arguments OutOfFuel {D}.

(** The directory [main] works in, from [-module-path]; [None] is the
    [log.Println(err); os.Exit(1)] of the three branches. *)
Definition main_cwd (e : Env) : option string :=
  let cwd := strings_TrimSpace (modulePath e) in
  if String.eqb cwd "." then os_Getwd e
  else if negb (path_IsAbs cwd) && strings_HasPrefix cwd "~" then
    option_map (fun home => filepath_Join [home; strings_TrimPrefix cwd "~"])
               (user_Current e)
  else if negb (path_IsAbs cwd) then
    option_map (fun dir => filepath_Join [dir; cwd]) (os_Getwd e)
  else Some cwd.

(** [if _, err := os.Stat(modFile); os.IsNotExist(err)] *)
Definition stat_missing (w : World) (p : string) : bool :=
  match os_Stat w p with
  | Some err => os_IsNotExist err
  | None => false
  end.

(** ** The graph variant ([dependency-tree.go]) *)

Module Graph.

(** [type module struct]; [trace] is a ghost field that logs the events
    of the walk and is read by no branch of the program. *)
Record module := {
  packages : gmap string (gset nat);
  indexes : gmap string nat;
  unknown : gset string;
  cache : gset string;
  trace : list event
}.

(** The state [main] builds: four empty maps. *)
Definition fresh : module :=
  {| packages := ∅; indexes := ∅; unknown := ∅; cache := ∅; trace := [] |}.

(** [m.cache[modPath] = struct{}{}] *)
Definition visit (modPath : string) (m : module) : module :=
  {| packages := packages m; indexes := indexes m; unknown := unknown m;
     cache := {[modPath]} ∪ cache m;
     trace := trace m ++ [EvVisit modPath] |}.

(** The [depth == 0] branch: nothing but the return. *)
Definition cutoff (modPath : string) (m : module) : module :=
  {| packages := packages m; indexes := indexes m; unknown := unknown m;
     cache := cache m;
     trace := trace m ++ [EvCutoff modPath] |}.

(** [m.unknown[modPath] = struct{}{}] *)
Definition markUnknown (modPath : string) (m : module) : module :=
  {| packages := packages m; indexes := indexes m;
     unknown := {[modPath]} ∪ unknown m;
     cache := cache m;
     trace := trace m ++ [EvUnknown modPath] |}.

(** The index of [line]: the one it has, or [len(m.indexes)] for a new
    line, together with the table after the assignment. *)
Definition assignIndex (line : string) (idx : gmap string nat)
  : nat * gmap string nat :=
  match idx !! line with
  | Some index => (index, idx)
  | None => (size idx, <[line := size idx]> idx)
  end.

(** The body of the loop before the recursive call. *)
Definition recordEdge (modPath line : string) (m : module) : module :=
  let '(index, idx) := assignIndex line (indexes m) in
  let pkgs :=
    match packages m !! modPath with
    | Some _ => packages m
    | None => <[modPath := ∅]> (packages m)
    end in
  {| packages := <[modPath := {[index]} ∪ default ∅ (pkgs !! modPath)]> pkgs;
     indexes := idx;
     unknown := unknown m;
     cache := cache m;
     trace := trace m ++ [EvEdge modPath line] |}.

(** [for _, require := range file.Require { ... }], with the recursive
    call as a parameter. *)
Fixpoint rangeRequires
  (recur : module -> string -> string -> Z -> option module)
  (modPath indent : string) (depth : Z)
  (reqs : list ModRequire) (m : module) : option module :=
  match reqs with
  | [] => Some m
  | require :: rest =>
      let line := requireLine require in
      match recur (recordEdge modPath line m) line (indent +:+ "  ")
                  (int_pred depth) with
      | None => None
      | Some m' => rangeRequires recur modPath indent depth rest m'
      end
  end.

(** [func (m *module) getModuleList(modPath, indent string, depth int)];
    [None] means that the fuel ran out. *)
Fixpoint getModuleList (w : World) (fuel : nat) (m : module)
  (modPath indent : string) (depth : Z) : option module :=
  match fuel with
  | O => None
  | S fuel' =>
      if decide (modPath ∈ cache m) then Some m
      else
        let m := visit modPath m in
        if depth =? 0 then Some (cutoff modPath m)
        else
          match constructFilePath w (escapeCapitalsInModuleName modPath) with
          | (_, false) => Some (markUnknown modPath m)
          | (rawPath, true) =>
              let modFilePath := filepath_Join [rawPath; "go.mod"] in
              match os_ReadFile w modFilePath with
              | None => Some m
              | Some fileBytes =>
                  match modfile_Parse w modFilePath fileBytes with
                  | None => Some m
                  | Some file =>
                      rangeRequires (getModuleList w fuel') modPath indent
                                    depth (Requires file) m
                  end
              end
          end
  end.

(** The walk as a relation: one constructor per way through the body. *)
Inductive walk (w : World) : module -> string -> string -> Z -> module -> Prop :=
| walk_cached m modPath indent depth :
    modPath ∈ cache m ->
    walk w m modPath indent depth m
| walk_cutoff m modPath indent depth :
    modPath ∉ cache m ->
    depth = 0 ->
    walk w m modPath indent depth (cutoff modPath (visit modPath m))
| walk_unknown m modPath indent depth :
    modPath ∉ cache m ->
    depth <> 0 ->
    resolve w modPath = NotLocated ->
    walk w m modPath indent depth (markUnknown modPath (visit modPath m))
| walk_nomanifest m modPath indent depth :
    modPath ∉ cache m ->
    depth <> 0 ->
    resolve w modPath = NoManifest ->
    walk w m modPath indent depth (visit modPath m)
| walk_expand m modPath indent depth reqs m' :
    modPath ∉ cache m ->
    depth <> 0 ->
    resolve w modPath = Manifest reqs ->
    walk_requires w modPath indent depth reqs (visit modPath m) m' ->
    walk w m modPath indent depth m'
with walk_requires (w : World)
  : string -> string -> Z -> list ModRequire -> module -> module -> Prop :=
| walk_requires_nil modPath indent depth m :
    walk_requires w modPath indent depth [] m m
| walk_requires_cons modPath indent depth require rest m m1 m2 :
    walk w (recordEdge modPath (requireLine require) m)
         (requireLine require) (indent +:+ "  ") (int_pred depth) m1 ->
    walk_requires w modPath indent depth rest m1 m2 ->
    walk_requires w modPath indent depth (require :: rest) m m2.

Scheme walk_mind := Minimality for walk Sort Prop
  with walk_requires_mind := Minimality for walk_requires Sort Prop.
Combined Scheme walk_mutind from walk_mind, walk_requires_mind.

(** What [Flush] hands to the JSON encoder, and its lines on stderr. *)
Record document := {
  Packages : gmap string (list nat);
  Indexes : list string;
  Unknown : list string;
  Stderr : list string
}.

(** One round of the loop over [m.packages]. *)
Definition flushPackage (acc : gmap string (list nat) * list string)
  (entry : string * gset nat) : gmap string (list nat) * list string :=
  let '(pkgs, err) := acc in
  let '(pkg, idxs) := entry in
  let err :=
    if Nat.eqb (size idxs) 0
    then (err ++ ["No dependencies found for package:  " +:+ pkg])%list
    else err in
  let pkgs :=
    fold_left (fun p index => <[pkg := (default [] (p !! pkg) ++ [index])%list]> p)
              (elements idxs) pkgs in
  let pkgs :=
    match pkgs !! pkg with
    | Some l => <[pkg := merge_sort Nat.le l]> pkgs
    | None => pkgs
    end in
  (pkgs, err).

(** [indexes[index] = pkg] for every entry; [None] is the index out of
    range panic. *)
Definition fillIndexes (entries : list (string * nat)) (arr : list string)
  : option (list string) :=
  fold_left
    (fun acc entry =>
       match acc with
       | None => None
       | Some a =>
           if (snd entry <? List.length a)%nat
           then Some (<[snd entry := fst entry]> a)
           else None
       end)
    entries (Some arr).

(** [func (m *module) Flush(writer io.Writer)], up to the encoding. *)
Definition Flush (m : module) : option document :=
  let '(pkgs, err) := fold_left flushPackage (map_to_list (packages m)) (∅, []) in
  match fillIndexes (map_to_list (indexes m))
                    (replicate (size (indexes m)) EmptyString) with
  | None => None
  | Some idx =>
      Some {| Packages := pkgs; Indexes := idx;
              Unknown := elements (unknown m); Stderr := err |}
  end.

(** [func getModuleName(cwd string) string] of the graph variant: the
    module directive as [modfile.Parse] reads it; [f.Module] is nil for a
    file without the directive. *)
Definition getModuleName (w : World) (cwd : string) : outcome string :=
  let modFilePath := filepath_Join [cwd; "go.mod"] in
  match os_ReadFile w modFilePath with
  | None => Exit 1
  | Some fileBytes =>
      match modfile_Parse w modFilePath fileBytes with
      | None => Exit 1
      | Some f =>
          match Module_Path f with
          | None => Panic
          | Some path => Ret path
          end
      end
  end.

(** [func (m *module) List(cwd string, depth int)] *)
Definition List (w : World) (fuel : nat) (m : module) (cwd : string)
  (depth : Z) : outcome (option module) :=
  match getModuleName w cwd with
  | Ret modName => Ret (getModuleList w fuel m modName EmptyString depth)
  | Exit c => Exit c
  | Panic => Panic
  end.

(** [func main()].  The message about an invalid [-max-depth] is printed
    and the run goes on. *)
Definition main (w : World) (e : Env) (fuel : nat) : ending document :=
  if versionFlag e then Exited 0 None
  else
    match main_cwd e with
    | None => Exited 1 None
    | Some cwd =>
        let modFile := filepath_Join [cwd; "go.mod"] in
        if stat_missing w modFile then Exited 1 None
        else
          match List w fuel fresh cwd (maxDepth e) with
          | Exit c => Exited c None
          | Panic => Panicked
          | Ret None => OutOfFuel
          | Ret (Some mod_) =>
              match Flush mod_ with
              | None => Panicked
              | Some doc => Exited 0 (Some doc)
              end
          end
    end.

End Graph.

(** ** The tree variant *)

Definition newline : string := String (ascii_of_nat 10) EmptyString.
Definition quote : string := String (ascii_of_nat 34) EmptyString.

Module Tree.

(** [type module struct]: the visited set and the two text buffers;
    [trace] is the ghost log, as in the graph variant. *)
Record module := {
  cache : gset string;
  writer : string;
  unknown : string;
  trace : list event
}.

Definition fresh : module :=
  {| cache := ∅; writer := EmptyString; unknown := EmptyString; trace := [] |}.

(** [strings.Split(line, " //")[0]]; the split has at least one piece. *)
Definition stripComment (line : string) : string :=
  nth 0 (strings_Split line " //") EmptyString.

(** [func (m *module) writeLine(indent, line string)]: [indent] is not
    printed. *)
Definition writeLine (indent line : string) (m : module) : module :=
  {| cache := cache m;
     writer := writer m +:+ stripComment line +:+ newline;
     unknown := unknown m;
     trace := trace m |}.

(** [func (m *module) writeUnknownLine(line string)] *)
Definition writeUnknownLine (line : string) (m : module) : module :=
  {| cache := cache m;
     writer := writer m;
     unknown := unknown m +:+ stripComment line +:+ newline;
     trace := trace m ++ [EvUnknown line] |}.

Definition visit (modPath : string) (m : module) : module :=
  {| cache := {[modPath]} ∪ cache m; writer := writer m;
     unknown := unknown m; trace := trace m ++ [EvVisit modPath] |}.

(** The [depth == 0] branch: the leaf line. *)
Definition cutoff (indent modPath : string) (m : module) : module :=
  let m' := writeLine indent modPath m in
  {| cache := cache m'; writer := writer m'; unknown := unknown m';
     trace := trace m' ++ [EvCutoff modPath] |}.

Fixpoint rangeRequires
  (recur : module -> string -> string -> Z -> option module)
  (indent : string) (depth : Z)
  (reqs : list ModRequire) (m : module) : option module :=
  match reqs with
  | [] => Some m
  | require :: rest =>
      let line := requireLine require in
      match recur m line (indent +:+ "  ") (int_pred depth) with
      | None => None
      | Some m' => rangeRequires recur indent depth rest m'
      end
  end.

(** [func (m *module) getModuleList(modPath, indent string, depth int)] *)
Fixpoint getModuleList (w : World) (fuel : nat) (m : module)
  (modPath indent : string) (depth : Z) : option module :=
  match fuel with
  | O => None
  | S fuel' =>
      if depth =? 0 then Some (cutoff indent modPath m)
      else if decide (modPath ∈ cache m) then Some m
      else
        let m := visit modPath m in
        match constructFilePath w (escapeCapitalsInModuleName modPath) with
        | (_, false) => Some (writeUnknownLine modPath m)
        | (rawPath, true) =>
            let modFilePath := filepath_Join [rawPath; "go.mod"] in
            let m := writeLine indent modPath m in
            match os_ReadFile w modFilePath with
            | None => Some m
            | Some fileBytes =>
                match modfile_Parse w modFilePath fileBytes with
                | None => Some m
                | Some file =>
                    rangeRequires (getModuleList w fuel') indent depth
                                  (Requires file) m
                end
            end
        end
  end.

Inductive walk (w : World) : module -> string -> string -> Z -> module -> Prop :=
| walk_cutoff m modPath indent depth :
    depth = 0 ->
    walk w m modPath indent depth (cutoff indent modPath m)
| walk_cached m modPath indent depth :
    depth <> 0 ->
    modPath ∈ cache m ->
    walk w m modPath indent depth m
| walk_unknown m modPath indent depth :
    depth <> 0 ->
    modPath ∉ cache m ->
    resolve w modPath = NotLocated ->
    walk w m modPath indent depth (writeUnknownLine modPath (visit modPath m))
| walk_nomanifest m modPath indent depth :
    depth <> 0 ->
    modPath ∉ cache m ->
    resolve w modPath = NoManifest ->
    walk w m modPath indent depth (writeLine indent modPath (visit modPath m))
| walk_expand m modPath indent depth reqs m' :
    depth <> 0 ->
    modPath ∉ cache m ->
    resolve w modPath = Manifest reqs ->
    walk_requires w indent depth reqs
                  (writeLine indent modPath (visit modPath m)) m' ->
    walk w m modPath indent depth m'
with walk_requires (w : World)
  : string -> Z -> list ModRequire -> module -> module -> Prop :=
| walk_requires_nil indent depth m :
    walk_requires w indent depth [] m m
| walk_requires_cons indent depth require rest m m1 m2 :
    walk w m (requireLine require) (indent +:+ "  ") (int_pred depth) m1 ->
    walk_requires w indent depth rest m1 m2 ->
    walk_requires w indent depth (require :: rest) m m2.

Scheme walk_mind := Minimality for walk Sort Prop
  with walk_requires_mind := Minimality for walk_requires Sort Prop.
Combined Scheme walk_mutind from walk_mind, walk_requires_mind.

(** [modAddress[1 : len(modAddress)-1]]; out of range when the bounds
    cross. *)
Definition unquote (modAddress : string) : option string :=
  if (2 <=? String.length modAddress)%nat
  then Some (substring 1 (String.length modAddress - 2) modAddress)
  else None.

(** The body of the loop of [getModuleName] at a line that starts with
    the module keyword. *)
Definition moduleLine (cwd line : string) : outcome string :=
  match strings_Split line "module " !! 1%nat with
  | None => Panic
  | Some modAddress =>
      let stripped :=
        if strings_Contains modAddress quote then unquote modAddress
        else Some modAddress in
      match stripped with
      | None => Panic
      | Some modAddress =>
          if strings_HasSuffix cwd modAddress then Ret modAddress
          else
            match strings_Split cwd modAddress !! 1%nat with
            | None => Panic
            | Some rest => Ret (modAddress +:+ rest)
            end
      end
  end.

(** [for _, line := range lines { ... }] and what follows the loop. *)
Fixpoint scanLines (cwd : string) (lines : list string) : outcome string :=
  match lines with
  | [] => Exit 1
  | line :: rest =>
      let line := strings_TrimSpace line in
      if strings_HasPrefix line "module " then moduleLine cwd line
      else scanLines cwd rest
  end.

(** [func getModuleName(cwd string) string] *)
Definition getModuleName (w : World) (cwd : string) : outcome string :=
  let modFilePath := filepath_Join [cwd; "go.mod"] in
  match os_ReadFile w modFilePath with
  | None => Exit 1
  | Some fileBytes => scanLines cwd (strings_Split fileBytes newline)
  end.

(** [func (m *module) List(cwd string, depth int)] *)
Definition List (w : World) (fuel : nat) (m : module) (cwd : string)
  (depth : Z) : outcome (option module) :=
  match getModuleName w cwd with
  | Ret modName => Ret (getModuleList w fuel m modName EmptyString depth)
  | Exit c => Exit c
  | Panic => Panic
  end.

(** [func (m *module) Flush(writer io.Writer)]: the text written. *)
Definition Flush (m : module) : string :=
  "--------------------" +:+ newline +:+
  "Direct dependencies:" +:+ newline +:+
  "--------------------" +:+ newline +:+
  writer m +:+ newline +:+
  "-----------------------------------------------------" +:+ newline +:+
  "Transient (not local / not compiled in) dependencies:" +:+ newline +:+
  "-----------------------------------------------------" +:+ newline +:+
  unknown m +:+ newline.

(** [func main()] *)
Definition main (w : World) (e : Env) (fuel : nat) : ending string :=
  if versionFlag e then Exited 0 None
  else
    match main_cwd e with
    | None => Exited 1 None
    | Some cwd =>
        let modFile := filepath_Join [cwd; "go.mod"] in
        if stat_missing w modFile then Exited 1 None
        else
          match List w fuel fresh cwd (maxDepth e) with
          | Exit c => Exited c None
          | Panic => Panicked
          | Ret None => OutOfFuel
          | Ret (Some mod_) => Exited 0 (Some (Flush mod_))
          end
    end.

End Tree.

(** ** Predicates on strings used in the statements *)

Fixpoint string_forall (f : ascii -> bool) (s : string) : bool :=
  match s with
  | EmptyString => true
  | String c s' => f c && string_forall f s'
  end.

(** The strings on which the byte-wise [strings_ToLower] and [explode] are
    Go's functions: every byte is below 128. *)
Definition ascii_only (s : string) : bool :=
  string_forall (fun c => (nat_of_ascii c <? 128)%nat) s.

(** A module address as go.mod files spell it: not empty, free of white
    space and of quotes. *)
Definition address_char (c : ascii) : bool :=
  negb (is_space c) && negb (Ascii.eqb c (ascii_of_nat 34)).

Definition plain_address (addr : string) : bool :=
  negb (String.eqb addr EmptyString) && string_forall address_char addr.

(** What may follow a maximal run of digits. *)
Definition stops (r : string) : Prop :=
  match r with
  | String c _ => is_digit c = false
  | EmptyString => True
  end.


(** How a result of [constructFilePath] reads off the candidate list. *)
Definition locate (w : World) (cands : list string) : string * bool :=
  match find (stat_hit w) cands with
  | Some p => (p, true)
  | None => (EmptyString, false)
  end.

(** ** Invariants of the walker states *)

(** The ghost log and the visited set tell the same story: an identity is
    in the set exactly when it was inserted, and no insertion is repeated. *)
Definition visited_once (cache : gset string) (tr : list event) : Prop :=
  NoDup (visits tr) /\ forall id, id ∈ cache <-> id ∈ visits tr.

(** The index table is the inverse of the first-seen list of the recorded
    dependency targets. *)
Definition index_inv (m : Graph.module) : Prop :=
  let seen := first_seen [] (targets (Graph.trace m)) in
  (forall s i, Graph.indexes m !! s = Some i <-> seen !! i = Some s) /\
  size (Graph.indexes m) = List.length seen.

(** The edge sets hold the indexes of the recorded edges, no more and no
    less; a requirer that has an entry has a non-empty one. *)
Definition edge_inv (m : Graph.module) : Prop :=
  (forall a i,
     (exists s, Graph.packages m !! a = Some s /\ i ∈ s) <->
     (exists b, (a, b) ∈ edges (Graph.trace m) /\ Graph.indexes m !! b = Some i)) /\
  (forall a s, Graph.packages m !! a = Some s -> s <> ∅).

Definition graph_inv (m : Graph.module) : Prop :=
  visited_once (Graph.cache m) (Graph.trace m) /\ index_inv m /\ edge_inv m.

(** ** Worlds given by a table *)

(** A finite file system: each entry is a module directory with what
    parsing its go.mod yields, [None] when the file cannot be read. *)
Definition manifest_table := list (string * option (list ModRequire)).

Fixpoint assoc {A : Type} (k : string) (l : list (string * A)) : option A :=
  match l with
  | [] => None
  | (k', v) :: rest => if String.eqb k k' then Some v else assoc k rest
  end.

Definition gomod_of (dir : string) : string := filepath_Join [dir; "go.mod"].

Definition gomod_table (tbl : manifest_table)
  : list (string * option (list ModRequire)) :=
  map (fun e => (gomod_of (fst e), snd e)) tbl.

(** The world of a table under a cache root: a directory is on disk when it
    is listed, a go.mod is readable when its entry holds requirements; the
    bytes of a file stand for themselves and the parser looks them up. *)
Definition table_world (root : string) (tbl : manifest_table) : World :=
  let present p :=
    match assoc p tbl, assoc p (gomod_table tbl) with
    | None, None => false
    | None, Some None => false
    | _, _ => true
    end in
  {| gopath := root;
     on_disk := present;
     os_Stat := fun p => if present p then None else Some ENOENT;
     os_ReadFile := fun p =>
       match assoc p (gomod_table tbl) with
       | Some (Some _) => Some p
       | _ => None
       end;
     modfile_Parse := fun p _ =>
       match assoc p (gomod_table tbl) with
       | Some (Some reqs) => Some {| Module_Path := None; Requires := reqs |}
       | _ => None
       end |}.

(** Every requirement line a table mentions. *)
Definition table_lines (tbl : manifest_table) : list string :=
  flat_map (fun e => map requireLine (default [] (snd e))) tbl.

Definition req (name version : string) : ModRequire :=
  {| Mod_Path := name; Mod_Version := version |}.

(** The directory of a module in the versioned cache under [/go]. *)
Definition moddir (name version : string) : string :=
  "/go/pkg/mod/" +:+ name +:+ "@" +:+ version.

(** *** The cycle A -> B -> A *)
Definition idA : string := "example.com/a v1.0.0".
Definition idB : string := "example.com/b v1.0.0".
Definition idC : string := "example.com/c v1.0.0".
Definition idD : string := "example.com/d v1.0.0".

Definition cycle_table : manifest_table :=
  [ (moddir "example.com/a" "v1.0.0", Some [req "example.com/b" "v1.0.0"]);
    (moddir "example.com/b" "v1.0.0", Some [req "example.com/a" "v1.0.0"]) ].
Definition cycle_world : World := table_world "/go" cycle_table.

(** *** The diamond A -> B, A -> C, B -> D, C -> D *)
Definition diamond_table : manifest_table :=
  [ (moddir "example.com/a" "v1.0.0",
     Some [req "example.com/b" "v1.0.0"; req "example.com/c" "v1.0.0"]);
    (moddir "example.com/b" "v1.0.0", Some [req "example.com/d" "v1.0.0"]);
    (moddir "example.com/c" "v1.0.0", Some [req "example.com/d" "v1.0.0"]);
    (moddir "example.com/d" "v1.0.0", Some []) ].
Definition diamond_world : World := table_world "/go" diamond_table.

(** *** The chain A -> B -> C *)
Definition chain3_table : manifest_table :=
  [ (moddir "example.com/a" "v1.0.0", Some [req "example.com/b" "v1.0.0"]);
    (moddir "example.com/b" "v1.0.0", Some [req "example.com/c" "v1.0.0"]);
    (moddir "example.com/c" "v1.0.0", Some []) ].
Definition chain3_world : World := table_world "/go" chain3_table.

(** *** A chain of [n] modules m0 -> m1 -> ... -> m(n-1) *)
Definition chain_name (i : nat) : string := "example.com/m" +:+ pretty.pretty i.
Definition chain_id (i : nat) : string := chain_name i +:+ " v1.0.0".
Definition chain_table (n : nat) : manifest_table :=
  map (fun i =>
         (moddir (chain_name i) "v1.0.0",
          Some (if (S i <? n)%nat then [req (chain_name (S i)) "v1.0.0"] else [])))
      (seq 0 n).
Definition chain_world (n : nat) : World := table_world "/go" (chain_table n).

(** *** A -> B, A -> C, B -> C, C -> D: C is met first at the cutoff *)
Definition shadow_table : manifest_table :=
  [ (moddir "example.com/a" "v1.0.0",
     Some [req "example.com/b" "v1.0.0"; req "example.com/c" "v1.0.0"]);
    (moddir "example.com/b" "v1.0.0", Some [req "example.com/c" "v1.0.0"]);
    (moddir "example.com/c" "v1.0.0", Some [req "example.com/d" "v1.0.0"]);
    (moddir "example.com/d" "v1.0.0", Some []) ].
Definition shadow_world : World := table_world "/go" shadow_table.

(** *** A root that is located but whose go.mod cannot be read *)
Definition unreadable_table : manifest_table :=
  [ ("/go/src/example.com/app", None) ].
Definition unreadable_world : World := table_world "/go" unreadable_table.

(** *** A root with an empty requirement list *)
Definition norequire_table : manifest_table :=
  [ ("/go/src/example.com/app", Some []) ].
Definition norequire_world : World := table_world "/go" norequire_table.

(** *** [/go/src] is a regular file: every path below it fails with
    [ENOTDIR], and nothing else is on disk *)
Definition notdir_world : World :=
  {| gopath := "/go";
     on_disk := fun p => String.eqb p "/go/src";
     os_Stat := fun p =>
       if String.eqb p "/go/src" then None
       else if strings_HasPrefix p "/go/src/" then Some ENOTDIR
       else Some ENOENT;
     os_ReadFile := fun _ => None;
     modfile_Parse := fun _ _ => None |}.

(** *** A project outside the cache root, for the tree variant *)
Definition outside_gomod : string :=
  "module github.com/foo/bar" +:+ newline +:+ newline +:+ "go 1.21" +:+ newline.
Definition outside_world : World :=
  {| gopath := "/go";
     on_disk := fun p => String.eqb p "/home/user/proj/go.mod";
     os_Stat := fun p =>
       if String.eqb p "/home/user/proj/go.mod" then None else Some ENOENT;
     os_ReadFile := fun p =>
       if String.eqb p "/home/user/proj/go.mod" then Some outside_gomod else None;
     modfile_Parse := fun _ _ => None |}.

(** A pseudo-version as go.mod files declare it. *)
Definition pseudo_dep : string :=
  "github.com/foo/bar v0.0.0-20190101000000-abcdef123456".

(** *** Only the raw pseudo-version directory is in the cache *)
Definition pseudo_world : World :=
  table_world "/go"
    [ (moddir "github.com/foo/bar" "v0.0.0-20190101000000-abcdef123456", Some []) ].

(** ** Vocabulary of the further properties *)

(** A non-empty run of decimal digits. *)
Definition digits (d : string) : bool :=
  negb (String.eqb d EmptyString) && string_forall is_digit d.

(** [vMAJOR.MINOR.PATCH] *)
Definition semver_shape (s : string) : Prop :=
  exists d1 d2 d3,
    digits d1 = true /\ digits d2 = true /\ digits d3 = true /\
    s = "v" +:+ d1 +:+ "." +:+ d2 +:+ "." +:+ d3.

(** The character [c] does not occur in [s]. *)
Definition free_of (c : ascii) (s : string) : bool :=
  string_forall (fun x => negb (Ascii.eqb x c)) s.

(** The line has no module keyword at its head once trimmed. *)
Definition no_module_keyword (line : string) : Prop :=
  strings_HasPrefix (strings_TrimSpace line) "module " = false.

(** The identity an event is about; for an edge, its requirer. *)
Definition subject (e : event) : string :=
  match e with
  | EvVisit p | EvCutoff p | EvUnknown p => p
  | EvEdge a _ => a
  end.

(** The events of a log that are about [q], in program order. *)
Definition about (q : string) (tr : list event) : list event :=
  filter (fun e => subject e = q) tr.

(** What a whole run of the graph variant may log about an identity it
    inserted: the insertion and the cutoff; or the insertion followed by
    what [resolve] leads to. *)
Definition graph_story (w : World) (q : string) (l : list event) : Prop :=
  l = [EvVisit q; EvCutoff q] \/
  match resolve w q with
  | NotLocated => l = [EvVisit q; EvUnknown q]
  | NoManifest => l = [EvVisit q]
  | Manifest reqs => l = EvVisit q :: map (fun r => EvEdge q (requireLine r)) reqs
  end.

(** What a call that starts with the visited set [c] and ends with [c']
    logs about the identities it found unvisited. *)
Definition call_story (w : World) (c c' : gset string) (tr : list event) : Prop :=
  forall q, q ∉ c ->
    ((q ∉ c') /\ about q tr = []) \/
    ((q ∈ c') /\ graph_story w q (about q tr)).

(** [b] can be reached from [a] along requirement edges. *)
Definition reach (w : World) (a b : string) : Prop := exists n, within w n a b.

Definition unknowns (tr : list event) : list string :=
  omap (fun e => match e with EvUnknown p => Some p | _ => None end) tr.

(** Every requirement of [q]'s manifest is in [C]. *)
Definition requirements_in (w : World) (C : gset string) (q : string) : Prop :=
  forall reqs r, resolve w q = Manifest reqs -> r ∈ reqs -> requireLine r ∈ C.

(** No cache path of [q] is a hit. *)
Definition unlocated (w : World) (q : string) : bool :=
  match resolve w q with NotLocated => true | _ => false end.

(** The identities that the tree variant prints into its first buffer, read
    off the log: one for each cutoff and one for each insertion of an
    identity that is located. *)
Definition printed (w : World) (tr : list event) : list string :=
  omap (fun e => match e with
                 | EvCutoff q => Some q
                 | EvVisit q => if unlocated w q then None else Some q
                 | _ => None
                 end) tr.

(** The text of a buffer that received these lines through [Fprintln]. *)
Fixpoint lines (l : list string) : string :=
  match l with
  | [] => EmptyString
  | x :: rest => x +:+ newline +:+ lines rest
  end.

(** The buffers are the log in print. *)
Definition tree_buffers (w : World) (m : Tree.module) : Prop :=
  Tree.writer m = lines (Tree.stripComment <$> printed w (Tree.trace m)) /\
  Tree.unknown m = lines (Tree.stripComment <$> unknowns (Tree.trace m)) /\
  unknowns (Tree.trace m) = filter (fun q => unlocated w q) (visits (Tree.trace m)).

(** What an event of a walk of the tree variant from [p] with budget [n]
    may mention: an insertion needs a unit of budget, a leaf line does
    not. *)
Definition tree_event_within (w : World) (n : nat) (p : string) (e : event) : Prop :=
  match e with
  | EvVisit q | EvUnknown q => (1 <= n)%nat /\ within w (n - 1) p q
  | EvCutoff q => within w n p q
  | EvEdge _ _ => True
  end.

(** ** Worlds for the entry points *)

(** [w] with a module directive in the manifests: [names] maps the path of
    a go.mod to the module path it declares. *)
Definition named_world (w : World) (names : list (string * string)) : World :=
  {| gopath := gopath w;
     on_disk := on_disk w;
     os_Stat := os_Stat w;
     os_ReadFile := os_ReadFile w;
     modfile_Parse := fun p bytes =>
       match modfile_Parse w p bytes with
       | Some f => Some {| Module_Path := assoc p names; Requires := Requires f |}
       | None => None
       end |}.

(** *** A project in the GOPATH layout: app -> a -> b, and app -> gone,
    which is in no cache *)
Definition app_table : manifest_table :=
  [ ("/go/src/example.com/app",
     Some [req "example.com/a" "v1.0.0"; req "example.com/gone" "v0.1.0"]);
    (moddir "example.com/a" "v1.0.0", Some [req "example.com/b" "v1.0.0"]);
    (moddir "example.com/b" "v1.0.0", Some []) ].
Definition app_world : World :=
  named_world (table_world "/go" app_table)
              [("/go/src/example.com/app/go.mod", "example.com/app")].

(** *** The same project checked out outside the cache root *)
Definition stray_table : manifest_table :=
  [ ("/home/user/proj", Some [req "example.com/a" "v1.0.0"]);
    (moddir "example.com/a" "v1.0.0", Some []) ].
Definition stray_world : World :=
  named_world (table_world "/go" stray_table)
              [("/home/user/proj/go.mod", "example.com/app")].

(** The flags and the process state of a run in [dir]. *)
Definition run_in (dir : string) (depth : Z) : Env :=
  {| versionFlag := false; maxDepth := depth; modulePath := ".";
     os_Getwd := Some dir; user_Current := Some "/home/user" |}.

(** *** A go.mod with a comment line and a quoted module path, in a project
    directory of the GOPATH layout and in one of its subdirectories *)
Definition quoted_gomod : string :=
  "// the project" +:+ newline +:+
  "module " +:+ quote +:+ "github.com/foo/bar" +:+ quote +:+ newline +:+
  "go 1.21" +:+ newline.
Definition layout_world : World :=
  let gomod p :=
    String.eqb p "/go/src/github.com/foo/bar/go.mod" ||
    String.eqb p "/go/src/github.com/foo/bar/cmd/tool/go.mod" in
  let dir p :=
    String.eqb p "/go/src/github.com/foo/bar" ||
    String.eqb p "/go/src/github.com/foo/bar/cmd/tool" in
  {| gopath := "/go";
     on_disk := fun p => gomod p || dir p;
     os_Stat := fun p => if gomod p || dir p then None else Some ENOENT;
     os_ReadFile := fun p => if gomod p then Some quoted_gomod else None;
     modfile_Parse := fun _ _ => None |}.

(** The document of a run that recorded nothing but unknown identities. *)
Definition bare_document (unknown : list string) : Graph.document :=
  {| Graph.Packages := ∅; Graph.Indexes := []; Graph.Unknown := unknown;
     Graph.Stderr := [] |}.

(* ===================================================================== *)
(** * Part II: theorems                                                   *)
(* ===================================================================== *)

(** ** Strings *)

Lemma string_app_cons (x : ascii) (a b : string) :
  String x a +:+ b = String x (a +:+ b).
Proof. reflexivity. Qed.

Lemma string_app_nil_l (a : string) : EmptyString +:+ a = a.
Proof. reflexivity. Qed.

Lemma string_app_assoc (a b c : string) : (a +:+ b) +:+ c = a +:+ (b +:+ c).
Proof.
  induction a as [|x a IH]; [reflexivity|].
  rewrite !string_app_cons. now rewrite IH.
Qed.

Lemma string_app_nil_r (a : string) : a +:+ EmptyString = a.
Proof.
  induction a as [|x a IH]; [reflexivity|].
  rewrite string_app_cons. now rewrite IH.
Qed.

Lemma string_forall_app f (a b : string) :
  string_forall f (a +:+ b) = string_forall f a && string_forall f b.
Proof.
  induction a as [|x a IH]; [reflexivity|].
  rewrite string_app_cons. simpl. rewrite IH. now rewrite andb_assoc.
Qed.

Lemma HasPrefix_refl (s : string) : strings_HasPrefix s s = true.
Proof. induction s as [|c s IH]; simpl; [reflexivity|]. now rewrite Ascii.eqb_refl. Qed.

Lemma HasPrefix_app (p r : string) : strings_HasPrefix (p +:+ r) p = true.
Proof.
  induction p as [|c p IH]; [reflexivity|].
  rewrite string_app_cons. simpl. now rewrite Ascii.eqb_refl.
Qed.

Lemma HasPrefix_inv (s p : string) :
  strings_HasPrefix s p = true -> exists r, s = p +:+ r.
Proof.
  revert s. induction p as [|c p IH]; intros s H.
  - exists s. reflexivity.
  - destruct s as [|d s]; simpl in H; [discriminate|].
    destruct (Ascii.eqb c d) eqn:E; [|discriminate].
    apply Ascii.eqb_eq in E. subst d.
    destruct (IH _ H) as [r ->]. exists r. reflexivity.
Qed.

Lemma HasPrefix_single (a : ascii) (s : string) :
  strings_HasPrefix s (String a EmptyString) =
  match s with String c _ => Ascii.eqb a c | EmptyString => false end.
Proof. destruct s as [|c s]; simpl; [reflexivity|]. now destruct (Ascii.eqb a c). Qed.

Lemma Contains_tail (c : ascii) (s sub : string) :
  strings_Contains (String c s) sub = false ->
  strings_HasPrefix (String c s) sub = false /\ strings_Contains s sub = false.
Proof.
  cbn [strings_Contains]. destruct (strings_HasPrefix (String c s) sub); [discriminate|].
  now split.
Qed.

Lemma HasSuffix_Contains (s suffix : string) :
  strings_HasSuffix s suffix = true -> strings_Contains s suffix = true.
Proof.
  induction s as [|c s IH]; cbn [strings_HasSuffix strings_Contains].
  - destruct (String.eqb_spec EmptyString suffix) as [<-|]; [reflexivity | discriminate].
  - destruct (String.eqb_spec (String c s) suffix) as [<-|_].
    + now rewrite HasPrefix_refl.
    + intros H. rewrite (IH H). now destruct (strings_HasPrefix _ _).
Qed.

(** Without an occurrence of the separator the split is the whole string. *)
Lemma genSplit_no_match (sep s cur : string) :
  strings_Contains s sep = false ->
  genSplit sep O cur s = [cur +:+ s].
Proof.
  revert cur. induction s as [|c s IH]; intros cur H.
  - simpl. now rewrite string_app_nil_r.
  - apply Contains_tail in H as [Hp Hc].
    cbn [genSplit]. rewrite Hp, (IH _ Hc), string_app_assoc. reflexivity.
Qed.

Lemma Split_no_match (s sep : string) :
  sep <> EmptyString ->
  strings_Contains s sep = false ->
  strings_Split s sep = [s].
Proof.
  intros Hsep H. destruct sep as [|a sep]; [congruence|].
  unfold strings_Split. now rewrite genSplit_no_match.
Qed.

Lemma genSplit_skip (sep : string) (p s cur : string) :
  genSplit sep (String.length p) cur (p +:+ s) = genSplit sep O cur s.
Proof.
  induction p as [|c p IH]; [reflexivity|].
  rewrite string_app_cons. simpl. exact IH.
Qed.

Lemma genSplit_length (sep : string) (skip : nat) (cur s : string) :
  (1 <= List.length (genSplit sep skip cur s))%nat.
Proof.
  revert skip cur. induction s as [|c s IH]; intros skip cur; simpl; [lia|].
  destruct skip; [|apply IH].
  destruct (strings_HasPrefix _ _); simpl; [lia | apply IH].
Qed.

(** ** Case escaping *)

Ltac all_ascii c :=
  destruct c as [[] [] [] [] [] [] [] []]; vm_compute.

Lemma lower_ascii_upper (c : ascii) : is_upper c = true -> lower_ascii c <> c.
Proof. all_ascii c; intros H; try discriminate H; intros E; discriminate E. Qed.

Lemma lower_ascii_other (c : ascii) : is_upper c = false -> lower_ascii c = c.
Proof. unfold lower_ascii. now intros ->. Qed.

Lemma lower_ascii_not_upper (c : ascii) : is_upper (lower_ascii c) = false.
Proof. all_ascii c; reflexivity. Qed.



Lemma escape_spec_app (a b : string) :
  escape_spec (a +:+ b) = escape_spec a +:+ escape_spec b.
Proof.
  induction a as [|c a IH]; [reflexivity|].
  rewrite string_app_cons. cbn [escape_spec]. rewrite IH.
  now destruct (is_upper c).
Qed.

(** One round of the loop of [escapeCapitalsInModuleName]. *)
Lemma escape_round (newName : string) (c : ascii) :
  (if negb (String.eqb (strings_ToLower (String c EmptyString)) (String c EmptyString))
   then newName +:+ "!" +:+ strings_ToLower (String c EmptyString)
   else newName +:+ String c EmptyString)
  = newName +:+ escape_spec (String c EmptyString).
Proof.
  cbn [strings_ToLower escape_spec].
  destruct (is_upper c) eqn:U.
  - destruct (String.eqb_spec (String (lower_ascii c) EmptyString) (String c EmptyString)) as [E|_].
    + exfalso. injection E. now apply lower_ascii_upper.
    + reflexivity.
  - rewrite (lower_ascii_other _ U), String.eqb_refl. reflexivity.
Qed.

Lemma escape_loop (s newName : string) :
  fold_left
    (fun newName letter =>
       if negb (String.eqb (strings_ToLower letter) letter)
       then newName +:+ "!" +:+ strings_ToLower letter
       else newName +:+ letter)
    (explode s) newName
  = newName +:+ escape_spec s.
Proof.
  revert newName. induction s as [|c s IH]; intros newName.
  - simpl. now rewrite string_app_nil_r.
  - cbn [explode fold_left]. rewrite escape_round, IH, string_app_assoc.
    f_equal. change (String c s) with (String c EmptyString +:+ s).
    now rewrite escape_spec_app.
Qed.

Lemma escapeCapitals_spec (name : string) :
  escapeCapitalsInModuleName name = escape_spec name.
Proof. unfold escapeCapitalsInModuleName, strings_Split. apply escape_loop. Qed.

Lemma escape_spec_no_upper (s : string) :
  string_forall (fun c => negb (is_upper c)) (escape_spec s) = true.
Proof.
  induction s as [|c s IH]; [reflexivity|].
  cbn [escape_spec]. destruct (is_upper c) eqn:U; cbn [string_forall].
  - now rewrite lower_ascii_not_upper, IH.
  - now rewrite U, IH.
Qed.






(** The slices [s[0]] and [s[1]] of [getNameAndVersion] are in range. *)
Lemma genSplit_two (a : ascii) (s cur : string) :
  strings_Contains s (String a EmptyString) = true ->
  (2 <= List.length (genSplit (String a EmptyString) O cur s))%nat.
Proof.
  revert cur. induction s as [|c s IH]; intros cur; [discriminate|].
  cbn [strings_Contains genSplit].
  destruct (strings_HasPrefix (String c s) (String a EmptyString)).
  - intros _. cbn [List.length].
    pose proof (genSplit_length (String a EmptyString)
                  (String.length (String a EmptyString) - 1) EmptyString s). lia.
  - apply IH.
Qed.

Lemma getNameAndVersion_in_range (dep : string) :
  (strings_Contains dep "@" = true ->
   (2 <= List.length (strings_Split dep "@"))%nat) /\
  (1 <= List.length (strings_Split dep " "))%nat.
Proof.
  split.
  - apply genSplit_two.
  - apply genSplit_length.
Qed.



(** ** The cache locator *)

Lemma constructFilePath_locate (w : World) (dep : string) :
  constructFilePath w dep
  = locate w (candidates w (fst (getNameAndVersion dep)) (snd (getNameAndVersion dep))).
Proof.
  unfold constructFilePath, locate, candidates.
  destruct (getNameAndVersion dep) as [name version]. cbn [fst snd find].
  repeat match goal with |- context [stat_hit w ?p] => destruct (stat_hit w p) end;
    reflexivity.
Qed.

Lemma find_ext {A : Type} (f g : A -> bool) (l : list A) :
  (forall x, x ∈ l -> f x = g x) -> find f l = find g l.
Proof.
  induction l as [|x l IH]; intros H; [reflexivity|].
  cbn [find]. rewrite (H x) by constructor.
  destruct (g x); [reflexivity|]. apply IH. intros y Hy. apply H. now constructor.
Qed.

Lemma table_world_wf (root : string) (tbl : manifest_table) :
  World_wf (table_world root tbl).
Proof.
  intros p. cbn [table_world os_Stat on_disk].
  split; intros H;
    destruct (assoc p tbl) as [?|]; try destruct (assoc p (gomod_table tbl)) as [[?|]|];
    try reflexivity; discriminate H.
Qed.

Lemma notdir_world_wf : World_wf notdir_world.
Proof.
  intros p. cbn [notdir_world os_Stat on_disk].
  destruct (String.eqb p "/go/src"), (strings_HasPrefix p "/go/src/");
    split; intros H; try reflexivity; discriminate H.
Qed.

(** C5, as the code has it.  The locator looks at the three candidates in
    the fixed order and returns the first one whose [os.Stat] does not fail
    with a not-exist error, with [found = true], and the empty path with
    [found = false] when all three report not-exist; a hit on the flat
    source path wins over the versioned ones; the result depends on the
    world only through [os.Stat] at the candidates; and in a world whose
    stat reports no error but not-exist, the result is the first candidate
    that is on disk. *)
Theorem C5_locator_first_hit (w : World) (dep : string) :
  let name := fst (getNameAndVersion dep) in
  let version := snd (getNameAndVersion dep) in
  constructFilePath w dep = locate w (candidates w name version) /\
  (stat_hit w (filepath_Join [gopath w; "src"; name]) = true ->
   constructFilePath w dep = (filepath_Join [gopath w; "src"; name], true)) /\
  (forall w',
     gopath w' = gopath w ->
     (forall p, p ∈ candidates w name version -> os_Stat w' p = os_Stat w p) ->
     constructFilePath w' dep = constructFilePath w dep) /\
  (World_wf w ->
   (forall p, p ∈ candidates w name version ->
              os_Stat w p = None \/ os_Stat w p = Some ENOENT) ->
   constructFilePath w dep
   = match find (on_disk w) (candidates w name version) with
     | Some p => (p, true)
     | None => (EmptyString, false)
     end).
Proof.
  intros name version. repeat split.
  - apply constructFilePath_locate.
  - intros H. rewrite constructFilePath_locate. fold name version.
    unfold locate, candidates. cbn [find]. now rewrite H.
  - intros w' Hg Hs. rewrite !constructFilePath_locate. fold name version.
    unfold locate.
    assert (candidates w' name version = candidates w name version) as ->
      by (unfold candidates; now rewrite Hg).
    rewrite (find_ext (stat_hit w') (stat_hit w)); [reflexivity|].
    intros p Hp. unfold stat_hit. now rewrite (Hs p Hp).
  - intros Hwf Hs. rewrite constructFilePath_locate. fold name version.
    unfold locate.
    rewrite (find_ext (stat_hit w) (on_disk w)); [reflexivity|].
    intros p Hp. unfold stat_hit. destruct (Hwf p) as [H1 H2].
    destruct (Hs p Hp) as [E|E]; rewrite E; cbn.
    + symmetry. now apply H1.
    + symmetry. now apply H2.
Qed.

Lemma C5_locator_first_hit_witness :
  constructFilePath diamond_world idA = ("/go/pkg/mod/example.com/a@v1.0.0", true).
Proof.
  destruct (C5_locator_first_hit diamond_world idA) as (_ & _ & _ & H).
  rewrite H.
  - vm_compute. reflexivity.
  - apply table_world_wf.
  - intros p Hp. cbn [diamond_world table_world os_Stat].
    match goal with |- context [if ?b then _ else _] => destruct b end; auto.
Defined.

(** Against C5 as stated: with [/go/src] a regular file, no candidate of
    [example.com/x v1.2.3] is on disk, yet the locator answers
    [found = true] with the flat source path. *)
Lemma C5_counterexample :
  World_wf notdir_world /\
  Forall (fun p => on_disk notdir_world p = false)
         (candidates notdir_world "example.com/x" "v1.2.3") /\
  getNameAndVersion "example.com/x v1.2.3" = ("example.com/x", "v1.2.3") /\
  constructFilePath notdir_world "example.com/x v1.2.3"
  = ("/go/src/example.com/x", true).
Proof.
  split; [exact notdir_world_wf|].
  split; [repeat constructor|].
  split; reflexivity.
Qed.

(** ** The semantic version pattern *)

Lemma span_digits_spec (s d r : string) :
  span_digits s = (d, r) ->
  s = d +:+ r /\ string_forall is_digit d = true /\ stops r.
Proof.
  revert d r. induction s as [|c s IH]; intros d r H; cbn [span_digits] in H.
  - injection H as <- <-. now repeat split.
  - destruct (is_digit c) eqn:D.
    + destruct (span_digits s) as [d' r'] eqn:E. injection H as <- <-.
      destruct (IH _ _ eq_refl) as (-> & Hd & Hr).
      repeat split; [|exact Hr]. cbn [string_forall]. now rewrite D, Hd.
    + injection H as <- <-. now repeat split.
Qed.

Lemma span_digits_app (d r : string) :
  string_forall is_digit d = true -> stops r -> span_digits (d +:+ r) = (d, r).
Proof.
  intros Hd Hr. induction d as [|c d IH].
  - rewrite string_app_nil_l. destruct r as [|c r]; [reflexivity|].
    cbn [span_digits]. cbn [stops] in Hr. now rewrite Hr.
  - cbn [string_forall] in Hd. apply andb_prop in Hd as [Hc Hd].
    rewrite string_app_cons. cbn [span_digits]. now rewrite Hc, (IH Hd).
Qed.

Lemma digits1_spec (s d r : string) :
  digits1 s = Some (d, r) ->
  d <> EmptyString /\ s = d +:+ r /\ string_forall is_digit d = true /\ stops r.
Proof.
  unfold digits1. destruct (span_digits s) as [d' r'] eqn:E.
  destruct d' as [|c d']; [discriminate|].
  intros H. injection H as <- <-. split; [discriminate|].
  now apply span_digits_spec.
Qed.

Lemma digits1_app (d r : string) :
  d <> EmptyString -> string_forall is_digit d = true -> stops r ->
  digits1 (d +:+ r) = Some (d, r).
Proof.
  intros Hne Hd Hr. unfold digits1. rewrite (span_digits_app _ _ Hd Hr).
  destruct d; [congruence | reflexivity].
Qed.

Lemma lit_spec (c : ascii) (s r : string) : lit c s = Some r -> s = String c r.
Proof.
  destruct s as [|c' s]; cbn [lit]; [discriminate|].
  destruct (Ascii.eqb_spec c c') as [<-|]; [|discriminate].
  now intros [= <-].
Qed.

(** A match of the pattern matches itself, whole. *)
Lemma re_match_here_idem (s m : string) :
  re_match_here s = Some m -> re_match_here m = Some m.
Proof.
  unfold re_match_here at 1.
  destruct (lit "v" s) as [r0|]; [|discriminate].
  destruct (digits1 r0) as [[d1 r1]|] eqn:E1; [|discriminate].
  destruct (lit "." r1) as [r2|]; [|discriminate].
  destruct (digits1 r2) as [[d2 r3]|] eqn:E2; [|discriminate].
  destruct (lit "." r3) as [r4|]; [|discriminate].
  destruct (digits1 r4) as [[d3 r5]|] eqn:E3; [|discriminate].
  intros [= <-].
  apply digits1_spec in E1 as (N1 & _ & F1 & _).
  apply digits1_spec in E2 as (N2 & _ & F2 & _).
  apply digits1_spec in E3 as (N3 & _ & F3 & _).
  unfold re_match_here. rewrite !string_app_cons, !string_app_nil_l.
  cbn [lit]. rewrite Ascii.eqb_refl.
  rewrite (digits1_app d1 _ N1 F1) by reflexivity.
  cbn [lit]. rewrite Ascii.eqb_refl.
  rewrite (digits1_app d2 _ N2 F2) by reflexivity.
  cbn [lit]. rewrite Ascii.eqb_refl.
  rewrite <- (string_app_nil_r d3) at 1.
  rewrite (digits1_app d3 EmptyString N3 F3) by exact I.
  reflexivity.
Qed.

Lemma FindStringSubmatch_here (s m : string) :
  re_match_here s = Some m -> re_FindStringSubmatch s = [m].
Proof. intros H. destruct s; cbn [re_FindStringSubmatch]; now rewrite H. Qed.

Lemma FindStringSubmatch_cases (s : string) :
  re_FindStringSubmatch s = [] \/
  exists t m, re_match_here t = Some m /\ re_FindStringSubmatch s = [m].
Proof.
  induction s as [|c s IH]; cbn [re_FindStringSubmatch].
  - destruct (re_match_here EmptyString) as [m|] eqn:E; [right; eauto | now left].
  - destruct (re_match_here (String c s)) as [m|] eqn:E; [right; eauto | exact IH].
Qed.

Lemma getSemVer_idem (version : string) :
  getSemVer (getSemVer version) = getSemVer version.
Proof.
  unfold getSemVer at 2 3.
  destruct (FindStringSubmatch_cases version) as [->|(t & m & Hm & ->)].
  - reflexivity.
  - cbn. unfold getSemVer.
    now rewrite (FindStringSubmatch_here _ _ (re_match_here_idem _ _ Hm)).
Qed.

(** For an identity without [@] the version that [getNameAndVersion]
    returns is already reduced by [getSemVer]: the second and the third
    candidate of [constructFilePath] are one path. *)
Lemma space_form_version (dep : string) :
  strings_Contains dep "@" = false ->
  getSemVer (snd (getNameAndVersion dep)) = snd (getNameAndVersion dep).
Proof.
  intros H. unfold getNameAndVersion. rewrite H.
  destruct (Nat.eqb _ 1); cbn [snd]; [reflexivity | apply getSemVer_idem].
Qed.

Lemma space_form_third_is_second (w : World) (dep : string) :
  strings_Contains dep "@" = false ->
  let name := fst (getNameAndVersion dep) in
  let version := snd (getNameAndVersion dep) in
  nth 2 (candidates w name version) EmptyString
  = nth 1 (candidates w name version) EmptyString.
Proof.
  intros H name version. unfold candidates. cbn [nth].
  unfold name, version. now rewrite (space_form_version _ H).
Qed.

(** C8, evaluated.  For the requirement
    [github.com/foo/bar v0.0.0-20190101000000-abcdef123456] the version that
    reaches [constructFilePath] is [v0.0.0], the third candidate repeats
    the second, and a cache that holds the module under its raw
    pseudo-version is answered with [found = false].  The third candidate
    repeats the second for every identity that holds no [@]. *)
Theorem C8_third_attempt_drops_raw_version :
  (forall w dep,
     strings_Contains dep "@" = true \/
     nth 2 (candidates w (fst (getNameAndVersion dep)) (snd (getNameAndVersion dep)))
           EmptyString
     = nth 1 (candidates w (fst (getNameAndVersion dep)) (snd (getNameAndVersion dep)))
             EmptyString) /\
  getNameAndVersion pseudo_dep = ("github.com/foo/bar", "v0.0.0") /\
  candidates pseudo_world "github.com/foo/bar" "v0.0.0"
  = [ "/go/src/github.com/foo/bar";
      "/go/pkg/mod/github.com/foo/bar@v0.0.0";
      "/go/pkg/mod/github.com/foo/bar@v0.0.0" ] /\
  on_disk pseudo_world
    "/go/pkg/mod/github.com/foo/bar@v0.0.0-20190101000000-abcdef123456" = true /\
  constructFilePath pseudo_world (escapeCapitalsInModuleName pseudo_dep)
  = (EmptyString, false).
Proof.
  split.
  - intros w dep. destruct (strings_Contains dep "@") eqn:E; [now left | right].
    now apply space_form_third_is_second.
  - repeat split; vm_compute; reflexivity.
Qed.

(** ** The module name of the tree variant *)

Lemma Contains_forall (f : ascii -> bool) (s sub : string) :
  string_forall f s = true -> string_forall f sub = false ->
  strings_Contains s sub = false.
Proof.
  intros Hs Hsub. induction s as [|c s IH]; cbn [strings_Contains].
  - destruct (strings_HasPrefix EmptyString sub) eqn:E; [|reflexivity].
    apply HasPrefix_inv in E as [r E]. destruct sub; [discriminate Hsub | discriminate E].
  - destruct (strings_HasPrefix (String c s) sub) eqn:E.
    + apply HasPrefix_inv in E as [r E]. rewrite E, string_forall_app, Hsub in Hs.
      discriminate Hs.
    + apply IH. cbn [string_forall] in Hs. now apply andb_prop in Hs as [_ Hs].
Qed.

Lemma trim_right_id (s : string) :
  string_forall (fun c => negb (is_space c)) s = true -> trim_right s = s.
Proof.
  induction s as [|c s IH]; [reflexivity|].
  cbn [string_forall trim_right]. intros H. apply andb_prop in H as [Hc Hs].
  rewrite (IH Hs). apply negb_true_iff in Hc. rewrite Hc, andb_false_r. reflexivity.
Qed.

Lemma trim_right_app (a b : string) :
  b <> EmptyString -> trim_right b = b -> trim_right (a +:+ b) = a +:+ b.
Proof.
  intros Hne Hb. induction a as [|c a IH]; [exact Hb|].
  rewrite string_app_cons. cbn [trim_right]. rewrite IH.
  destruct (String.eqb_spec (a +:+ b) EmptyString) as [E|_]; [|reflexivity].
  destruct a; [now rewrite string_app_nil_l in E | discriminate E].
Qed.

Lemma string_forall_impl (f g : ascii -> bool) (s : string) :
  (forall c, f c = true -> g c = true) ->
  string_forall f s = true -> string_forall g s = true.
Proof.
  intros Hfg. induction s as [|c s IH]; [reflexivity|].
  cbn [string_forall]. intros H. apply andb_prop in H as [Hc Hs].
  now rewrite (Hfg _ Hc), (IH Hs).
Qed.

Section PlainAddress.
Variable addr : string.
Hypothesis Hplain : plain_address addr = true.

Lemma plain_nonempty : addr <> EmptyString.
Proof using Hplain.
  unfold plain_address in Hplain. apply andb_prop in Hplain as [H _].
  apply negb_true_iff, String.eqb_neq in H. exact H.
Qed.

Lemma plain_allowed : string_forall address_char addr = true.
Proof using Hplain.
  unfold plain_address in Hplain. now apply andb_prop in Hplain as [_ H].
Qed.

Lemma plain_no_space : string_forall (fun c => negb (is_space c)) addr = true.
Proof using Hplain.
  apply (string_forall_impl address_char); [|exact plain_allowed].
  intros c H. now apply andb_prop in H as [H _].
Qed.

Lemma plain_no_quote : strings_Contains addr quote = false.
Proof using Hplain. apply (Contains_forall address_char); [exact plain_allowed | reflexivity]. Qed.

Lemma plain_no_keyword : strings_Contains addr "module " = false.
Proof using Hplain. apply (Contains_forall address_char); [exact plain_allowed | reflexivity]. Qed.

(** The line [module <addr>] is left alone by [TrimSpace] and splits into
    the empty string and the address. *)
Lemma module_line_trim : strings_TrimSpace ("module " +:+ addr) = "module " +:+ addr.
Proof using Hplain.
  unfold strings_TrimSpace.
  change (trim_left ("module " +:+ addr)) with ("module " +:+ addr).
  apply trim_right_app; [exact plain_nonempty | apply trim_right_id, plain_no_space].
Qed.

Lemma module_line_split :
  strings_Split ("module " +:+ addr) "module " = [EmptyString; addr].
Proof using Hplain.
  unfold strings_Split.
  change ("module " +:+ addr) with (String "m" ("odule " +:+ addr)).
  cbn [genSplit].
  change (String "m" ("odule " +:+ addr)) with ("module " +:+ addr).
  rewrite HasPrefix_app.
  change (String.length "module " - 1)%nat with (String.length "odule ").
  rewrite genSplit_skip, (genSplit_no_match _ _ _ plain_no_keyword).
  reflexivity.
Qed.

(** What [getModuleName] does at that line: outside every directory whose
    path contains the address the index [1] is out of range. *)
Lemma moduleLine_panics (cwd : string) :
  strings_Contains cwd addr = false ->
  Tree.moduleLine cwd ("module " +:+ addr) = Panic.
Proof using Hplain.
  intros Hcwd. unfold Tree.moduleLine. rewrite module_line_split.
  cbn [lookup list_lookup]. rewrite plain_no_quote.
  destruct (strings_HasSuffix cwd addr) eqn:E.
  - apply HasSuffix_Contains in E. congruence.
  - rewrite (Split_no_match _ _ plain_nonempty Hcwd). reflexivity.
Qed.
End PlainAddress.

(** C10. The project directory [cwd] holds a go.mod whose first line is
    [module <addr>] for a plain address, and the path [cwd] does not contain
    [addr]: [getModuleName] of the tree variant panics on the index [1] of
    [strings.Split(cwd, modAddress)], and so does the entry point [List],
    instead of returning a name or exiting with a message. *)
Theorem C10_getModuleName_panics_outside_module_path
  (w : World) (cwd fileBytes addr : string) :
  os_ReadFile w (filepath_Join [cwd; "go.mod"]) = Some fileBytes ->
  hd_error (strings_Split fileBytes newline) = Some ("module " +:+ addr) ->
  plain_address addr = true ->
  strings_Contains cwd addr = false ->
  strings_HasSuffix cwd addr = false /\
  strings_Split cwd addr !! 1%nat = None /\
  Tree.getModuleName w cwd = Panic /\
  forall fuel m depth, Tree.List w fuel m cwd depth = Panic.
Proof.
  intros Hread Hhd Hplain Hcwd.
  assert (Tree.getModuleName w cwd = Panic) as Hpanic.
  { unfold Tree.getModuleName. rewrite Hread.
    destruct (strings_Split fileBytes newline) as [|line rest]; [discriminate Hhd|].
    injection Hhd as ->. cbn [Tree.scanLines].
    rewrite (module_line_trim _ Hplain), HasPrefix_app.
    now apply moduleLine_panics. }
  repeat split.
  - destruct (strings_HasSuffix cwd addr) eqn:E; [|reflexivity].
    apply HasSuffix_Contains in E. congruence.
  - now rewrite (Split_no_match _ _ (plain_nonempty _ Hplain) Hcwd).
  - exact Hpanic.
  - intros fuel m depth. unfold Tree.List. now rewrite Hpanic.
Qed.

Lemma C10_getModuleName_panics_outside_module_path_witness :
  Tree.getModuleName outside_world "/home/user/proj" = Panic.
Proof.
  apply (C10_getModuleName_panics_outside_module_path
           outside_world "/home/user/proj" outside_gomod "github.com/foo/bar");
    reflexivity.
Defined.

(** ** Event logs *)

Lemma visits_app (a b : list event) : visits (a ++ b) = visits a ++ visits b.
Proof. apply omap_app. Qed.

Lemma cutoffs_app (a b : list event) : cutoffs (a ++ b) = cutoffs a ++ cutoffs b.
Proof. apply omap_app. Qed.

Lemma targets_app (a b : list event) : targets (a ++ b) = targets a ++ targets b.
Proof. apply omap_app. Qed.

Lemma edges_app (a b : list event) : edges (a ++ b) = edges a ++ edges b.
Proof. apply omap_app. Qed.

Lemma elem_of_first_seen (seen l : list string) (x : string) :
  x ∈ first_seen seen l <-> x ∈ l /\ x ∉ seen.
Proof.
  revert seen. induction l as [|y l IH]; intros seen; cbn [first_seen].
  - split; [intros H; inversion H | intros [H _]; inversion H].
  - destruct (decide (y ∈ seen)) as [Hy|Hy].
    + rewrite IH, elem_of_cons. intuition (subst; tauto).
    + rewrite !elem_of_cons, IH, elem_of_cons.
      destruct (decide (x = y)) as [->|]; tauto.
Qed.

Lemma first_seen_NoDup (seen l : list string) : NoDup (first_seen seen l).
Proof.
  revert seen. induction l as [|y l IH]; intros seen; cbn [first_seen].
  - constructor.
  - destruct (decide (y ∈ seen)); [apply IH|].
    constructor; [|apply IH]. rewrite elem_of_first_seen, elem_of_cons. intuition (subst; tauto).
Qed.

Lemma first_seen_snoc (seen l : list string) (x : string) :
  first_seen seen (l ++ [x])
  = first_seen seen l ++ (if decide (x ∈ seen \/ x ∈ l) then [] else [x]).
Proof.
  revert seen. induction l as [|y l IH]; intros seen.
  - cbn [app first_seen]. destruct (decide (x ∈ seen)) as [H|H].
    + rewrite decide_True by now left. reflexivity.
    + rewrite decide_False; [reflexivity|]. intros [?|E]; [done | inversion E].
  - cbn [app first_seen]. destruct (decide (y ∈ seen)) as [Hy|Hy].
    + rewrite IH. f_equal. apply decide_ext. rewrite elem_of_cons. intuition (subst; tauto).
    + rewrite IH. cbn [app]. f_equal. f_equal. apply decide_ext.
      rewrite !elem_of_cons. intuition (subst; tauto).
Qed.

(** ** The graph walker *)

Section GraphWalk.
Variable w : World.

Import Graph.

(** The body of [getModuleList] read through [resolve]. *)
Lemma getModuleList_unfold fuel m modPath indent depth :
  getModuleList w (S fuel) m modPath indent depth
  = if decide (modPath ∈ cache m) then Some m
    else if depth =? 0 then Some (cutoff modPath (visit modPath m))
    else match resolve w modPath with
         | NotLocated => Some (markUnknown modPath (visit modPath m))
         | NoManifest => Some (visit modPath m)
         | Manifest reqs =>
             rangeRequires (getModuleList w fuel) modPath indent depth reqs
                           (visit modPath m)
         end.
Proof.
  cbn [getModuleList]. unfold resolve.
  destruct (decide (modPath ∈ cache m)); [reflexivity|].
  destruct (depth =? 0); [reflexivity|].
  destruct (constructFilePath w (escapeCapitalsInModuleName modPath)) as [rawPath []];
    [|reflexivity].
  destruct (os_ReadFile w _); [|reflexivity].
  destruct (modfile_Parse w _ _); reflexivity.
Qed.

Lemma rangeRequires_sound fuel modPath indent depth :
  (forall m p i d m', getModuleList w fuel m p i d = Some m' -> walk w m p i d m') ->
  forall reqs m m',
    rangeRequires (getModuleList w fuel) modPath indent depth reqs m = Some m' ->
    walk_requires w modPath indent depth reqs m m'.
Proof.
  intros IH reqs. induction reqs as [|r reqs IHr]; intros m m' H; cbn [rangeRequires] in H.
  - injection H as <-. constructor.
  - destruct (getModuleList w fuel _ _ _ _) as [m1|] eqn:E; [|discriminate].
    econstructor; [apply IH, E | apply IHr, H].
Qed.

(** Every result of the function is a walk of the relation. *)
Lemma getModuleList_sound fuel :
  forall m modPath indent depth m',
    getModuleList w fuel m modPath indent depth = Some m' ->
    walk w m modPath indent depth m'.
Proof.
  induction fuel as [|fuel IH]; intros m p i d m' H; [discriminate|].
  rewrite getModuleList_unfold in H.
  destruct (decide (p ∈ cache m)) as [Hin|Hin].
  { injection H as <-. now constructor. }
  destruct (Z.eqb_spec d 0) as [->|Hd].
  { injection H as <-. now constructor. }
  destruct (resolve w p) as [| |reqs] eqn:R.
  - injection H as <-. now apply walk_unknown.
  - injection H as <-. now apply walk_nomanifest.
  - eapply walk_expand; eauto. eapply rangeRequires_sound; eauto.
Qed.

(** More fuel does not change a result. *)
Lemma getModuleList_fuel_mono fuel :
  forall fuel' m modPath indent depth m',
    (fuel <= fuel')%nat ->
    getModuleList w fuel m modPath indent depth = Some m' ->
    getModuleList w fuel' m modPath indent depth = Some m'.
Proof.
  induction fuel as [|fuel IH]; intros fuel' m p i d m' Hle H; [discriminate|].
  destruct fuel' as [|fuel']; [lia|].
  rewrite getModuleList_unfold in H. rewrite getModuleList_unfold.
  destruct (decide (p ∈ cache m)); [exact H|].
  destruct (d =? 0); [exact H|].
  destruct (resolve w p) as [| |reqs]; [exact H | exact H |].
  revert H. generalize (visit p m) as m1.
  induction reqs as [|r reqs IHr]; intros m1 H; cbn [rangeRequires] in *; [exact H|].
  destruct (getModuleList w fuel _ _ _ _) as [m2|] eqn:E; [|discriminate].
  rewrite (IH fuel' _ _ _ _ _ ltac:(lia) E). now apply IHr.
Qed.

(** A reflexive and transitive relation that every primitive step
    respects is respected by the whole walk. *)
Section Steps.
Variable R : relation module.
Hypothesis R_refl : forall m, R m m.
Hypothesis R_trans : forall a b c, R a b -> R b c -> R a c.
Hypothesis R_visit : forall p m, p ∉ cache m -> R m (visit p m).
Hypothesis R_cutoff : forall p m, R m (cutoff p m).
Hypothesis R_unknown : forall p m, R m (markUnknown p m).
Hypothesis R_edge : forall p line m, R m (recordEdge p line m).

Lemma walk_steps :
  (forall m p i d m', walk w m p i d m' -> R m m') /\
  (forall p i d reqs m m', walk_requires w p i d reqs m m' -> R m m').
Proof using All.
  apply (walk_mutind w (fun m _ _ _ m' => R m m') (fun _ _ _ _ m m' => R m m')).
  - intros; apply R_refl.
  - intros m p _ _ Hin _. eapply R_trans; [apply (R_visit p), Hin | apply R_cutoff].
  - intros m p _ _ Hin _ _. eapply R_trans; [apply (R_visit p), Hin | apply R_unknown].
  - intros m p _ _ Hin _ _. apply (R_visit p), Hin.
  - intros m p _ _ reqs m' Hin _ _ _ IH. eapply R_trans; [apply (R_visit p), Hin | exact IH].
  - intros; apply R_refl.
  - intros p _ _ r rest m m1 m2 _ IH1 _ IH2.
    eapply R_trans; [apply (R_edge p (requireLine r)) | eapply R_trans; eauto].
Qed.

Lemma walk_rel m p i d m' : walk w m p i d m' -> R m m'.
Proof using All. apply walk_steps. Qed.

Lemma walk_requires_rel p i d reqs m m' :
  walk_requires w p i d reqs m m' -> R m m'.
Proof using All. apply walk_steps. Qed.
End Steps.

(** Invariants are the relations [I m -> I m']. *)
Lemma walk_invariant (I : module -> Prop) :
  (forall p m, p ∉ cache m -> I m -> I (visit p m)) ->
  (forall p m, I m -> I (cutoff p m)) ->
  (forall p m, I m -> I (markUnknown p m)) ->
  (forall p line m, I m -> I (recordEdge p line m)) ->
  forall m p i d m', walk w m p i d m' -> I m -> I m'.
Proof.
  intros Hv Hc Hu He.
  apply (walk_rel (fun m m' => I m -> I m')); auto.
Qed.

Lemma recordEdge_cache p line m : cache (recordEdge p line m) = cache m.
Proof. unfold recordEdge. now destruct (assignIndex line (indexes m)). Qed.

Lemma recordEdge_trace p line m :
  trace (recordEdge p line m) = trace m ++ [EvEdge p line].
Proof. unfold recordEdge. now destruct (assignIndex line (indexes m)). Qed.

Lemma recordEdge_unknown p line m : unknown (recordEdge p line m) = unknown m.
Proof. unfold recordEdge. now destruct (assignIndex line (indexes m)). Qed.

Lemma walk_cache_mono m p i d m' : walk w m p i d m' -> cache m ⊆ cache m'.
Proof.
  apply (walk_rel (fun m m' => cache m ⊆ cache m')).
  - reflexivity.
  - intros a b c ? ?. now transitivity (cache b).
  - intros q n _. cbn. set_solver.
  - reflexivity.
  - reflexivity.
  - intros q line n. now rewrite recordEdge_cache.
Qed.

Lemma walk_requires_cache_mono p i d reqs m m' :
  walk_requires w p i d reqs m m' -> cache m ⊆ cache m'.
Proof.
  apply (walk_requires_rel (fun m m' => cache m ⊆ cache m')).
  - reflexivity.
  - intros a b c ? ?. now transitivity (cache b).
  - intros q n _. cbn. set_solver.
  - reflexivity.
  - reflexivity.
  - intros q line n. now rewrite recordEdge_cache.
Qed.

Lemma walk_trace_prefix m p i d m' : walk w m p i d m' -> trace m `prefix_of` trace m'.
Proof.
  apply (walk_rel (fun m m' => trace m `prefix_of` trace m')).
  - reflexivity.
  - intros a b c ? ?. now transitivity (trace b).
  - intros q n _. now apply prefix_app_r.
  - intros q n. now apply prefix_app_r.
  - intros q n. now apply prefix_app_r.
  - intros q line n. rewrite recordEdge_trace. now apply prefix_app_r.
Qed.

(** The identity a call is made on is in the visited set afterwards. *)
Lemma walk_visits_target m p i d m' : walk w m p i d m' -> p ∈ cache m'.
Proof.
  intros H. destruct H as [m p i d Hin | m p i d | m p i d | m p i d | m p i d reqs m' Hin Hd Hr Hw].
  - exact Hin.
  - cbn. set_solver.
  - cbn. set_solver.
  - cbn. set_solver.
  - apply walk_requires_cache_mono in Hw. cbn in Hw. set_solver.
Qed.

End GraphWalk.

(** ** Invariants of the graph state *)

Section GraphInvariants.
Import Graph.

Lemma assignIndex_cases line (idx : gmap string nat) :
  (exists i, idx !! line = Some i /\ assignIndex line idx = (i, idx)) \/
  (idx !! line = None /\
   assignIndex line idx = (size idx, <[line := size idx]> idx)).
Proof. unfold assignIndex. destruct (idx !! line) as [i|]; eauto. Qed.

Lemma recordEdge_indexes p line m :
  indexes (recordEdge p line m) = snd (assignIndex line (indexes m)).
Proof. unfold recordEdge. now destruct (assignIndex line (indexes m)). Qed.

Lemma recordEdge_packages p line m :
  packages (recordEdge p line m)
  = <[p := {[fst (assignIndex line (indexes m))]} ∪ default ∅ (packages m !! p)]>
      (packages m).
Proof.
  unfold recordEdge. destruct (assignIndex line (indexes m)) as [index idx].
  cbn [packages fst]. destruct (packages m !! p) as [s|] eqn:E.
  - now rewrite E.
  - now rewrite lookup_insert_eq, insert_insert_eq.
Qed.

Lemma assignIndex_lookup line (idx : gmap string nat) :
  snd (assignIndex line idx) !! line = Some (fst (assignIndex line idx)).
Proof.
  destruct (assignIndex_cases line idx) as [(i & H & ->)|(H & ->)]; cbn [fst snd].
  - exact H.
  - apply lookup_insert_eq.
Qed.

Lemma assignIndex_mono line (idx : gmap string nat) :
  idx ⊆ snd (assignIndex line idx).
Proof.
  destruct (assignIndex_cases line idx) as [(i & H & ->)|(H & ->)]; cbn [snd].
  - reflexivity.
  - now apply insert_subseteq.
Qed.

Lemma targets_snoc_edge tr p line :
  targets (tr ++ [EvEdge p line]) = targets tr ++ [line].
Proof. now rewrite targets_app. Qed.

Lemma edges_snoc_edge tr p line :
  edges (tr ++ [EvEdge p line]) = edges tr ++ [(p, line)].
Proof. now rewrite edges_app. Qed.

(** *** The visited set *)

Lemma visited_once_visit p c tr :
  p ∉ c -> visited_once c tr -> visited_once ({[p]} ∪ c) (tr ++ [EvVisit p]).
Proof.
  intros Hp [Hnd Hmem]. unfold visited_once. rewrite visits_app. cbn.
  split.
  - apply NoDup_app. split; [exact Hnd|]. split; [|apply NoDup_singleton].
    intros x Hx ->%list_elem_of_singleton. now apply Hp, Hmem.
  - intros id. rewrite elem_of_union, elem_of_singleton, elem_of_app,
      list_elem_of_singleton, Hmem. tauto.
Qed.

Lemma visited_once_other c tr e :
  match e with EvVisit _ => False | _ => True end ->
  visited_once c tr -> visited_once c (tr ++ [e]).
Proof.
  intros He H. unfold visited_once. rewrite visits_app.
  destruct e; [contradiction| | |]; cbn; now rewrite app_nil_r.
Qed.

(** *** The index table *)

Lemma index_inv_other m m' e :
  match e with EvEdge _ _ => False | _ => True end ->
  indexes m' = indexes m -> trace m' = trace m ++ [e] ->
  index_inv m -> index_inv m'.
Proof.
  intros He Hi Ht H. unfold index_inv. rewrite Hi, Ht, targets_app.
  destruct e; [| | contradiction |]; cbn; now rewrite app_nil_r.
Qed.

Lemma index_inv_target_indexed m t :
  index_inv m -> t ∈ targets (trace m) -> is_Some (indexes m !! t).
Proof.
  intros [H _] Ht.
  assert (t ∈ first_seen [] (targets (trace m))) as Hin.
  { apply elem_of_first_seen. split; [exact Ht | apply not_elem_of_nil]. }
  apply list_elem_of_lookup in Hin as [i Hi]. exists i. now apply H.
Qed.

Lemma index_inv_recordEdge p line m :
  index_inv m -> index_inv (recordEdge p line m).
Proof.
  intros [Hbij Hsize]. unfold index_inv.
  rewrite recordEdge_indexes, recordEdge_trace, targets_snoc_edge, first_seen_snoc.
  set (L := first_seen [] (targets (trace m))) in *.
  destruct (assignIndex_cases line (indexes m)) as [(i & Hi & ->)|(Hi & ->)]; cbn [snd].
  - assert (line ∈ targets (trace m)) as Hin.
    { apply Hbij, list_elem_of_lookup_2, elem_of_first_seen in Hi. tauto. }
    rewrite decide_True by now right. rewrite app_nil_r. now split.
  - assert (line ∉ L) as HnL.
    { intros [i Hl]%list_elem_of_lookup. apply Hbij in Hl. congruence. }
    assert (line ∉ targets (trace m)) as Hnt.
    { intros Hin. apply HnL, elem_of_first_seen. split; [exact Hin | apply not_elem_of_nil]. }
    rewrite decide_False by (intros [H|H]; [now apply not_elem_of_nil in H | auto]).
    split.
    + intros s i. destruct (decide (s = line)) as [->|Hne].
      * rewrite lookup_insert_eq, Hsize. split.
        -- intros [= <-]. rewrite lookup_app_r by lia.
           now rewrite Nat.sub_diag.
        -- intros H. apply lookup_app_Some in H as [H|[Hge H]].
           ++ now apply list_elem_of_lookup_2 in H.
           ++ apply list_lookup_singleton_Some in H as [H _]. f_equal. lia.
      * rewrite lookup_insert_ne by congruence. rewrite Hbij. split.
        -- apply lookup_app_l_Some.
        -- intros H. apply lookup_app_Some in H as [H|[Hge H]]; [exact H|].
           apply list_lookup_singleton_Some in H as [_ H]. congruence.
    + rewrite map_size_insert_None by exact Hi.
      rewrite List.length_app, Hsize. cbn. lia.
Qed.

(** *** The edge sets *)

Lemma edge_inv_other m m' e :
  match e with EvEdge _ _ => False | _ => True end ->
  indexes m' = indexes m -> packages m' = packages m ->
  trace m' = trace m ++ [e] ->
  edge_inv m -> edge_inv m'.
Proof.
  intros He Hi Hp Ht H. unfold edge_inv. rewrite Hi, Hp, Ht, edges_app.
  destruct e; [| | contradiction |]; cbn; now rewrite app_nil_r.
Qed.

Lemma edge_inv_recordEdge p line m :
  index_inv m -> edge_inv m -> edge_inv (recordEdge p line m).
Proof.
  intros Hidx [Hedges Hne]. unfold edge_inv.
  rewrite recordEdge_indexes, recordEdge_packages, recordEdge_trace, edges_snoc_edge.
  pose proof (assignIndex_lookup line (indexes m)) as Hline.
  pose proof (assignIndex_mono line (indexes m)) as Hmono.
  set (index := fst (assignIndex line (indexes m))) in *.
  set (idx := snd (assignIndex line (indexes m))) in *.
  assert (forall b i, b ∈ targets (trace m) -> idx !! b = Some i ->
                      indexes m !! b = Some i) as Hold.
  { intros b i Hb Hi. destruct (index_inv_target_indexed m b Hidx Hb) as [j Hj].
    pose proof (lookup_weaken _ _ _ _ Hj Hmono) as Hj'. congruence. }
  assert (forall a b, (a, b) ∈ edges (trace m) -> b ∈ targets (trace m)) as Htgt.
  { intros a b. unfold edges, targets. rewrite !list_elem_of_omap.
    intros (e & He & Hm). exists e. split; [exact He|].
    destruct e; try discriminate. now injection Hm as _ ->. }
  split.
  - intros a i. split.
    + intros (s & Hs & Hi). destruct (decide (a = p)) as [->|Hap].
      * rewrite lookup_insert_eq in Hs. injection Hs as <-.
        apply elem_of_union in Hi as [Hi|Hi].
        -- apply elem_of_singleton in Hi as ->. exists line. split; [|exact Hline].
           apply elem_of_app. right. constructor.
        -- destruct (packages m !! p) as [s|] eqn:E; cbn in Hi;
             [|now apply not_elem_of_empty in Hi].
           destruct (proj1 (Hedges p i)) as (b & Hb & Hbi); [eauto|].
           exists b. split; [apply elem_of_app; now left|].
           exact (lookup_weaken _ _ _ _ Hbi Hmono).
      * rewrite lookup_insert_ne in Hs by congruence.
        destruct (proj1 (Hedges a i)) as (b & Hb & Hbi); [eauto|].
        exists b. split; [apply elem_of_app; now left|].
        exact (lookup_weaken _ _ _ _ Hbi Hmono).
    + intros (b & Hb & Hbi). apply elem_of_app in Hb as [Hb|Hb].
      * apply Hold in Hbi; [|eapply Htgt, Hb].
        destruct (proj2 (Hedges a i)) as (s & Hs & Hi); [eauto|].
        destruct (decide (a = p)) as [->|Hap].
        -- eexists. rewrite lookup_insert_eq. split; [reflexivity|].
           rewrite Hs. cbn. apply elem_of_union. now right.
        -- exists s. now rewrite lookup_insert_ne by congruence.
      * apply list_elem_of_singleton in Hb. injection Hb as -> ->.
        eexists. rewrite lookup_insert_eq. split; [reflexivity|].
        apply elem_of_union. left. apply elem_of_singleton. congruence.
  - intros a s. destruct (decide (a = p)) as [->|Hap].
    + rewrite lookup_insert_eq. intros [= <-]. set_solver.
    + rewrite lookup_insert_ne by congruence. apply Hne.
Qed.

(** *** Edges come after the visit of their requirer *)

Lemma edges_after_visit_snoc seen tr e :
  edges_after_visit seen (tr ++ [e]) <->
  edges_after_visit seen tr /\
  match e with EvEdge a _ => a ∈ seen \/ a ∈ visits tr | _ => True end.
Proof.
  revert seen. induction tr as [|e' tr IH]; intros seen.
  - destruct e; cbn; rewrite ?elem_of_nil; tauto.
  - destruct e' as [q|q|a b|q]; cbn [app edges_after_visit]; rewrite IH.
    + destruct e; cbn; rewrite ?elem_of_cons; tauto.
    + destruct e; cbn; tauto.
    + destruct e; cbn; tauto.
    + destruct e; cbn; tauto.
Qed.

Lemma walk_edges_ordered w :
  (forall m p i d m',
     walk w m p i d m' ->
     edges_after_visit [] (trace m) /\ visited_once (cache m) (trace m) ->
     edges_after_visit [] (trace m') /\ visited_once (cache m') (trace m')) /\
  (forall p i d reqs m m',
     walk_requires w p i d reqs m m' ->
     p ∈ cache m ->
     edges_after_visit [] (trace m) /\ visited_once (cache m) (trace m) ->
     edges_after_visit [] (trace m') /\ visited_once (cache m') (trace m')).
Proof.
  assert (forall q n, q ∉ cache n ->
            edges_after_visit [] (trace n) /\ visited_once (cache n) (trace n) ->
            edges_after_visit [] (trace (visit q n)) /\
            visited_once (cache (visit q n)) (trace (visit q n))) as Hvisit.
  { intros q n Hq [He Hv]. split; [|now apply visited_once_visit].
    cbn. apply edges_after_visit_snoc. now split. }
  apply walk_mutind.
  - auto.
  - intros m p i d Hin _ H. apply (Hvisit p m Hin) in H as [He Hv]. split.
    + cbn. apply edges_after_visit_snoc. now split.
    + now apply (visited_once_other _ _ (EvCutoff p)).
  - intros m p i d Hin _ _ H. apply (Hvisit p m Hin) in H as [He Hv]. split.
    + cbn. apply edges_after_visit_snoc. now split.
    + now apply (visited_once_other _ _ (EvUnknown p)).
  - intros m p i d Hin _ _ H. now apply Hvisit.
  - intros m p i d reqs m' Hin _ _ _ IH H. apply IH.
    + cbn. set_solver.
    + now apply Hvisit.
  - auto.
  - intros p i d r rest m m1 m2 Hw IH1 _ IH2 Hp [He Hv].
    apply IH2.
    + apply walk_cache_mono in Hw. rewrite recordEdge_cache in Hw. set_solver.
    + apply IH1. rewrite recordEdge_cache, recordEdge_trace. split.
      * apply edges_after_visit_snoc. split; [exact He|]. right. now apply Hv.
      * now apply (visited_once_other _ _ (EvEdge p (requireLine r))).
Qed.

Lemma walk_edges_after_visit w m p i d m' :
  walk w m p i d m' ->
  edges_after_visit [] (trace m) -> visited_once (cache m) (trace m) ->
  edges_after_visit [] (trace m').
Proof.
  intros H He Hv. now apply (proj1 (walk_edges_ordered w) _ _ _ _ _ H).
Qed.

Lemma graph_inv_fresh : graph_inv fresh.
Proof.
  repeat split; cbn; try constructor; set_solver.
Qed.

Lemma graph_inv_walk w m p i d m' :
  walk w m p i d m' -> graph_inv m -> graph_inv m'.
Proof.
  apply walk_invariant.
  - intros q n Hq (Hv & Hi & He). split; [|split].
    + now apply visited_once_visit.
    + eapply (index_inv_other n _ (EvVisit q)); eauto; exact I.
    + eapply (edge_inv_other n _ (EvVisit q)); eauto; exact I.
  - intros q n (Hv & Hi & He). split; [|split].
    + now apply (visited_once_other _ _ (EvCutoff q)).
    + eapply (index_inv_other n _ (EvCutoff q)); eauto; exact I.
    + eapply (edge_inv_other n _ (EvCutoff q)); eauto; exact I.
  - intros q n (Hv & Hi & He). split; [|split].
    + now apply (visited_once_other _ _ (EvUnknown q)).
    + eapply (index_inv_other n _ (EvUnknown q)); eauto; exact I.
    + eapply (edge_inv_other n _ (EvUnknown q)); eauto; exact I.
  - intros q line n (Hv & Hi & He). split; [|split].
    + rewrite recordEdge_cache, recordEdge_trace.
      now apply (visited_once_other _ _ (EvEdge q line)).
    + now apply index_inv_recordEdge.
    + now apply edge_inv_recordEdge.
Qed.

Lemma indexes_mono_walk w m p i d m' :
  walk w m p i d m' -> indexes m ⊆ indexes m'.
Proof.
  apply (walk_rel w (fun m m' => indexes m ⊆ indexes m')).
  - reflexivity.
  - intros a b c ? ?. now transitivity (indexes b).
  - reflexivity.
  - reflexivity.
  - reflexivity.
  - intros q line n. rewrite recordEdge_indexes. apply assignIndex_mono.
Qed.

End GraphInvariants.

(** ** Termination of the graph walker *)

Lemma int_pred_exact (d : Z) : - 2 ^ 63 < d < 2 ^ 63 -> int_pred d = d - 1.
Proof.
  intros H. unfold int_pred, int_wrap.
  rewrite Z.mod_small by lia. lia.
Qed.

Lemma size_unvisited_lt (U c : gset string) (p : string) :
  p ∈ U -> p ∉ c -> (size (U ∖ ({[p]} ∪ c)) < size (U ∖ c))%nat.
Proof. intros HU Hc. apply subset_size. set_solver. Qed.

Lemma size_unvisited_le (U c c' : gset string) :
  c ⊆ c' -> (size (U ∖ c') <= size (U ∖ c))%nat.
Proof. intros H. apply subseteq_size. set_solver. Qed.

Section GraphTermination.
Import Graph.
Variable w : World.
Variable U : gset string.
Hypothesis Hclosed : closed_world w U.

(** With more fuel than unvisited identities the walk returns. *)
Lemma getModuleList_total :
  forall fuel m p i d,
    cache m ⊆ U -> p ∈ U -> (size (U ∖ cache m) < fuel)%nat ->
    exists m', getModuleList w fuel m p i d = Some m' /\ cache m' ⊆ U.
Proof using Hclosed.
  induction fuel as [|fuel IH]; intros m p i d Hc Hp Hfuel; [lia|].
  rewrite getModuleList_unfold.
  destruct (decide (p ∈ cache m)) as [Hin|Hin]; [eauto|].
  assert (cache (visit p m) ⊆ U) as Hc' by (cbn; set_solver).
  destruct (d =? 0); [eauto|].
  destruct (resolve w p) as [| |reqs] eqn:R; [eauto | eauto |].
  assert (size (U ∖ cache (visit p m)) < fuel)%nat as Hfuel'.
  { pose proof (size_unvisited_lt U (cache m) p Hp Hin). cbn. lia. }
  assert (forall r, r ∈ reqs -> requireLine r ∈ U) as Hreqs
    by (intros r Hr; eapply Hclosed; eauto).
  clear R Hfuel Hin Hc. revert Hc' Hfuel' Hreqs. generalize (visit p m) as m1.
  induction reqs as [|r reqs IHr]; intros m1 Hc1 Hf1 Hreqs; cbn [rangeRequires].
  - eauto.
  - destruct (IH (recordEdge p (requireLine r) m1) (requireLine r) (i +:+ "  ")
                 (int_pred d)) as (m2 & E & Hc2).
    + now rewrite recordEdge_cache.
    + apply Hreqs. constructor.
    + now rewrite recordEdge_cache.
    + rewrite E. apply IHr.
      * exact Hc2.
      * apply getModuleList_sound, walk_cache_mono in E.
        rewrite recordEdge_cache in E.
        pose proof (size_unvisited_le U _ _ E). lia.
      * intros r' Hr'. apply Hreqs. now constructor.
Qed.

(** *** The unlimited sentinel *)

Hypothesis Hsmall : Z.of_nat (size U) < 2 ^ 63.

(** A negative budget no lower than minus the number of visited
    identities minus one stays negative all the way down. *)
Lemma walk_unlimited :
  (forall m p i d m',
     walk w m p i d m' ->
     d < 0 -> - d <= Z.of_nat (size (cache m)) + 1 ->
     cache m ⊆ U -> p ∈ U ->
     cutoffs (trace m') = cutoffs (trace m) /\ cache m' ⊆ U) /\
  (forall p i d reqs m m',
     walk_requires w p i d reqs m m' ->
     d < 0 -> - d <= Z.of_nat (size (cache m)) ->
     cache m ⊆ U -> (forall r, r ∈ reqs -> requireLine r ∈ U) ->
     cutoffs (trace m') = cutoffs (trace m) /\ cache m' ⊆ U).
Proof using Hclosed Hsmall.
  apply walk_mutind.
  - intros m p i d Hin Hd Hb Hc Hp. now split.
  - intros m p i d Hin -> Hd. lia.
  - intros m p i d Hin _ _ Hd Hb Hc Hp. split.
    + cbn. now rewrite !cutoffs_app, !app_nil_r.
    + cbn. set_solver.
  - intros m p i d Hin _ _ Hd Hb Hc Hp. split.
    + cbn. now rewrite !cutoffs_app, !app_nil_r.
    + cbn. set_solver.
  - intros m p i d reqs m' Hin _ R _ IH Hd Hb Hc Hp.
    destruct IH as [IH1 IH2].
    + exact Hd.
    + cbn. rewrite size_union by set_solver. rewrite size_singleton. lia.
    + cbn. set_solver.
    + intros r Hr. eapply Hclosed; eauto.
    + split; [|exact IH2]. rewrite IH1. cbn. now rewrite cutoffs_app, app_nil_r.
  - intros p i d m Hd Hb Hc Hr. now split.
  - intros p i d r rest m m1 m2 Hw IH1 Hwr IH2 Hd Hb Hc Hr.
    pose proof (subseteq_size _ _ Hc) as Hsz.
    assert (int_pred d = d - 1) as Hpred by (apply int_pred_exact; lia).
    destruct IH1 as [IH1a IH1b].
    + lia.
    + rewrite recordEdge_cache. lia.
    + now rewrite recordEdge_cache.
    + apply Hr. constructor.
    + apply walk_cache_mono in Hw. rewrite recordEdge_cache in Hw.
      pose proof (subseteq_size _ _ Hw) as Hsz'.
      destruct IH2 as [IH2a IH2b].
      * exact Hd.
      * lia.
      * exact IH1b.
      * intros r' Hr'. apply Hr. now constructor.
      * split; [|exact IH2b].
        rewrite IH2a, IH1a, recordEdge_trace, cutoffs_app. cbn. now rewrite app_nil_r.
Qed.

End GraphTermination.

(** ** The depth budget of the graph walker *)

Section GraphDepth.
Import Graph.
Variable w : World.

Lemma within_mono n n' a b : (n <= n')%nat -> within w n a b -> within w n' a b.
Proof.
  intros Hle H. revert n' Hle. induction H as [n a|n a b reqs r H IH R Hr]; intros n' Hle.
  - constructor.
  - destruct n' as [|n']; [lia|]. econstructor; eauto. apply IH. lia.
Qed.

Lemma within_shift n p reqs r q :
  resolve w p = Manifest reqs -> r ∈ reqs ->
  within w n (requireLine r) q -> within w (S n) p q.
Proof.
  intros R Hr H. remember (requireLine r) as line eqn:E.
  induction H as [n a|n a b reqs' r' H IH R' Hr']; subst.
  - econstructor; eauto. constructor.
  - econstructor; eauto.
Qed.

Lemma event_within_shift n p reqs r e :
  resolve w p = Manifest reqs -> r ∈ reqs ->
  event_within w n (requireLine r) e -> event_within w (S n) p e.
Proof.
  intros R Hr. destruct e as [q|q|a b|q]; cbn [event_within];
    try (now apply within_shift with reqs).
  intros (Hn & Ha & Hb). split; [lia|]. split.
  - replace (S n - 1)%nat with (S (n - 1)) by lia. now apply within_shift with reqs r.
  - now apply within_shift with reqs r.
Qed.

Lemma walk_bounded :
  (forall m p i d m',
     walk w m p i d m' ->
     forall n, d = Z.of_nat n -> d < 2 ^ 63 ->
     exists tr, trace m' = trace m ++ tr /\ Forall (event_within w n p) tr) /\
  (forall p i d reqs m m',
     walk_requires w p i d reqs m m' ->
     forall n reqs0,
       d = Z.of_nat (S n) -> d < 2 ^ 63 ->
       resolve w p = Manifest reqs0 -> (forall r, r ∈ reqs -> r ∈ reqs0) ->
       exists tr, trace m' = trace m ++ tr /\ Forall (event_within w (S n) p) tr).
Proof.
  apply walk_mutind.
  - intros m p i d _ n _ _. exists []. now rewrite app_nil_r.
  - intros m p i d _ _ n _ _. exists [EvVisit p; EvCutoff p]. split.
    + cbn. now rewrite <- app_assoc.
    + repeat constructor.
  - intros m p i d _ _ _ n _ _. exists [EvVisit p; EvUnknown p]. split.
    + cbn. now rewrite <- app_assoc.
    + repeat constructor.
  - intros m p i d _ _ _ n _ _. exists [EvVisit p]. split; [reflexivity|].
    repeat constructor.
  - intros m p i d reqs m' _ Hd R _ IH n -> Hlt.
    destruct n as [|n]; [now contradiction Hd|].
    destruct (IH n reqs eq_refl Hlt R (fun _ H => H)) as (tr & Htr & Hall).
    exists (EvVisit p :: tr). split.
    + rewrite Htr. cbn. now rewrite <- app_assoc.
    + constructor; [constructor | exact Hall].
  - intros p i d m n reqs0 _ _ _ _. exists []. now rewrite app_nil_r.
  - intros p i d r rest m m1 m2 _ IH1 _ IH2 n reqs0 -> Hlt R Hsub.
    assert (int_pred (Z.of_nat (S n)) = Z.of_nat n) as Hpred
      by (rewrite int_pred_exact; lia).
    destruct (IH1 n Hpred ltac:(lia)) as (tr1 & Htr1 & Hall1).
    destruct (IH2 n reqs0 eq_refl Hlt R) as (tr2 & Htr2 & Hall2).
    { intros r' Hr'. apply Hsub. now constructor. }
    assert (r ∈ reqs0) as Hr by (apply Hsub; constructor).
    exists (EvEdge p (requireLine r) :: tr1 ++ tr2). split.
    + rewrite Htr2, Htr1, recordEdge_trace. now rewrite <- !app_assoc.
    + constructor.
      * cbn [event_within]. split; [lia|]. split; [constructor|].
        econstructor; eauto. constructor.
      * apply Forall_app. split; [|exact Hall2].
        eapply Forall_impl; [exact Hall1|].
        intros e He. now apply event_within_shift with reqs0 r.
Qed.

End GraphDepth.

(** ** Flush of the graph variant *)

Section GraphFlush.
Import Graph.

Lemma fillIndexes_cons e es arr :
  fillIndexes (e :: es) arr
  = if (snd e <? List.length arr)%nat
    then fillIndexes es (<[snd e := fst e]> arr)
    else None.
Proof.
  unfold fillIndexes. cbn [fold_left].
  destruct (snd e <? List.length arr)%nat; [reflexivity|].
  induction es as [|e' es IH]; [reflexivity | exact IH].
Qed.

(** Filling an array from entries that agree with [L] yields [L] at the
    filled positions, whatever the order of the entries. *)
Lemma fillIndexes_spec (L : list string) :
  forall es arr,
    List.length arr = List.length L ->
    (forall e, e ∈ es -> L !! snd e = Some (fst e)) ->
    exists arr',
      fillIndexes es arr = Some arr' /\
      List.length arr' = List.length L /\
      forall i, arr' !! i = if decide (i ∈ es.*2) then L !! i else arr !! i.
Proof.
  induction es as [|e es IH]; intros arr Hlen Hes.
  - exists arr. split; [reflexivity|]. split; [exact Hlen|]. intros i.
    rewrite decide_False; [reflexivity | apply not_elem_of_nil].
  - rewrite fillIndexes_cons.
    assert (L !! snd e = Some (fst e)) as He by (apply Hes; constructor).
    pose proof (lookup_lt_Some _ _ _ He) as Hlt.
    rewrite (proj2 (Nat.ltb_lt _ _)) by lia.
    destruct (IH (<[snd e := fst e]> arr)) as (arr' & E & Hlen' & Hlook).
    + now rewrite length_insert.
    + intros e' He'. apply Hes. now constructor.
    + exists arr'. split; [exact E|]. split; [exact Hlen'|]. intros i.
      rewrite Hlook. cbn [fmap list_fmap].
      destruct (decide (i ∈ es.*2)) as [Hi|Hi].
      * rewrite decide_True; [reflexivity | now constructor].
      * destruct (decide (i = snd e)) as [->|Hne].
        -- rewrite decide_True by constructor.
           rewrite list_lookup_insert_eq by lia. now rewrite He.
        -- rewrite decide_False by (rewrite elem_of_cons; tauto).
           now rewrite list_lookup_insert_ne.
Qed.

(** Go ranges over a map in no fixed order: any order of the entries of
    the index table fills the array with the first-seen list. *)
Lemma fillIndexes_any_order m es :
  index_inv m ->
  es ≡ₚ map_to_list (indexes m) ->
  fillIndexes es (replicate (size (indexes m)) EmptyString)
  = Some (first_seen [] (targets (trace m))).
Proof.
  intros [Hbij Hsize] Hperm.
  set (L := first_seen [] (targets (trace m))) in *.
  destruct (fillIndexes_spec L es (replicate (size (indexes m)) EmptyString))
    as (arr & E & Hlen & Hlook).
  - now rewrite length_replicate.
  - intros [s i] He. rewrite Hperm in He. apply elem_of_map_to_list in He.
    now apply Hbij.
  - rewrite E. f_equal. apply list_eq. intros i. rewrite Hlook.
    destruct (L !! i) as [s|] eqn:Hi.
    + rewrite decide_True; [reflexivity|].
      apply list_elem_of_fmap. exists (s, i). split; [reflexivity|].
      rewrite Hperm. apply elem_of_map_to_list. now apply Hbij.
    + apply lookup_ge_None in Hi.
      destruct (decide _); [reflexivity|].
      apply lookup_ge_None. rewrite length_replicate. lia.
Qed.

Lemma Flush_indexes m :
  index_inv m ->
  fillIndexes (map_to_list (indexes m)) (replicate (size (indexes m)) EmptyString)
  = Some (first_seen [] (targets (trace m))).
Proof. intros H. now apply fillIndexes_any_order. Qed.

Lemma append_indexes (pkg : string) (l : list nat) :
  l <> [] ->
  forall pkgs : gmap string (list nat),
    fold_left (fun p index => <[pkg := default [] (p !! pkg) ++ [index]]> p) l pkgs
    = <[pkg := default [] (pkgs !! pkg) ++ l]> pkgs.
Proof.
  induction l as [|x l IH]; intros Hne pkgs; [congruence|].
  cbn [fold_left]. destruct l as [|y l]; [reflexivity|].
  rewrite IH by discriminate.
  rewrite lookup_insert_eq, insert_insert_eq. cbn [default from_option]. unfold id.
  now rewrite <- app_assoc.
Qed.

Lemma flushPackage_nonempty (pk : gmap string (list nat)) err pkg (s : gset nat) :
  pk !! pkg = None -> s <> ∅ ->
  flushPackage (pk, err) (pkg, s)
  = (<[pkg := merge_sort Nat.le (elements s)]> pk, err).
Proof.
  intros Hpk Hs. unfold flushPackage.
  assert (size s <> 0%nat) as Hsz by (intros H; now apply size_empty_inv, leibniz_equiv in H).
  rewrite (proj2 (Nat.eqb_neq _ _) Hsz).
  rewrite append_indexes.
  - rewrite lookup_insert_eq, insert_insert_eq, Hpk. reflexivity.
  - intros H. apply Hs. apply leibniz_equiv. now apply elements_empty_inv; rewrite H.
Qed.

Lemma flush_fold (l : list (string * gset nat)) :
  NoDup l.*1 -> (forall a s, (a, s) ∈ l -> s <> ∅) ->
  forall pk err,
    (forall a, a ∈ l.*1 -> pk !! a = None) ->
    exists pk',
      fold_left flushPackage l (pk, err) = (pk', err) /\
      (forall a s, (a, s) ∈ l -> pk' !! a = Some (merge_sort Nat.le (elements s))) /\
      (forall a, a ∉ l.*1 -> pk' !! a = pk !! a).
Proof.
  induction l as [|[a0 s0] l IH]; intros Hnd Hne pk err Hfresh.
  - exists pk. split; [reflexivity|]. split; [|auto]. intros a s H. inversion H.
  - cbn [fmap list_fmap fst] in Hnd. apply NoDup_cons in Hnd as [Ha0 Hnd].
    cbn [fold_left]. rewrite flushPackage_nonempty.
    + destruct (IH Hnd (fun a s H => Hne a s (list_elem_of_further _ _ _ H))
                  (<[a0 := merge_sort Nat.le (elements s0)]> pk) err)
        as (pk' & E & Hin & Hout).
      { intros a Ha. rewrite lookup_insert_ne by (intros ->; contradiction).
        apply Hfresh. now constructor. }
      exists pk'. split; [exact E|]. split.
      * intros a s H. apply elem_of_cons in H as [[= -> ->]|H]; [|now apply Hin].
        rewrite (Hout a0 Ha0). apply lookup_insert_eq.
      * intros a Ha. cbn [fmap list_fmap fst] in Ha.
        apply not_elem_of_cons in Ha as [Hne' Ha].
        rewrite (Hout a Ha). now rewrite lookup_insert_ne.
    + apply Hfresh. constructor.
    + apply (Hne a0). constructor.
Qed.

(** What [Flush] emits for a state that satisfies the invariants. *)
Lemma Flush_spec m :
  index_inv m -> edge_inv m ->
  Flush m
  = Some {| Packages := (fun s => merge_sort Nat.le (elements s)) <$> packages m;
            Indexes := first_seen [] (targets (trace m));
            Unknown := elements (unknown m);
            Stderr := [] |}.
Proof.
  intros Hidx [_ Hne]. unfold Flush.
  destruct (flush_fold (map_to_list (packages m))) with (pk := (∅ : gmap string (list nat)))
                                                        (err := @nil string)
    as (pk' & E & Hin & Hout).
  - apply NoDup_fst_map_to_list.
  - intros a s H. apply elem_of_map_to_list in H. eapply Hne, H.
  - intros a _. apply lookup_empty.
  - rewrite E, (Flush_indexes m Hidx). f_equal. f_equal.
    apply map_eq. intros a. rewrite lookup_fmap.
    destruct (packages m !! a) as [s|] eqn:Ha; cbn.
    + apply Hin. now apply elem_of_map_to_list.
    + rewrite Hout; [apply lookup_empty|].
      intros Hin'. apply list_elem_of_fmap in Hin' as ([a' s] & -> & H).
      apply elem_of_map_to_list in H. cbn in Ha. congruence.
Qed.

End GraphFlush.

(** ** The tree walker *)

Section TreeWalk.
Import Tree.
Variable w : World.

Lemma tree_getModuleList_unfold fuel m modPath indent depth :
  getModuleList w (S fuel) m modPath indent depth
  = if depth =? 0 then Some (cutoff indent modPath m)
    else if decide (modPath ∈ cache m) then Some m
    else match resolve w modPath with
         | NotLocated => Some (writeUnknownLine modPath (visit modPath m))
         | NoManifest => Some (writeLine indent modPath (visit modPath m))
         | Manifest reqs =>
             rangeRequires (getModuleList w fuel) indent depth reqs
                           (writeLine indent modPath (visit modPath m))
         end.
Proof.
  cbn [getModuleList]. unfold resolve.
  destruct (depth =? 0); [reflexivity|].
  destruct (decide (modPath ∈ cache m)); [reflexivity|].
  destruct (constructFilePath w (escapeCapitalsInModuleName modPath)) as [rawPath []];
    [|reflexivity].
  destruct (os_ReadFile w _); [|reflexivity].
  destruct (modfile_Parse w _ _); reflexivity.
Qed.

Lemma tree_rangeRequires_sound fuel indent depth :
  (forall m p i d m', getModuleList w fuel m p i d = Some m' -> walk w m p i d m') ->
  forall reqs m m',
    rangeRequires (getModuleList w fuel) indent depth reqs m = Some m' ->
    walk_requires w indent depth reqs m m'.
Proof.
  intros IH reqs. induction reqs as [|r reqs IHr]; intros m m' H; cbn [rangeRequires] in H.
  - injection H as <-. constructor.
  - destruct (getModuleList w fuel _ _ _ _) as [m1|] eqn:E; [|discriminate].
    econstructor; [apply IH, E | apply IHr, H].
Qed.

Lemma tree_getModuleList_sound fuel :
  forall m modPath indent depth m',
    getModuleList w fuel m modPath indent depth = Some m' ->
    walk w m modPath indent depth m'.
Proof.
  induction fuel as [|fuel IH]; intros m p i d m' H; [discriminate|].
  rewrite tree_getModuleList_unfold in H.
  destruct (Z.eqb_spec d 0) as [->|Hd].
  { injection H as <-. now constructor. }
  destruct (decide (p ∈ cache m)) as [Hin|Hin].
  { injection H as <-. now constructor. }
  destruct (resolve w p) as [| |reqs] eqn:R.
  - injection H as <-. now apply walk_unknown.
  - injection H as <-. now apply walk_nomanifest.
  - eapply walk_expand; eauto. eapply tree_rangeRequires_sound; eauto.
Qed.

Lemma tree_getModuleList_fuel_mono fuel :
  forall fuel' m modPath indent depth m',
    (fuel <= fuel')%nat ->
    getModuleList w fuel m modPath indent depth = Some m' ->
    getModuleList w fuel' m modPath indent depth = Some m'.
Proof.
  induction fuel as [|fuel IH]; intros fuel' m p i d m' Hle H; [discriminate|].
  destruct fuel' as [|fuel']; [lia|].
  rewrite tree_getModuleList_unfold in H. rewrite tree_getModuleList_unfold.
  destruct (d =? 0); [exact H|].
  destruct (decide (p ∈ cache m)); [exact H|].
  destruct (resolve w p) as [| |reqs]; [exact H | exact H |].
  revert H. generalize (writeLine i p (visit p m)) as m1.
  induction reqs as [|r reqs IHr]; intros m1 H; cbn [rangeRequires] in *; [exact H|].
  destruct (getModuleList w fuel _ _ _ _) as [m2|] eqn:E; [|discriminate].
  rewrite (IH fuel' _ _ _ _ _ ltac:(lia) E). now apply IHr.
Qed.

Section Steps.
Variable R : relation module.
Hypothesis R_refl : forall m, R m m.
Hypothesis R_trans : forall a b c, R a b -> R b c -> R a c.
Hypothesis R_cutoff : forall i p m, R m (cutoff i p m).
Hypothesis R_visit : forall p m, p ∉ cache m -> R m (visit p m).
Hypothesis R_unknown : forall p m, R m (writeUnknownLine p m).
Hypothesis R_line : forall i p m, R m (writeLine i p m).

Lemma tree_walk_steps :
  (forall m p i d m', walk w m p i d m' -> R m m') /\
  (forall i d reqs m m', walk_requires w i d reqs m m' -> R m m').
Proof using All.
  apply (walk_mutind w (fun m _ _ _ m' => R m m') (fun _ _ _ m m' => R m m')).
  - intros; apply R_cutoff.
  - intros; apply R_refl.
  - intros m p _ _ _ Hin _. eapply R_trans; [apply (R_visit p), Hin | apply R_unknown].
  - intros m p i _ _ Hin _. eapply R_trans; [apply (R_visit p), Hin | apply R_line].
  - intros m p i _ reqs m' _ Hin _ _ IH.
    eapply R_trans; [apply (R_visit p), Hin |]. eapply R_trans; [apply R_line | exact IH].
  - intros; apply R_refl.
  - intros _ _ r rest m m1 m2 _ IH1 _ IH2. eapply R_trans; eauto.
Qed.

Lemma tree_walk_rel m p i d m' : walk w m p i d m' -> R m m'.
Proof using All. apply tree_walk_steps. Qed.
End Steps.

Lemma tree_walk_cache_mono m p i d m' : walk w m p i d m' -> cache m ⊆ cache m'.
Proof.
  apply (tree_walk_rel (fun m m' => cache m ⊆ cache m')).
  - reflexivity.
  - intros a b c ? ?. now transitivity (cache b).
  - reflexivity.
  - intros q n _. cbn. set_solver.
  - reflexivity.
  - reflexivity.
Qed.

Lemma tree_visited_once_walk m p i d m' :
  walk w m p i d m' ->
  visited_once (cache m) (trace m) -> visited_once (cache m') (trace m').
Proof.
  apply (tree_walk_rel
           (fun m m' => visited_once (cache m) (trace m) ->
                        visited_once (cache m') (trace m'))).
  - auto.
  - auto.
  - intros j q n H. now apply (visited_once_other _ _ (EvCutoff q)).
  - intros q n Hq H. now apply visited_once_visit.
  - intros q n H. now apply (visited_once_other _ _ (EvUnknown q)).
  - intros j q n H. exact H.
Qed.

Variable U : gset string.
Hypothesis Hclosed : closed_world w U.

Lemma tree_getModuleList_total :
  forall fuel m p i d,
    cache m ⊆ U -> p ∈ U -> (size (U ∖ cache m) < fuel)%nat ->
    exists m', getModuleList w fuel m p i d = Some m' /\ cache m' ⊆ U.
Proof using Hclosed.
  induction fuel as [|fuel IH]; intros m p i d Hc Hp Hfuel; [lia|].
  rewrite tree_getModuleList_unfold.
  destruct (d =? 0); [eauto|].
  destruct (decide (p ∈ cache m)) as [Hin|Hin]; [eauto|].
  assert (cache (visit p m) ⊆ U) as Hc' by (cbn; set_solver).
  destruct (resolve w p) as [| |reqs] eqn:R; [eauto | eauto |].
  assert (size (U ∖ cache (writeLine i p (visit p m))) < fuel)%nat as Hfuel'.
  { pose proof (size_unvisited_lt U (cache m) p Hp Hin). cbn. lia. }
  assert (forall r, r ∈ reqs -> requireLine r ∈ U) as Hreqs
    by (intros r Hr; eapply Hclosed; eauto).
  assert (cache (writeLine i p (visit p m)) ⊆ U) as Hc'' by exact Hc'.
  clear R Hfuel Hin Hc Hc'. revert Hc'' Hfuel' Hreqs.
  generalize (writeLine i p (visit p m)) as m1.
  induction reqs as [|r reqs IHr]; intros m1 Hc1 Hf1 Hreqs; cbn [rangeRequires].
  - eauto.
  - destruct (IH m1 (requireLine r) (i +:+ "  ") (int_pred d)) as (m2 & E & Hc2).
    + exact Hc1.
    + apply Hreqs. constructor.
    + exact Hf1.
    + rewrite E. apply IHr.
      * exact Hc2.
      * apply tree_getModuleList_sound, tree_walk_cache_mono in E.
        pose proof (size_unvisited_le U _ _ E). lia.
      * intros r' Hr'. apply Hreqs. now constructor.
Qed.

Hypothesis Hsmall : Z.of_nat (size U) < 2 ^ 63.

Lemma tree_walk_unlimited :
  (forall m p i d m',
     walk w m p i d m' ->
     d < 0 -> - d <= Z.of_nat (size (cache m)) + 1 ->
     cache m ⊆ U -> p ∈ U ->
     cutoffs (trace m') = cutoffs (trace m) /\ cache m' ⊆ U) /\
  (forall i d reqs m m',
     walk_requires w i d reqs m m' ->
     d < 0 -> - d <= Z.of_nat (size (cache m)) ->
     cache m ⊆ U -> (forall r, r ∈ reqs -> requireLine r ∈ U) ->
     cutoffs (trace m') = cutoffs (trace m) /\ cache m' ⊆ U).
Proof using Hclosed Hsmall.
  apply walk_mutind.
  - intros m p i d -> Hd. lia.
  - intros m p i d _ Hin Hd Hb Hc Hp. now split.
  - intros m p i d _ Hin _ Hd Hb Hc Hp. split.
    + cbn. now rewrite !cutoffs_app, !app_nil_r.
    + cbn. set_solver.
  - intros m p i d _ Hin _ Hd Hb Hc Hp. split.
    + cbn. now rewrite !cutoffs_app, !app_nil_r.
    + cbn. set_solver.
  - intros m p i d reqs m' _ Hin R _ IH Hd Hb Hc Hp.
    destruct IH as [IH1 IH2].
    + exact Hd.
    + cbn. rewrite size_union by set_solver. rewrite size_singleton. lia.
    + cbn. set_solver.
    + intros r Hr. eapply Hclosed; eauto.
    + split; [|exact IH2]. rewrite IH1. cbn. now rewrite cutoffs_app, app_nil_r.
  - intros i d m Hd Hb Hc Hr. now split.
  - intros i d r rest m m1 m2 Hw IH1 Hwr IH2 Hd Hb Hc Hr.
    pose proof (subseteq_size _ _ Hc) as Hsz.
    assert (int_pred d = d - 1) as Hpred by (apply int_pred_exact; lia).
    destruct IH1 as [IH1a IH1b].
    + lia.
    + lia.
    + exact Hc.
    + apply Hr. constructor.
    + apply tree_walk_cache_mono in Hw.
      pose proof (subseteq_size _ _ Hw) as Hsz'.
      destruct IH2 as [IH2a IH2b].
      * exact Hd.
      * lia.
      * exact IH1b.
      * intros r' Hr'. apply Hr. now constructor.
      * split; [|exact IH2b]. now rewrite IH2a, IH1a.
Qed.

End TreeWalk.

(** ** Table worlds are finite *)

Lemma assoc_elem_of {A : Type} (k : string) (l : list (string * A)) (v : A) :
  assoc k l = Some v -> (k, v) ∈ l.
Proof.
  induction l as [|[k' v'] l IH]; cbn [assoc]; [discriminate|].
  destruct (String.eqb_spec k k') as [->|_].
  - intros [= ->]. constructor.
  - intros H. constructor. now apply IH.
Qed.

Lemma table_world_closed (root : string) (tbl : manifest_table) :
  closed_world (table_world root tbl) (list_to_set (table_lines tbl)).
Proof.
  intros modPath reqs r R Hr. unfold resolve in R.
  destruct (constructFilePath _ _) as [rawPath []]; [|discriminate].
  destruct (os_ReadFile _ _) as [bytes|]; [|discriminate].
  destruct (modfile_Parse _ _ _) as [file|] eqn:P; [|discriminate].
  injection R as <-. cbn [table_world modfile_Parse] in P.
  destruct (assoc _ (gomod_table tbl)) as [[reqs|]|] eqn:E; try discriminate.
  injection P as <-. cbn [Requires] in Hr.
  apply assoc_elem_of in E. unfold gomod_table in E.
  apply list_elem_of_fmap in E as ([dir o] & [= _ <-] & He).
  apply elem_of_list_to_set. unfold table_lines.
  apply list_elem_of_In, in_flat_map. exists (dir, Some reqs).
  split; [now apply list_elem_of_In|].
  cbn. apply in_map. now apply list_elem_of_In.
Qed.

(** ** C1: termination and single visits *)

Lemma graph_run_invariant w fuel root indent depth m' :
  Graph.getModuleList w fuel Graph.fresh root indent depth = Some m' ->
  graph_inv m'.
Proof.
  intros H. apply getModuleList_sound in H.
  exact (graph_inv_walk _ _ _ _ _ _ H graph_inv_fresh).
Qed.

Lemma visited_once_nil : visited_once ∅ [].
Proof. split; [constructor|]. intros id. cbn. set_solver. Qed.

Lemma in_by_compute (x : string) (X : gset string) : bool_decide (x ∈ X) = true -> x ∈ X.
Proof. apply bool_decide_eq_true_1. Qed.

Lemma notin_by_compute (x : string) (X : gset string) : bool_decide (x ∈ X) = false -> x ∉ X.
Proof. apply bool_decide_eq_false_1. Qed.

(** The cycle A -> B -> A, graph variant: whatever the depth bound, A and B
    are each inserted once. *)
Lemma cycle_graph_any_depth (depth : Z) :
  depth <> 0 ->
  (visits ∘ Graph.trace)
    <$> Graph.getModuleList cycle_world 3 Graph.fresh idA EmptyString depth
  = Some [idA; idB].
Proof.
  intros Hd.
  rewrite (getModuleList_unfold cycle_world 2).
  rewrite decide_False by (apply notin_by_compute; vm_compute; reflexivity).
  rewrite (proj2 (Z.eqb_neq depth 0) Hd).
  replace (resolve cycle_world idA) with (Manifest [req "example.com/b" "v1.0.0"])
    by (vm_compute; reflexivity).
  cbn [Graph.rangeRequires].
  rewrite (getModuleList_unfold cycle_world 1).
  rewrite decide_False by (apply notin_by_compute; vm_compute; reflexivity).
  destruct (int_pred depth =? 0); [vm_compute; reflexivity|].
  match goal with
  | |- context [resolve cycle_world ?x] =>
      replace (resolve cycle_world x) with (Manifest [req "example.com/a" "v1.0.0"])
        by (vm_compute; reflexivity)
  end.
  cbn [Graph.rangeRequires].
  rewrite (getModuleList_unfold cycle_world 0).
  rewrite decide_True by (apply in_by_compute; vm_compute; reflexivity).
  vm_compute. reflexivity.
Qed.

(** The same cycle in the tree variant: with budget left for B, A and B
    are each inserted once. *)
Lemma cycle_tree_any_depth (depth : Z) :
  depth <> 0 -> int_pred depth <> 0 ->
  (visits ∘ Tree.trace)
    <$> Tree.getModuleList cycle_world 3 Tree.fresh idA EmptyString depth
  = Some [idA; idB].
Proof.
  intros Hd Hd'.
  rewrite (tree_getModuleList_unfold cycle_world 2).
  rewrite (proj2 (Z.eqb_neq depth 0) Hd).
  rewrite decide_False by (apply notin_by_compute; vm_compute; reflexivity).
  replace (resolve cycle_world idA) with (Manifest [req "example.com/b" "v1.0.0"])
    by (vm_compute; reflexivity).
  cbn [Tree.rangeRequires].
  rewrite (tree_getModuleList_unfold cycle_world 1).
  rewrite (proj2 (Z.eqb_neq (int_pred depth) 0) Hd').
  rewrite decide_False by (apply notin_by_compute; vm_compute; reflexivity).
  match goal with
  | |- context [resolve cycle_world ?x] =>
      replace (resolve cycle_world x) with (Manifest [req "example.com/a" "v1.0.0"])
        by (vm_compute; reflexivity)
  end.
  cbn [Tree.rangeRequires].
  rewrite (tree_getModuleList_unfold cycle_world 0).
  destruct (int_pred (int_pred depth) =? 0); [vm_compute; reflexivity|].
  rewrite decide_True by (apply in_by_compute; vm_compute; reflexivity).
  vm_compute. reflexivity.
Qed.

Lemma closed_world_mono (w : World) (U U' : gset string) :
  U ⊆ U' -> closed_world w U -> closed_world w U'.
Proof. intros Hsub H modPath reqs r R Hr. apply Hsub. eapply H; eauto. Qed.

Lemma table_world_closed_with (root : string) (tbl : manifest_table) (p : string) :
  closed_world (table_world root tbl) ({[p]} ∪ list_to_set (table_lines tbl)).
Proof. eapply closed_world_mono; [|apply table_world_closed]. set_solver. Qed.

(** The cycle A -> B -> A under the unlimited bound and under the bounds 1,
    2 and 3.  In the tree variant the bound 1 prints B as a leaf without
    inserting it, and the bound 2 prints A a second time at the cutoff. *)
Example cycle_runs :
  Forall (fun depth =>
            (visits ∘ Graph.trace) <$> Graph.getModuleList cycle_world 3 Graph.fresh idA EmptyString depth
            = Some [idA; idB])
         [-1; 1; 2; 3] /\
  (visits ∘ Tree.trace) <$> Tree.getModuleList cycle_world 3 Tree.fresh idA EmptyString (-1)
  = Some [idA; idB] /\
  (visits ∘ Tree.trace) <$> Tree.getModuleList cycle_world 3 Tree.fresh idA EmptyString 1
  = Some [idA] /\
  Tree.writer <$> Tree.getModuleList cycle_world 3 Tree.fresh idA EmptyString 2
  = Some (idA +:+ newline +:+ idB +:+ newline +:+ idA +:+ newline).
Proof. repeat split; repeat constructor; vm_compute; reflexivity. Qed.

(** ** C3: the unlimited sentinel *)

(** C3. Started with the sentinel [-1] on a finite requirement graph (of
    fewer than [2^63] identities) neither variant ever takes the
    [depth == 0] branch: the log of the walk holds no cutoff.  The chain of
    50 modules is visited from the first to the last module. *)
Theorem C3_unlimited_depth_is_never_exhausted
  (w : World) (U : gset string) (root indent : string) :
  closed_world w U -> root ∈ U -> Z.of_nat (size U) < 2 ^ 63 ->
  (forall fuel m',
     Graph.getModuleList w fuel Graph.fresh root indent (-1) = Some m' ->
     cutoffs (Graph.trace m') = []) /\
  (forall fuel m',
     Tree.getModuleList w fuel Tree.fresh root indent (-1) = Some m' ->
     cutoffs (Tree.trace m') = []) /\
  (fun m' => (cutoffs (Graph.trace m'), visits (Graph.trace m'), size (Graph.cache m')))
    <$> Graph.getModuleList (chain_world 50) 51 Graph.fresh (chain_id 0) EmptyString (-1)
  = Some ([], map chain_id (seq 0 50), 50%nat) /\
  (fun m' => (cutoffs (Tree.trace m'), visits (Tree.trace m'), size (Tree.cache m')))
    <$> Tree.getModuleList (chain_world 50) 51 Tree.fresh (chain_id 0) EmptyString (-1)
  = Some ([], map chain_id (seq 0 50), 50%nat).
Proof.
  intros Hclosed Hroot Hsmall. split; [|split; [|split]].
  - intros fuel m' H. apply getModuleList_sound in H.
    apply (proj1 (walk_unlimited w U Hclosed Hsmall)) in H as [H _];
      [exact H | lia | cbn; lia | set_solver | exact Hroot].
  - intros fuel m' H. apply tree_getModuleList_sound in H.
    apply (proj1 (tree_walk_unlimited w U Hclosed Hsmall)) in H as [H _];
      [exact H | lia | cbn; lia | set_solver | exact Hroot].
  - vm_compute. reflexivity.
  - vm_compute. reflexivity.
Qed.

Lemma C3_unlimited_depth_is_never_exhausted_witness :
  exists m',
    Graph.getModuleList cycle_world 3 Graph.fresh idA EmptyString (-1) = Some m' /\
    cutoffs (Graph.trace m') = [].
Proof.
  assert (returned (Graph.getModuleList cycle_world 3 Graph.fresh idA EmptyString (-1)) = true) as Hsome
    by (vm_compute; reflexivity).
  destruct (Graph.getModuleList cycle_world 3 Graph.fresh idA EmptyString (-1))
    as [m'|] eqn:E; [|discriminate Hsome].
  - exists m'. split; [reflexivity|].
    apply (C3_unlimited_depth_is_never_exhausted cycle_world
             ({[idA]} ∪ list_to_set (table_lines cycle_table)) idA EmptyString)
      with (fuel := 3%nat).
    + apply table_world_closed_with.
    + apply elem_of_union_l, elem_of_singleton. reflexivity.
    + vm_compute. reflexivity.
    + exact E.
Defined.

(** ** C4: the depth budget *)

Lemma visits_elem (tr : list event) (q : string) : q ∈ visits tr <-> EvVisit q ∈ tr.
Proof.
  unfold visits. rewrite list_elem_of_omap. split.
  - intros (e & He & Hq). destruct e; try discriminate. now injection Hq as ->.
  - intros H. now exists (EvVisit q).
Qed.

Lemma edges_elem (tr : list event) (a b : string) :
  (a, b) ∈ edges tr <-> EvEdge a b ∈ tr.
Proof.
  unfold edges. rewrite list_elem_of_omap. split.
  - intros (e & He & Hq). destruct e; try discriminate. now injection Hq as -> ->.
  - intros H. now exists (EvEdge a b).
Qed.

(** C4. With a budget of [n] the graph walker visits only identities at
    most [n] requirement edges away from the root and records only edges
    whose requirer is at most [n - 1] edges away; the recursive call on the
    first requirement of an expanded module receives [depth - 1], and so
    do the calls on the remaining requirements.  On the chain
    A -> B -> C with budget 1 the edge A -> B is the only one recorded, B
    ends in the [depth == 0] branch and C is not visited. *)
Theorem C4_depth_budget
  (w : World) (root indent : string) (n fuel : nat) (m' : Graph.module) :
  Z.of_nat n < 2 ^ 63 ->
  Graph.getModuleList w fuel Graph.fresh root indent (Z.of_nat n) = Some m' ->
  (forall q, q ∈ Graph.cache m' -> within w n root q) /\
  (forall a b, (a, b) ∈ edges (Graph.trace m') ->
               (1 <= n)%nat /\ within w (n - 1) root a) /\
  (forall a, is_Some (Graph.packages m' !! a) ->
             (1 <= n)%nat /\ within w (n - 1) root a) /\
  (forall d, - 2 ^ 63 < d < 2 ^ 63 -> int_pred d = d - 1) /\
  (forall fuel0 m p i d r rest,
     p ∉ Graph.cache m -> d <> 0 -> resolve w p = Manifest (r :: rest) ->
     Graph.getModuleList w (S fuel0) m p i d
     = Graph.getModuleList w fuel0
         (Graph.recordEdge p (requireLine r) (Graph.visit p m))
         (requireLine r) (i +:+ "  ") (int_pred d)
       ≫= Graph.rangeRequires (Graph.getModuleList w fuel0) p i d rest) /\
  (fun m3 => (edges (Graph.trace m3),
              elements <$> Graph.packages m3 !! idA,
              Graph.packages m3 !! idB,
              Graph.indexes m3 !! idB,
              cutoffs (Graph.trace m3),
              elements (Graph.cache m3)))
    <$> Graph.getModuleList chain3_world 3 Graph.fresh idA EmptyString 1
  = Some ([(idA, idB)], Some [0%nat], None, Some 0%nat, [idB], [idA; idB]).
Proof.
  intros Hn Hrun.
  pose proof (graph_run_invariant _ _ _ _ _ _ Hrun) as (Hv & Hi & He).
  pose proof (getModuleList_sound _ _ _ _ _ _ _ Hrun) as Hwalk.
  destruct (proj1 (walk_bounded w) _ _ _ _ _ Hwalk n eq_refl Hn) as (tr & Htr & Hall).
  cbn [Graph.fresh Graph.trace app] in Htr. rewrite <- Htr in Hall.
  rewrite Forall_forall in Hall.
  assert (forall a b, (a, b) ∈ edges (Graph.trace m') ->
                      (1 <= n)%nat /\ within w (n - 1) root a) as Hedges.
  { intros a b Hab. apply edges_elem, Hall in Hab. cbn in Hab. tauto. }
  split; [|split; [|split; [|split; [|split]]]].
  - intros q Hq. apply Hv, visits_elem, Hall in Hq. exact Hq.
  - exact Hedges.
  - intros a [s Hs]. destruct He as [He Hne].
    destruct (set_choose_L s (Hne a s Hs)) as [i Hin].
    destruct (proj1 (He a i)) as (b & Hb & _); [eauto|]. eapply Hedges, Hb.
  - exact int_pred_exact.
  - intros fuel0 m p i d r rest Hp Hd R.
    rewrite (getModuleList_unfold w fuel0), decide_False by exact Hp.
    rewrite (proj2 (Z.eqb_neq d 0) Hd), R. cbn [Graph.rangeRequires].
    now destruct (Graph.getModuleList w fuel0 _ _ _ _).
  - vm_compute. reflexivity.
Qed.

Lemma C4_depth_budget_witness :
  exists m',
    Graph.getModuleList chain3_world 3 Graph.fresh idA EmptyString (Z.of_nat 1) = Some m' /\
    forall a, is_Some (Graph.packages m' !! a) -> within chain3_world (1 - 1) idA a.
Proof.
  assert (returned (Graph.getModuleList chain3_world 3 Graph.fresh idA EmptyString
                      (Z.of_nat 1)) = true) as Hsome
    by (vm_compute; reflexivity).
  destruct (Graph.getModuleList chain3_world 3 Graph.fresh idA EmptyString (Z.of_nat 1))
    as [m'|] eqn:E; [|discriminate Hsome].
  - exists m'. split; [reflexivity|]. intros a Ha.
    apply (C4_depth_budget chain3_world idA EmptyString 1 3 m'); [lia | exact E | exact Ha].
Defined.

(** ** C2: the index table *)

(** C2. In a walk of the graph variant the index table only grows (an
    assigned index is never changed), and afterwards it is the inverse of
    the list of dependency targets in first-seen order: the identity first
    recorded as the i-th distinct target has index i.  Every recorded edge
    a -> b puts the index of b into the set of a, and [Flush] emits that
    first-seen list as [indexes], in whatever order it ranges over the
    table, and the sorted sets as [packages].  In the diamond, D has the
    one index 1, listed for both B and C. *)
Theorem C2_index_table_first_seen
  (w : World) (fuel : nat) (m : Graph.module) (root indent : string) (depth : Z)
  (m' : Graph.module) :
  graph_inv m ->
  Graph.getModuleList w fuel m root indent depth = Some m' ->
  let seen := first_seen [] (targets (Graph.trace m')) in
  Graph.indexes m ⊆ Graph.indexes m' /\
  (forall s i, Graph.indexes m' !! s = Some i <-> seen !! i = Some s) /\
  NoDup seen /\
  size (Graph.indexes m') = List.length seen /\
  (forall a b, (a, b) ∈ edges (Graph.trace m') ->
     exists i s, Graph.indexes m' !! b = Some i /\
                 Graph.packages m' !! a = Some s /\ i ∈ s) /\
  Graph.Flush m'
  = Some {| Graph.Packages :=
              (fun s => merge_sort Nat.le (elements s)) <$> Graph.packages m';
            Graph.Indexes := seen;
            Graph.Unknown := elements (Graph.unknown m');
            Graph.Stderr := [] |} /\
  (forall es,
     es ≡ₚ map_to_list (Graph.indexes m') ->
     Graph.fillIndexes es (replicate (size (Graph.indexes m')) EmptyString)
     = Some seen) /\
  (fun m2 => (Graph.indexes m2 !! idD,
              elements <$> Graph.packages m2 !! idB,
              elements <$> Graph.packages m2 !! idC))
    <$> Graph.getModuleList diamond_world 4 Graph.fresh idA EmptyString (-1)
  = Some (Some 1%nat, Some [1%nat], Some [1%nat]) /\
  (fun doc => (Graph.Indexes doc,
               Graph.Packages doc !! idA,
               Graph.Packages doc !! idB,
               Graph.Packages doc !! idC,
               Graph.Packages doc !! idD))
    <$> (Graph.getModuleList diamond_world 4 Graph.fresh idA EmptyString (-1)
           ≫= Graph.Flush)
  = Some ([idB; idD; idC], Some [0%nat; 2%nat], Some [1%nat], Some [1%nat], None).
Proof.
  intros Hinv Hrun seen.
  pose proof (getModuleList_sound _ _ _ _ _ _ _ Hrun) as Hwalk.
  destruct (graph_inv_walk _ _ _ _ _ _ Hwalk Hinv) as (Hv & Hi & He).
  split; [|split; [|split; [|split; [|split; [|split; [|split; [|split]]]]]]].
  - eapply indexes_mono_walk, Hwalk.
  - apply Hi.
  - apply first_seen_NoDup.
  - apply Hi.
  - intros a b Hab.
    destruct (index_inv_target_indexed m' b Hi) as [i Hb].
    { apply edges_elem in Hab. unfold targets. apply list_elem_of_omap.
      now exists (EvEdge a b). }
    destruct (proj2 (proj1 He a i)) as (s & Hs & Hin); [eauto|]. eauto.
  - now apply Flush_spec.
  - intros es Hes. now apply fillIndexes_any_order.
  - vm_compute. reflexivity.
  - vm_compute. reflexivity.
Qed.

Lemma C2_index_table_first_seen_witness :
  graph_inv Graph.fresh /\
  exists m',
    Graph.getModuleList diamond_world 4 Graph.fresh idA EmptyString (-1) = Some m' /\
    NoDup (first_seen [] (targets (Graph.trace m'))).
Proof.
  split; [exact graph_inv_fresh|].
  assert (returned (Graph.getModuleList diamond_world 4 Graph.fresh idA EmptyString (-1)) = true) as Hsome
    by (vm_compute; reflexivity).
  destruct (Graph.getModuleList diamond_world 4 Graph.fresh idA EmptyString (-1))
    as [m'|] eqn:E; [|discriminate Hsome].
  - exists m'. split; [reflexivity|].
    apply (C2_index_table_first_seen diamond_world 4 Graph.fresh idA EmptyString (-1) m'
             graph_inv_fresh E).
Defined.

(** ** C6: the order of the two tests *)

(** C6, evaluated.  At [depth == 0] the graph variant consults the visited
    set first: a visited identity returns at once, any other is inserted
    and then cut off, and nothing is emitted.  The tree variant tests the
    depth first and prints the leaf line whether or not the identity was
    visited.  In A -> B, A -> C, B -> C, C -> D with budget 2 the graph
    variant meets C first at the cutoff below B, marks it, and skips it
    when A requires it with budget left: the edge C -> D is never
    recorded.  The tree variant prints C at the cutoff and expands it
    afterwards. *)
Theorem C6_graph_variant_tests_visited_set_first :
  (forall w fuel m p i,
     Graph.getModuleList w (S fuel) m p i 0
     = if decide (p ∈ Graph.cache m) then Some m
       else Some (Graph.cutoff p (Graph.visit p m))) /\
  (forall w fuel m p i,
     Tree.getModuleList w (S fuel) m p i 0 = Some (Tree.cutoff i p m)) /\
  (forall i p m,
     Tree.writer (Tree.cutoff i p m)
     = Tree.writer m +:+ Tree.stripComment p +:+ newline /\
     Tree.cache (Tree.cutoff i p m) = Tree.cache m) /\
  resolve shadow_world idC = Manifest [req "example.com/d" "v1.0.0"] /\
  (fun m' => (edges (Graph.trace m'),
              Graph.packages m' !! idC,
              cutoffs (Graph.trace m'),
              visits (Graph.trace m')))
    <$> Graph.getModuleList shadow_world 4 Graph.fresh idA EmptyString 2
  = Some ([(idA, idB); (idB, idC); (idA, idC)], None, [idC], [idA; idB; idC]) /\
  (fun m' => (Tree.writer m', cutoffs (Tree.trace m'), visits (Tree.trace m')))
    <$> Tree.getModuleList shadow_world 4 Tree.fresh idA EmptyString 2
  = Some (idA +:+ newline +:+ idB +:+ newline +:+ idC +:+ newline +:+
          idC +:+ newline +:+ idD +:+ newline,
          [idC; idD], [idA; idB; idC]).
Proof.
  split; [|split; [|split; [|split; [|split]]]].
  - intros w fuel m p i. rewrite getModuleList_unfold.
    now destruct (decide (p ∈ Graph.cache m)).
  - intros w fuel m p i. now rewrite tree_getModuleList_unfold.
  - intros i p m. split; reflexivity.
  - vm_compute. reflexivity.
  - vm_compute. reflexivity.
  - vm_compute. reflexivity.
Qed.

(** ** C9: requirers without dependencies *)

Lemma merge_sort_nonempty (l : list nat) : l <> [] -> merge_sort Nat.le l <> [].
Proof.
  intros Hl H. pose proof (merge_sort_Permutation Nat.le l) as P.
  rewrite H in P. apply Permutation_nil_l in P. congruence.
Qed.

(** [Flush] on a state that no walk produces, with an empty edge set for
    [x]: the diagnostic is printed, and the key is still missing from the
    emitted [packages], since a key is only ever assigned by [append]. *)
Example flush_empty_entry :
  (fun doc => (map_to_list (Graph.Packages doc), Graph.Stderr doc))
    <$> Graph.Flush {| Graph.packages := {[ "x" := ∅ ]}; Graph.indexes := ∅;
                       Graph.unknown := ∅; Graph.cache := {[ "x" ]};
                       Graph.trace := [] |}
  = Some ([], ["No dependencies found for package:  x"]).
Proof. vm_compute. reflexivity. Qed.

(** C9, evaluated.  A root that is located but whose go.mod cannot be read,
    or holds no requirement, gets no entry in [m.packages]; [Flush] emits an
    empty [packages] object and no diagnostic.  In every run each entry of
    [m.packages] is created together with its first index, so no emitted
    list is empty and the diagnostic of [Flush] is never printed. *)
Theorem C9_no_requirer_without_dependencies_is_recorded :
  resolve unreadable_world "example.com/app" = NoManifest /\
  (fun m' => (map_to_list (Graph.packages m'), elements (Graph.cache m'),
              elements (Graph.unknown m')))
    <$> Graph.getModuleList unreadable_world 2 Graph.fresh "example.com/app" EmptyString (-1)
  = Some ([], ["example.com/app"], []) /\
  (fun doc => (map_to_list (Graph.Packages doc), Graph.Indexes doc,
               Graph.Unknown doc, Graph.Stderr doc))
    <$> (Graph.getModuleList unreadable_world 2 Graph.fresh "example.com/app" EmptyString (-1)
           ≫= Graph.Flush)
  = Some ([], [], [], []) /\
  resolve norequire_world "example.com/app" = Manifest [] /\
  (fun doc => (map_to_list (Graph.Packages doc), Graph.Indexes doc,
               Graph.Unknown doc, Graph.Stderr doc))
    <$> (Graph.getModuleList norequire_world 2 Graph.fresh "example.com/app" EmptyString (-1)
           ≫= Graph.Flush)
  = Some ([], [], [], []) /\
  (forall w fuel root indent depth m',
     Graph.getModuleList w fuel Graph.fresh root indent depth = Some m' ->
     (forall a s, Graph.packages m' !! a = Some s -> s <> ∅) /\
     exists doc,
       Graph.Flush m' = Some doc /\
       Graph.Stderr doc = [] /\
       forall a l, Graph.Packages doc !! a = Some l -> l <> []).
Proof.
  split; [vm_compute; reflexivity|].
  split; [vm_compute; reflexivity|].
  split; [vm_compute; reflexivity|].
  split; [vm_compute; reflexivity|].
  split; [vm_compute; reflexivity|].
  intros w fuel root indent depth m' Hrun.
  destruct (graph_run_invariant _ _ _ _ _ _ Hrun) as (_ & Hi & He).
  split; [apply He|].
  eexists. split; [apply (Flush_spec m' Hi He)|]. split; [reflexivity|].
  cbn [Graph.Packages]. intros a l. rewrite lookup_fmap.
  destruct (Graph.packages m' !! a) as [s|] eqn:Hs; [|discriminate].
  intros [= <-]. apply merge_sort_nonempty.
  intros H. apply (proj2 He a s Hs). apply leibniz_equiv.
  apply elements_empty_inv. now rewrite H.
Qed.

Lemma C9_no_requirer_without_dependencies_is_recorded_witness :
  exists m' doc,
    Graph.getModuleList unreadable_world 2 Graph.fresh "example.com/app" EmptyString (-1)
    = Some m' /\
    Graph.Flush m' = Some doc /\ Graph.Stderr doc = [].
Proof.
  assert (returned (Graph.getModuleList unreadable_world 2 Graph.fresh "example.com/app"
              EmptyString (-1)) = true) as Hsome
    by (vm_compute; reflexivity).
  destruct (Graph.getModuleList unreadable_world 2 Graph.fresh "example.com/app"
              EmptyString (-1))
    as [m'|] eqn:E; [|discriminate Hsome].
  - destruct C9_no_requirer_without_dependencies_is_recorded as (_ & _ & _ & _ & _ & H).
    destruct (H _ _ _ _ _ _ E) as (_ & doc & Hdoc & Herr & _).
    exists m', doc. split; [reflexivity|]. now split.
Defined.

(** * Further properties of the code *)

(** ** Cutting a string at the first separator *)

Lemma Index_here (sep post : string) : strings_Index (sep +:+ post) sep = Some O.
Proof.
  pose proof (HasPrefix_app sep post) as H.
  destruct (sep +:+ post); cbn [strings_Index]; now rewrite H.
Qed.

Lemma Index_cons (c : ascii) (s sep : string) (n : nat) :
  strings_Index (String c s) sep = Some (S n) ->
  strings_HasPrefix (String c s) sep = false /\ strings_Index s sep = Some n.
Proof.
  cbn [strings_Index]. destruct (strings_HasPrefix (String c s) sep); [discriminate|].
  destruct (strings_Index s sep) as [k|]; cbn; [|discriminate].
  intros [= ->]. now split.
Qed.

(** [strings.Split] cuts at the first occurrence of the separator and goes
    on behind it. *)
Lemma genSplit_at (sep pre post cur : string) :
  sep <> EmptyString ->
  strings_Index (pre +:+ sep +:+ post) sep = Some (String.length pre) ->
  genSplit sep O cur (pre +:+ sep +:+ post) =
  (cur +:+ pre) :: genSplit sep O EmptyString post.
Proof.
  intros Hsep. revert cur. induction pre as [|c pre IH]; intros cur H.
  - rewrite string_app_nil_l, string_app_nil_r.
    destruct sep as [|a sep]; [congruence|].
    rewrite string_app_cons. cbn [genSplit].
    change (String a (sep +:+ post)) with (String a sep +:+ post).
    rewrite HasPrefix_app.
    replace (String.length (String a sep) - 1)%nat with (String.length sep)
      by (cbn [String.length]; lia).
    now rewrite genSplit_skip.
  - rewrite string_app_cons in *. cbn [String.length] in H.
    apply Index_cons in H as [Hp Hi].
    cbn [genSplit]. rewrite Hp, (IH _ Hi), string_app_assoc. reflexivity.
Qed.

Lemma Split_at (sep pre post : string) :
  sep <> EmptyString ->
  strings_Index (pre +:+ sep +:+ post) sep = Some (String.length pre) ->
  strings_Split (pre +:+ sep +:+ post) sep = pre :: strings_Split post sep.
Proof.
  intros Hsep H. destruct sep as [|a sep]; [congruence|].
  unfold strings_Split. now rewrite genSplit_at.
Qed.

Lemma HasPrefix_app_fresh (c : ascii) (t a r : string) :
  free_of c t = true ->
  strings_HasPrefix (a +:+ String c r) t = true -> strings_HasPrefix a t = true.
Proof.
  unfold free_of. revert a. induction t as [|x t IH]; intros a Ht H; [reflexivity|].
  cbn [string_forall] in Ht. apply andb_prop in Ht as [Hx Ht].
  destruct a as [|y a].
  - rewrite string_app_nil_l in H. cbn [strings_HasPrefix] in H.
    apply negb_true_iff in Hx. now rewrite Hx in H.
  - rewrite string_app_cons in H. cbn [strings_HasPrefix] in *.
    destruct (Ascii.eqb x y); [|discriminate]. now apply IH.
Qed.

(** A separator whose first character does not come back in it cannot
    straddle the end of a piece that is free of it. *)
Lemma Index_fresh_head (c : ascii) (t pre post : string) :
  free_of c t = true ->
  strings_Contains pre (String c t) = false ->
  strings_Index (pre +:+ String c t +:+ post) (String c t) = Some (String.length pre).
Proof.
  intros Ht. induction pre as [|y pre IH]; intros H.
  - rewrite string_app_nil_l. apply Index_here.
  - apply Contains_tail in H as [Hp Hc].
    rewrite string_app_cons. cbn [strings_Index String.length].
    destruct (strings_HasPrefix (String y (pre +:+ String c t +:+ post)) (String c t)) eqn:E.
    + exfalso. cbn [strings_HasPrefix] in E, Hp.
      destruct (Ascii.eqb c y); [|discriminate].
      rewrite string_app_cons in E.
      apply HasPrefix_app_fresh in E; [congruence | exact Ht].
    + now rewrite (IH Hc).
Qed.

Lemma Split_fresh_head (c : ascii) (t pre post : string) :
  free_of c t = true ->
  strings_Contains pre (String c t) = false ->
  strings_Split (pre +:+ String c t +:+ post) (String c t) =
  pre :: strings_Split post (String c t).
Proof.
  intros Ht H. apply Split_at; [discriminate|]. now apply Index_fresh_head.
Qed.

Lemma Split_head (s sep : string) :
  exists x rest, strings_Split s sep = x :: rest \/ (sep = EmptyString /\ s = EmptyString).
Proof.
  destruct sep as [|a sep].
  - destruct s as [|c s]; [exists EmptyString, []; now right|].
    exists (String c EmptyString), (explode s). now left.
  - pose proof (genSplit_length (String a sep) O EmptyString s) as L.
    unfold strings_Split. destruct (genSplit _ _ _ _) as [|x rest]; [simpl in L; lia|].
    exists x, rest. now left.
Qed.

Lemma Contains_app_r (pre x post : string) :
  strings_Contains (pre +:+ x +:+ post) x = true.
Proof.
  induction pre as [|c pre IH].
  - rewrite string_app_nil_l. destruct (x +:+ post) eqn:E; cbn [strings_Contains];
      rewrite <- E, HasPrefix_app; reflexivity.
  - rewrite string_app_cons. cbn [strings_Contains]. rewrite IH.
    now destruct (strings_HasPrefix _ _).
Qed.

(** ** More on the semantic version pattern *)

Lemma digits_spec (d : string) :
  digits d = true <-> d <> EmptyString /\ string_forall is_digit d = true.
Proof.
  unfold digits. rewrite andb_true_iff, negb_true_iff, String.eqb_neq. tauto.
Qed.

Lemma re_match_here_spec (s m : string) :
  re_match_here s = Some m -> semver_shape m /\ exists post, s = m +:+ post.
Proof.
  unfold re_match_here.
  destruct (lit "v" s) as [r0|] eqn:L0; [|discriminate].
  destruct (digits1 r0) as [[d1 r1]|] eqn:E1; [|discriminate].
  destruct (lit "." r1) as [r2|] eqn:L1; [|discriminate].
  destruct (digits1 r2) as [[d2 r3]|] eqn:E2; [|discriminate].
  destruct (lit "." r3) as [r4|] eqn:L2; [|discriminate].
  destruct (digits1 r4) as [[d3 r5]|] eqn:E3; [|discriminate].
  intros [= <-].
  apply digits1_spec in E1 as (N1 & S1 & F1 & _).
  apply digits1_spec in E2 as (N2 & S2 & F2 & _).
  apply digits1_spec in E3 as (N3 & S3 & F3 & _).
  apply lit_spec in L0, L1, L2. split.
  - exists d1, d2, d3. rewrite !digits_spec. repeat split; assumption.
  - exists r5. subst s r0 r1 r2 r3 r4.
    rewrite !string_app_assoc, !string_app_cons, !string_app_nil_l. reflexivity.
Qed.

Lemma re_match_here_app (d1 d2 d3 rest : string) :
  digits d1 = true -> digits d2 = true -> digits d3 = true -> stops rest ->
  re_match_here ("v" +:+ d1 +:+ "." +:+ d2 +:+ "." +:+ d3 +:+ rest) =
  Some ("v" +:+ d1 +:+ "." +:+ d2 +:+ "." +:+ d3).
Proof.
  rewrite !digits_spec. intros [N1 F1] [N2 F2] [N3 F3] Hrest.
  unfold re_match_here. rewrite !string_app_cons, !string_app_nil_l.
  cbn [lit]. rewrite Ascii.eqb_refl.
  rewrite (digits1_app d1 _ N1 F1) by reflexivity.
  cbn [lit]. rewrite Ascii.eqb_refl.
  rewrite (digits1_app d2 _ N2 F2) by reflexivity.
  cbn [lit]. rewrite Ascii.eqb_refl.
  rewrite (digits1_app d3 _ N3 F3) by exact Hrest.
  reflexivity.
Qed.

Lemma FindStringSubmatch_occurs (s : string) :
  re_FindStringSubmatch s = [] \/
  exists pre m post,
    s = pre +:+ m +:+ post /\ semver_shape m /\ re_FindStringSubmatch s = [m].
Proof.
  induction s as [|c s IH]; cbn [re_FindStringSubmatch].
  - destruct (re_match_here EmptyString) as [m|] eqn:E; [discriminate E | now left].
  - destruct (re_match_here (String c s)) as [m|] eqn:E.
    + right. apply re_match_here_spec in E as (Hm & post & E).
      exists EmptyString, m, post. now rewrite string_app_nil_l.
    + destruct IH as [IH|(pre & m & post & -> & Hm & IH)]; [now left|].
      right. exists (String c pre), m, post. now rewrite string_app_cons.
Qed.

(** X1. What [getSemVer] returns is empty, or it is the three-number
    core [vMAJOR.MINOR.PATCH] of a place where the version string holds one;
    applying [getSemVer] a second time changes nothing. *)
Theorem getSemVer_returns_core_or_nothing (version : string) :
  (getSemVer version = EmptyString \/
   (semver_shape (getSemVer version) /\
    exists pre post, version = pre +:+ getSemVer version +:+ post)) /\
  getSemVer (getSemVer version) = getSemVer version.
Proof.
  split; [|apply getSemVer_idem].
  unfold getSemVer.
  destruct (FindStringSubmatch_occurs version) as [->|(pre & m & post & E & Hm & ->)].
  - now left.
  - right. cbn. split; [exact Hm | now exists pre, post].
Qed.

(** X2. A version token that starts with [vMAJOR.MINOR.PATCH] and goes on
    with something that is not a digit (nothing, a pre-release or
    pseudo-version suffix, [+incompatible]) is cut down to that core. *)
Theorem getSemVer_cuts_suffix (d1 d2 d3 rest : string) :
  digits d1 = true -> digits d2 = true -> digits d3 = true -> stops rest ->
  getSemVer ("v" +:+ d1 +:+ "." +:+ d2 +:+ "." +:+ d3 +:+ rest) =
  "v" +:+ d1 +:+ "." +:+ d2 +:+ "." +:+ d3.
Proof.
  intros H1 H2 H3 Hrest. unfold getSemVer.
  now rewrite (FindStringSubmatch_here _ _ (re_match_here_app _ _ _ _ H1 H2 H3 Hrest)).
Qed.

Lemma getSemVer_cuts_suffix_witness :
  getSemVer "v0.0.0-20190101000000-abcdef123456" = "v0.0.0".
Proof.
  apply (getSemVer_cuts_suffix "0" "0" "0" "-20190101000000-abcdef123456");
    reflexivity.
Defined.

(** ** The three spellings of an identity *)

Lemma Contains_single_free (c : ascii) (s : string) :
  strings_Contains s (String c EmptyString) = false <-> free_of c s = true.
Proof.
  unfold free_of. induction s as [|x s IH]; cbn [strings_Contains string_forall].
  - cbn. tauto.
  - rewrite HasPrefix_single, (Ascii.eqb_sym x c).
    destruct (Ascii.eqb c x); cbn; [split; discriminate | exact IH].
Qed.

Lemma Split_single (c : ascii) (pre post : string) :
  strings_Contains pre (String c EmptyString) = false ->
  strings_Split (pre +:+ String c EmptyString +:+ post) (String c EmptyString) =
  pre :: strings_Split post (String c EmptyString).
Proof. intros H. now apply Split_fresh_head. Qed.

Lemma Split_nth0 (s : string) (c : ascii) (t : string) :
  exists x rest, strings_Split s (String c t) = x :: rest.
Proof.
  destruct (Split_head s (String c t)) as (x & rest & [E|[E _]]); [|discriminate E].
  now exists x, rest.
Qed.

(** X3. [getNameAndVersion] on the three spellings of an identity, for a
    name free of [@] and of blanks: the bare name has the empty version;
    [name version] (the form the walkers build from a requirement) has the
    [getSemVer] core of the first blank-separated token after the name; and
    [name@version] has, unreduced, what stands between the first [@] and
    the next one. *)
Theorem getNameAndVersion_forms (name version : string) :
  strings_Contains name "@" = false ->
  strings_Contains name " " = false ->
  getNameAndVersion name = (name, EmptyString) /\
  (strings_Contains version "@" = false ->
   getNameAndVersion (name +:+ " " +:+ version) =
   (name, getSemVer (nth 0 (strings_Split version " ") EmptyString))) /\
  getNameAndVersion (name +:+ "@" +:+ version) =
  (name, nth 0 (strings_Split version "@") EmptyString).
Proof.
  intros Hat Hsp. split; [|split].
  - unfold getNameAndVersion. rewrite Hat.
    rewrite (Split_no_match name " "); [reflexivity | discriminate | exact Hsp].
  - intros Hv. unfold getNameAndVersion.
    assert (strings_Contains (name +:+ " " +:+ version) "@" = false) as ->.
    { apply Contains_single_free. unfold free_of.
      rewrite !string_forall_app. apply Contains_single_free in Hat, Hv.
      unfold free_of in Hat, Hv. now rewrite Hat, Hv. }
    rewrite (Split_single " "%char name version Hsp).
    destruct (Split_nth0 version " "%char EmptyString) as (x & rest & E).
    rewrite E. reflexivity.
  - unfold getNameAndVersion. rewrite Contains_app_r.
    rewrite (Split_single "@"%char name version Hat).
    destruct (Split_nth0 version "@"%char EmptyString) as (x & rest & E).
    rewrite E. reflexivity.
Qed.

Lemma getNameAndVersion_forms_witness :
  getNameAndVersion "github.com/foo/bar v1.2.3-rc1 // indirect" =
  ("github.com/foo/bar", "v1.2.3").
Proof.
  apply (proj1 (proj2 (getNameAndVersion_forms
                         "github.com/foo/bar" "v1.2.3-rc1 // indirect"
                         eq_refl eq_refl)) eq_refl).
Defined.

(** ** Comments on a line of the tree variant *)

(** X4. [writeLine] and [writeUnknownLine] print a line up to its first
    [ //] and end it with a newline: a line without such a comment is
    printed whole, and [text // comment] is printed as [text]. *)
Theorem tree_lines_drop_comment
  (indent text comment : string) (m : Tree.module) :
  strings_Contains text " //" = false ->
  Tree.writer (Tree.writeLine indent text m) =
    Tree.writer m +:+ text +:+ newline /\
  Tree.writer (Tree.writeLine indent (text +:+ " //" +:+ comment) m) =
    Tree.writer m +:+ text +:+ newline /\
  Tree.unknown (Tree.writeUnknownLine (text +:+ " //" +:+ comment) m) =
    Tree.unknown m +:+ text +:+ newline.
Proof.
  intros H.
  assert (Tree.stripComment text = text) as E1.
  { unfold Tree.stripComment.
    rewrite (Split_no_match text " //"); [reflexivity | discriminate | exact H]. }
  assert (Tree.stripComment (text +:+ " //" +:+ comment) = text) as E2.
  { unfold Tree.stripComment.
    now rewrite (Split_fresh_head " "%char "//" text comment eq_refl H). }
  cbn [Tree.writeLine Tree.writeUnknownLine Tree.writer Tree.unknown].
  now rewrite E1, E2.
Qed.

Lemma tree_lines_drop_comment_witness :
  Tree.writer (Tree.writeLine "  " "example.com/a v1.2.3 // indirect" Tree.fresh) =
  "example.com/a v1.2.3" +:+ newline.
Proof.
  apply (proj1 (proj2 (tree_lines_drop_comment
                         "  " "example.com/a v1.2.3" "indirect" Tree.fresh eq_refl))).
Defined.

(** ** The case escaping is injective *)

Lemma lower_ascii_code (c : ascii) :
  is_upper c = true -> nat_of_ascii (lower_ascii c) = (nat_of_ascii c + 32)%nat.
Proof. all_ascii c; intros H; try discriminate H; reflexivity. Qed.

Lemma lower_ascii_inj (c d : ascii) :
  is_upper c = true -> is_upper d = true ->
  lower_ascii c = lower_ascii d -> c = d.
Proof.
  intros Hc Hd E. apply (f_equal nat_of_ascii) in E.
  rewrite (lower_ascii_code _ Hc), (lower_ascii_code _ Hd) in E.
  rewrite <- (ascii_nat_embedding c), <- (ascii_nat_embedding d).
  f_equal. lia.
Qed.

Lemma escape_spec_inj (a b : string) :
  free_of "!" a = true -> free_of "!" b = true ->
  escape_spec a = escape_spec b -> a = b.
Proof.
  unfold free_of. revert b. induction a as [|c a IH]; intros [|d b] Ha Hb E;
    cbn [escape_spec string_forall] in *.
  - reflexivity.
  - destruct (is_upper d); discriminate E.
  - destruct (is_upper c); discriminate E.
  - apply andb_prop in Ha as [Hc Ha]. apply andb_prop in Hb as [Hd Hb].
    apply negb_true_iff, Ascii.eqb_neq in Hc, Hd.
    destruct (is_upper c) eqn:Uc, (is_upper d) eqn:Ud.
    + injection E as E1 E2. f_equal; [now apply lower_ascii_inj | now apply IH].
    + injection E as E1 E2. congruence.
    + injection E as E1 E2. congruence.
    + injection E as E1 E2. f_equal; [exact E1 | now apply IH].
Qed.

(** X5. Two ASCII module paths free of the marker [!] (Go module paths
    are) that differ are escaped to different strings, so they never share a
    cache directory name; with the marker in a path this fails, [!a] and
    [A] are both escaped to [!a]. *)
Theorem escapeCapitals_injective (a b : string) :
  ascii_only a = true -> ascii_only b = true ->
  free_of "!" a = true -> free_of "!" b = true ->
  (escapeCapitalsInModuleName a = escapeCapitalsInModuleName b -> a = b) /\
  escapeCapitalsInModuleName "!a" = escapeCapitalsInModuleName "A".
Proof.
  intros _ _ Ha Hb. split; [|reflexivity].
  rewrite !escapeCapitals_spec. now apply escape_spec_inj.
Qed.

Lemma escapeCapitals_injective_witness :
  (escapeCapitalsInModuleName "github.com/Foo/bar" =
   escapeCapitalsInModuleName "github.com/foo/bar" ->
   "github.com/Foo/bar" = "github.com/foo/bar") /\
  escapeCapitalsInModuleName "!a" = escapeCapitalsInModuleName "A".
Proof.
  apply (escapeCapitals_injective
           "github.com/Foo/bar" "github.com/foo/bar" eq_refl eq_refl eq_refl eq_refl).
Defined.

Lemma escape_spec_fixed (s : string) :
  escape_spec s = s <-> string_forall (fun c => negb (is_upper c)) s = true.
Proof.
  induction s as [|c s IH]; cbn [escape_spec string_forall]; [tauto|].
  destruct (is_upper c) eqn:U; cbn [negb andb].
  - split; [|discriminate]. intros E. injection E as E1 E2. subst c.
    discriminate U.
  - rewrite <- IH. split; [now intros [= ->] | now intros ->].
Qed.

Lemma lower_ascii_ascii (c : ascii) :
  (nat_of_ascii c <? 128)%nat = true -> (nat_of_ascii (lower_ascii c) <? 128)%nat = true.
Proof. all_ascii c; intros H; try discriminate H; reflexivity. Qed.

(** The escaping of an ASCII string is an ASCII string. *)
Lemma escape_spec_ascii (s : string) :
  ascii_only s = true -> ascii_only (escape_spec s) = true.
Proof.
  unfold ascii_only. induction s as [|c s IH]; [reflexivity|].
  cbn [string_forall escape_spec]. intros H. apply andb_prop in H as [Hc Hs].
  destruct (is_upper c); cbn [string_forall].
  - now rewrite (lower_ascii_ascii _ Hc), (IH Hs).
  - now rewrite Hc, (IH Hs).
Qed.

(** X6. The ASCII strings that [escapeCapitalsInModuleName] leaves alone
    are those without an uppercase letter; its results are among them, so
    escaping an escaped ASCII name changes nothing. *)
Theorem escapeCapitals_fixed_points (name : string) :
  ascii_only name = true ->
  (escapeCapitalsInModuleName name = name <->
   string_forall (fun c => negb (is_upper c)) name = true) /\
  ascii_only (escapeCapitalsInModuleName name) = true /\
  escapeCapitalsInModuleName (escapeCapitalsInModuleName name) =
  escapeCapitalsInModuleName name.
Proof.
  intros Hascii. rewrite !escapeCapitals_spec.
  split; [apply escape_spec_fixed|]. split.
  - now apply escape_spec_ascii.
  - apply escape_spec_fixed, escape_spec_no_upper.
Qed.

Lemma escapeCapitals_fixed_points_witness :
  ascii_only (escapeCapitalsInModuleName "github.com/Foo/bar") = true /\
  escapeCapitalsInModuleName (escapeCapitalsInModuleName "github.com/Foo/bar") =
  escapeCapitalsInModuleName "github.com/Foo/bar".
Proof.
  apply (proj2 (escapeCapitals_fixed_points "github.com/Foo/bar" eq_refl)).
Defined.

(** ** The module name of the tree variant, when there is one *)

Lemma substring_prefix (a b : string) :
  substring 0 (String.length a) (a +:+ b) = a.
Proof.
  induction a as [|c a IH]; [destruct b; reflexivity|].
  rewrite string_app_cons. cbn [String.length substring]. now rewrite IH.
Qed.

Lemma string_length_app (a b : string) :
  String.length (a +:+ b) = (String.length a + String.length b)%nat.
Proof.
  induction a as [|c a IH]; [reflexivity|].
  rewrite string_app_cons. cbn [String.length]. now rewrite IH.
Qed.

Lemma unquote_quoted (addr : string) :
  Tree.unquote (quote +:+ addr +:+ quote) = Some addr.
Proof.
  unfold Tree.unquote. rewrite !string_length_app.
  change (String.length quote) with 1%nat.
  destruct (Nat.leb_spec 2 (1 + (String.length addr + 1))) as [_|L]; [|lia].
  f_equal. unfold quote at 1. rewrite string_app_cons, string_app_nil_l.
  cbn [substring].
  replace (1 + (String.length addr + 1) - 2)%nat with (String.length addr) by lia.
  apply substring_prefix.
Qed.

Lemma scanLines_skip (cwd : string) (before rest : list string) :
  Forall no_module_keyword before ->
  Tree.scanLines cwd (before ++ rest) = Tree.scanLines cwd rest.
Proof.
  induction 1 as [|line before Hline _ IH]; [reflexivity|].
  cbn [app Tree.scanLines]. unfold no_module_keyword in Hline. now rewrite Hline.
Qed.

Section ModuleLine.
Variable addr : string.
Hypothesis Hplain : plain_address addr = true.

Lemma quoted_no_keyword :
  strings_Contains (quote +:+ addr +:+ quote) "module " = false.
Proof using Hplain.
  apply (Contains_forall (fun c => negb (is_space c))); [|reflexivity].
  rewrite !string_forall_app, (plain_no_space _ Hplain). reflexivity.
Qed.

(** Both spellings of the directive, [module addr] and [module "addr"],
    lead to the same test on [cwd]. *)
Lemma moduleLine_plain (cwd spelled : string) :
  spelled = addr \/ spelled = quote +:+ addr +:+ quote ->
  Tree.moduleLine cwd ("module " +:+ spelled) =
  if strings_HasSuffix cwd addr then Ret addr
  else match strings_Split cwd addr !! 1%nat with
       | None => Panic
       | Some rest => Ret (addr +:+ rest)
       end.
Proof using Hplain.
  intros [->| ->]; unfold Tree.moduleLine.
  - rewrite (module_line_split _ Hplain). cbn [lookup list_lookup].
    now rewrite (plain_no_quote _ Hplain).
  - assert (strings_Split ("module " +:+ quote +:+ addr +:+ quote) "module "
            = [EmptyString; quote +:+ addr +:+ quote]) as ->.
    { rewrite <- (string_app_nil_l ("module " +:+ quote +:+ addr +:+ quote)).
      rewrite (Split_at "module " EmptyString);
        [|discriminate|rewrite string_app_nil_l; apply Index_here].
      rewrite Split_no_match; [reflexivity | discriminate | apply quoted_no_keyword]. }
    cbn [lookup list_lookup].
    assert (strings_Contains (quote +:+ addr +:+ quote) quote = true) as ->
      by (unfold quote at 1; rewrite string_app_cons; reflexivity).
    now rewrite unquote_quoted.
Qed.
End ModuleLine.

(** X7. The tree variant takes the module name from the first line of
    go.mod that starts, once trimmed, with the module keyword, spelled
    [module addr] or [module "addr"]: when [cwd] ends with the address the
    name is the address; when the address first occurs inside [cwd] the
    name is the address followed by what stands in [cwd] behind that
    occurrence, up to the next occurrence if there is one. *)
Theorem tree_getModuleName_from_directive
  (w : World) (cwd fileBytes addr spelled line : string)
  (before after : list string) :
  os_ReadFile w (filepath_Join [cwd; "go.mod"]) = Some fileBytes ->
  strings_Split fileBytes newline = before ++ line :: after ->
  Forall no_module_keyword before ->
  strings_TrimSpace line = "module " +:+ spelled ->
  spelled = addr \/ spelled = quote +:+ addr +:+ quote ->
  plain_address addr = true ->
  (strings_HasSuffix cwd addr = true -> Tree.getModuleName w cwd = Ret addr) /\
  (forall pre post,
     strings_HasSuffix cwd addr = false ->
     cwd = pre +:+ addr +:+ post ->
     strings_Index cwd addr = Some (String.length pre) ->
     Tree.getModuleName w cwd =
     Ret (addr +:+ nth 0 (strings_Split post addr) EmptyString)).
Proof.
  intros Hread Hlines Hbefore Hline Hsp Hplain.
  assert (Tree.getModuleName w cwd =
          if strings_HasSuffix cwd addr then Ret addr
          else match strings_Split cwd addr !! 1%nat with
               | None => Panic
               | Some rest => Ret (addr +:+ rest)
               end) as E.
  { unfold Tree.getModuleName. rewrite Hread, Hlines, (scanLines_skip _ _ _ Hbefore).
    cbn [Tree.scanLines]. rewrite Hline, HasPrefix_app.
    now apply moduleLine_plain. }
  rewrite E. split.
  - now intros ->.
  - intros pre post -> -> Hidx.
    rewrite (Split_at addr pre post (plain_nonempty _ Hplain) Hidx).
    destruct addr as [|c t]; [discriminate Hplain|].
    destruct (Split_nth0 post c t) as (x & rest & ->). reflexivity.
Qed.

Lemma tree_getModuleName_from_directive_witness :
  Tree.getModuleName layout_world "/go/src/github.com/foo/bar"
  = Ret "github.com/foo/bar" /\
  Tree.getModuleName layout_world "/go/src/github.com/foo/bar/cmd/tool"
  = Ret "github.com/foo/bar/cmd/tool".
Proof.
  split.
  - apply (proj1 (tree_getModuleName_from_directive
                    layout_world "/go/src/github.com/foo/bar" quoted_gomod
                    "github.com/foo/bar"
                    (quote +:+ "github.com/foo/bar" +:+ quote)
                    ("module " +:+ quote +:+ "github.com/foo/bar" +:+ quote)
                    ["// the project"] ["go 1.21"; EmptyString]
                    eq_refl eq_refl
                    ltac:(repeat constructor)
                    eq_refl (or_intror eq_refl) eq_refl)).
    reflexivity.
  - apply (proj2 (tree_getModuleName_from_directive
                    layout_world "/go/src/github.com/foo/bar/cmd/tool" quoted_gomod
                    "github.com/foo/bar"
                    (quote +:+ "github.com/foo/bar" +:+ quote)
                    ("module " +:+ quote +:+ "github.com/foo/bar" +:+ quote)
                    ["// the project"] ["go 1.21"; EmptyString]
                    eq_refl eq_refl
                    ltac:(repeat constructor)
                    eq_refl (or_intror eq_refl) eq_refl)
                 "/go/src/" "/cmd/tool");
      reflexivity.
Defined.

Lemma moduleLine_not_exit (cwd line : string) (c : Z) :
  Tree.moduleLine cwd line <> Exit c.
Proof.
  unfold Tree.moduleLine.
  destruct (_ !! 1%nat) as [modAddress|]; [|discriminate].
  destruct (if strings_Contains modAddress quote then _ else _) as [a|]; [|discriminate].
  destruct (strings_HasSuffix cwd a); [discriminate|].
  destruct (_ !! 1%nat); discriminate.
Qed.

Lemma scanLines_exit (cwd : string) (lines : list string) (c : Z) :
  Tree.scanLines cwd lines = Exit c <-> c = 1 /\ Forall no_module_keyword lines.
Proof.
  induction lines as [|line rest IH]; cbn [Tree.scanLines].
  - split; [intros [= <-]; now split | now intros [-> _]].
  - destruct (strings_HasPrefix (strings_TrimSpace line) "module ") eqn:E.
    + split; [intros H; now apply moduleLine_not_exit in H|].
      intros [_ H]. inversion H as [|? ? Hl _]; subst.
      unfold no_module_keyword in Hl. congruence.
    + rewrite IH. split; intros [-> H]; (split; [reflexivity|]).
      * now constructor.
      * now inversion H.
Qed.

(** X8. [getModuleName] of the tree variant ends the process exactly when
    go.mod cannot be read or none of its lines starts, once trimmed, with
    the module keyword, and the status is then 1. *)
Theorem tree_getModuleName_exits (w : World) (cwd : string) (c : Z) :
  Tree.getModuleName w cwd = Exit c <->
  c = 1 /\
  match os_ReadFile w (filepath_Join [cwd; "go.mod"]) with
  | None => True
  | Some fileBytes => Forall no_module_keyword (strings_Split fileBytes newline)
  end.
Proof.
  unfold Tree.getModuleName.
  destruct (os_ReadFile w _) as [fileBytes|].
  - apply scanLines_exit.
  - split; [intros [= <-]; now split | now intros [-> _]].
Qed.

(** ** What a run of the graph variant logs about one identity *)

Lemma about_app (q : string) (a b : list event) :
  about q (a ++ b) = about q a ++ about q b.
Proof. apply filter_app. Qed.

Lemma about_cons (q : string) (e : event) (l : list event) :
  about q (e :: l) = if decide (subject e = q) then e :: about q l else about q l.
Proof. unfold about. rewrite filter_cons. reflexivity. Qed.

Lemma about_elem (q : string) (e : event) (tr : list event) :
  e ∈ about q tr <-> e ∈ tr /\ subject e = q.
Proof. unfold about. rewrite list_elem_of_filter. tauto. Qed.

Section GraphStory.
Import Graph.
Variable w : World.

Lemma walk_story :
  (forall m p i d m',
     walk w m p i d m' ->
     exists tr, trace m' = trace m ++ tr /\
       (forall q, q ∈ cache m -> about q tr = []) /\
       call_story w (cache m) (cache m') tr) /\
  (forall p i d reqs m m',
     walk_requires w p i d reqs m m' ->
     p ∈ cache m ->
     exists tr, trace m' = trace m ++ tr /\
       about p tr = map (fun r => EvEdge p (requireLine r)) reqs /\
       (forall q, q ∈ cache m -> q <> p -> about q tr = []) /\
       call_story w (cache m) (cache m') tr).
Proof.
  apply walk_mutind.
  - intros m p i d Hin. exists []. rewrite app_nil_r.
    split; [reflexivity|]. split; [reflexivity|]. intros q Hq. now left.
  - intros m p i d Hin _. exists [EvVisit p; EvCutoff p].
    split; [cbn; now rewrite <- app_assoc|]. split.
    + intros q Hq. rewrite !about_cons. cbn [subject].
      destruct (decide (p = q)) as [->|_]; [contradiction | reflexivity].
    + intros q Hq. rewrite !about_cons. cbn [subject cache cutoff visit].
      destruct (decide (p = q)) as [->|Hne].
      * right. split; [set_solver | now left].
      * left. split; [set_solver | reflexivity].
  - intros m p i d Hin _ R. exists [EvVisit p; EvUnknown p].
    split; [cbn; now rewrite <- app_assoc|]. split.
    + intros q Hq. rewrite !about_cons. cbn [subject].
      destruct (decide (p = q)) as [->|_]; [contradiction | reflexivity].
    + intros q Hq. rewrite !about_cons. cbn [subject cache markUnknown visit].
      destruct (decide (p = q)) as [->|Hne].
      * right. split; [set_solver|]. right. now rewrite R.
      * left. split; [set_solver | reflexivity].
  - intros m p i d Hin _ R. exists [EvVisit p].
    split; [reflexivity|]. split.
    + intros q Hq. rewrite !about_cons. cbn [subject].
      destruct (decide (p = q)) as [->|_]; [contradiction | reflexivity].
    + intros q Hq. rewrite !about_cons. cbn [subject cache visit].
      destruct (decide (p = q)) as [->|Hne].
      * right. split; [set_solver|]. right. now rewrite R.
      * left. split; [set_solver | reflexivity].
  - intros m p i d reqs m' Hin _ R Hw IH.
    destruct IH as (tr & Htr & Hp & Hold & Hnew); [cbn; set_solver|].
    exists (EvVisit p :: tr). split; [rewrite Htr; cbn; now rewrite <- app_assoc|].
    split.
    + intros q Hq. rewrite about_cons. cbn [subject].
      destruct (decide (p = q)) as [->|Hne]; [contradiction|].
      apply Hold; [cbn; set_solver | congruence].
    + intros q Hq. rewrite about_cons. cbn [subject].
      destruct (decide (p = q)) as [->|Hne].
      * right. split.
        -- apply walk_requires_cache_mono in Hw. cbn in Hw. set_solver.
        -- right. now rewrite R, Hp.
      * apply Hnew. cbn. set_solver.
  - intros p i d m Hp. exists []. rewrite app_nil_r.
    split; [reflexivity|]. split; [reflexivity|]. split; [reflexivity|].
    intros q Hq. now left.
  - intros p i d r rest m m1 m2 Hw IH1 Hwr IH2 Hp.
    destruct IH1 as (tr1 & Htr1 & Hold1 & Hnew1).
    pose proof (walk_cache_mono _ _ _ _ _ _ Hw) as Hmono.
    pose proof (walk_requires_cache_mono _ _ _ _ _ _ _ Hwr) as Hmono2.
    rewrite recordEdge_cache in Hmono, Hold1.
    destruct IH2 as (tr2 & Htr2 & Hp2 & Hold2 & Hnew2); [set_solver|].
    exists (EvEdge p (requireLine r) :: tr1 ++ tr2).
    split; [|split; [|split]].
    + rewrite Htr2, Htr1, recordEdge_trace, <- !app_assoc. reflexivity.
    + rewrite about_cons, about_app. cbn [subject].
      destruct (decide (p = p)) as [_|]; [|congruence].
      now rewrite (Hold1 p Hp), Hp2.
    + intros q Hq Hne. rewrite about_cons, about_app. cbn [subject].
      destruct (decide (p = q)) as [->|_]; [congruence|].
      rewrite (Hold1 q Hq), (Hold2 q); [reflexivity | set_solver | exact Hne].
    + intros q Hq. rewrite about_cons, about_app. cbn [subject].
      destruct (decide (p = q)) as [->|Hne]; [contradiction|].
      unfold call_story in Hnew1. rewrite recordEdge_cache in Hnew1.
      destruct (Hnew1 q Hq) as [[Hq1 E1]|[Hq1 S1]].
      * rewrite E1. apply Hnew2, Hq1.
      * right. split; [set_solver|].
        rewrite (Hold2 q Hq1), app_nil_r; [exact S1 | congruence].
Qed.
End GraphStory.

Lemma cutoffs_elem (tr : list event) (q : string) : q ∈ cutoffs tr <-> EvCutoff q ∈ tr.
Proof.
  unfold cutoffs. rewrite list_elem_of_omap. split.
  - intros (e & He & Hq). destruct e; try discriminate. now injection Hq as ->.
  - intros H. now exists (EvCutoff q).
Qed.

Lemma unknowns_elem (tr : list event) (q : string) : q ∈ unknowns tr <-> EvUnknown q ∈ tr.
Proof.
  unfold unknowns. rewrite list_elem_of_omap. split.
  - intros (e & He & Hq). destruct e; try discriminate. now injection Hq as ->.
  - intros H. now exists (EvUnknown q).
Qed.

Lemma targets_elem (tr : list event) (b : string) :
  b ∈ targets tr <-> exists a, EvEdge a b ∈ tr.
Proof.
  unfold targets. rewrite list_elem_of_omap. split.
  - intros (e & He & Hq). destruct e; try discriminate. injection Hq as ->. eauto.
  - intros [a H]. now exists (EvEdge a b).
Qed.

(** The log of a whole run, identity by identity. *)
Lemma graph_run_story w fuel root indent depth m' q :
  Graph.getModuleList w fuel Graph.fresh root indent depth = Some m' ->
  ((q ∉ Graph.cache m') /\ about q (Graph.trace m') = []) \/
  (q ∈ Graph.cache m' /\ graph_story w q (about q (Graph.trace m'))).
Proof.
  intros H. apply getModuleList_sound in H.
  destruct (proj1 (walk_story w) _ _ _ _ _ H) as (tr & Htr & _ & Hnew).
  cbn in Htr. subst tr. apply Hnew. cbn. set_solver.
Qed.

Lemma graph_unknown_logged w m p i d m' :
  Graph.walk w m p i d m' ->
  (forall q, q ∈ Graph.unknown m <-> EvUnknown q ∈ Graph.trace m) ->
  (forall q, q ∈ Graph.unknown m' <-> EvUnknown q ∈ Graph.trace m').
Proof.
  apply (walk_invariant w
           (fun m => forall q, q ∈ Graph.unknown m <-> EvUnknown q ∈ Graph.trace m)).
  - intros x n _ I q. cbn. rewrite elem_of_app, list_elem_of_singleton, I.
    split; [tauto | intros [?|?]; [assumption | discriminate]].
  - intros x n I q. cbn. rewrite elem_of_app, list_elem_of_singleton, I.
    split; [tauto | intros [?|?]; [assumption | discriminate]].
  - intros x n I q. cbn. rewrite elem_of_app, list_elem_of_singleton, elem_of_union,
      elem_of_singleton, I.
    split; [intros [->|?]; tauto | intros [?|[= ->]]; tauto].
  - intros x line n I q. rewrite recordEdge_unknown, recordEdge_trace.
    rewrite elem_of_app, list_elem_of_singleton, I.
    split; [tauto | intros [?|?]; [assumption | discriminate]].
Qed.

Lemma story_cases w q l (e : event) :
  graph_story w q l -> e ∈ l ->
  e = EvVisit q \/
  (e = EvCutoff q /\ l = [EvVisit q; EvCutoff q]) \/
  (e = EvUnknown q /\ resolve w q = NotLocated /\ l = [EvVisit q; EvUnknown q]) \/
  (exists reqs r, resolve w q = Manifest reqs /\ r ∈ reqs /\
                  e = EvEdge q (requireLine r) /\
                  l = EvVisit q :: map (fun r => EvEdge q (requireLine r)) reqs).
Proof.
  intros [->|S] He.
  - apply elem_of_cons in He as [->|He]; [now left|].
    apply list_elem_of_singleton in He as ->. right. now left.
  - destruct (resolve w q) as [| |reqs]; subst l.
    + apply elem_of_cons in He as [->|He]; [now left|].
      apply list_elem_of_singleton in He as ->. right. right. now left.
    + apply list_elem_of_singleton in He as ->. now left.
    + apply elem_of_cons in He as [->|He]; [now left|].
      apply list_elem_of_fmap in He as (r & -> & Hr).
      right. right. right. now exists reqs, r.
Qed.

(** X9. In a run of the graph variant from the fresh state the events
    about an identity are: none, when it was never reached; its insertion
    and the cutoff, when it was first reached with the budget used up; and
    otherwise its insertion followed by the unknown mark when no cache path
    is a hit, by nothing when the manifest cannot be read or parsed, and by
    one edge for each requirement of its manifest, in declaration order,
    when it can. *)
Theorem graph_log_of_an_identity
  (w : World) (fuel : nat) (root indent : string) (depth : Z)
  (m' : Graph.module) (q : string) :
  Graph.getModuleList w fuel Graph.fresh root indent depth = Some m' ->
  ((q ∉ Graph.cache m') /\ about q (Graph.trace m') = []) \/
  (q ∈ Graph.cache m' /\
   (about q (Graph.trace m') = [EvVisit q; EvCutoff q] \/
    about q (Graph.trace m') =
    EvVisit q ::
      match resolve w q with
      | NotLocated => [EvUnknown q]
      | NoManifest => []
      | Manifest reqs => map (fun r => EvEdge q (requireLine r)) reqs
      end)).
Proof.
  intros H. destruct (graph_run_story _ _ _ _ _ _ q H) as [?|[Hq S]]; [now left|].
  right. split; [exact Hq|]. destruct S as [S|S]; [now left|].
  right. now destruct (resolve w q).
Qed.

Lemma graph_log_of_an_identity_witness :
  exists m',
    Graph.getModuleList app_world 10 Graph.fresh "example.com/app" EmptyString (-1) = Some m' /\
    (("example.com/gone v0.1.0" ∉ Graph.cache m') /\
      about "example.com/gone v0.1.0" (Graph.trace m') = [] \/
     "example.com/gone v0.1.0" ∈ Graph.cache m' /\
     (about "example.com/gone v0.1.0" (Graph.trace m')
      = [EvVisit "example.com/gone v0.1.0"; EvCutoff "example.com/gone v0.1.0"] \/
      about "example.com/gone v0.1.0" (Graph.trace m')
      = EvVisit "example.com/gone v0.1.0" ::
          match resolve app_world "example.com/gone v0.1.0" with
          | NotLocated => [EvUnknown "example.com/gone v0.1.0"]
          | NoManifest => []
          | Manifest reqs =>
              map (fun r => EvEdge "example.com/gone v0.1.0" (requireLine r)) reqs
          end)).
Proof.
  assert (returned (Graph.getModuleList app_world 10 Graph.fresh "example.com/app" EmptyString (-1)) = true) as Hsome by (vm_compute; reflexivity).
  destruct (Graph.getModuleList app_world 10 Graph.fresh "example.com/app" EmptyString (-1)) as [m'|] eqn:E; [|discriminate Hsome].
  exists m'. split; [reflexivity|].
  exact (graph_log_of_an_identity app_world 10 "example.com/app" EmptyString (-1) m'
           "example.com/gone v0.1.0" E).
Defined.

Lemma graph_unknown_iff w fuel root indent depth m' q :
  Graph.getModuleList w fuel Graph.fresh root indent depth = Some m' ->
  (q ∈ Graph.unknown m' <->
   q ∈ Graph.cache m' /\ (q ∉ cutoffs (Graph.trace m')) /\ resolve w q = NotLocated).
Proof.
  intros H. pose proof (graph_run_story _ _ _ _ _ _ q H) as S.
  apply getModuleList_sound in H.
  rewrite (graph_unknown_logged _ _ _ _ _ _ H) by (intros x; cbn; set_solver).
  rewrite cutoffs_elem. split.
  - intros Hu. assert (EvUnknown q ∈ about q (Graph.trace m')) as Hin
      by (apply about_elem; now split).
    destruct S as [[_ E]|[Hq S]]; [rewrite E in Hin; inversion Hin|].
    destruct (story_cases _ _ _ _ S Hin) as [E|[[E _]|[(_ & R & L)|(? & ? & _ & _ & E & _)]]];
      try discriminate E.
    split; [exact Hq|]. split; [|exact R].
    intros Hc. assert (EvCutoff q ∈ about q (Graph.trace m')) as Hc'
      by (apply about_elem; now split).
    rewrite L in Hc'. apply elem_of_cons in Hc' as [Hc'|Hc']; [discriminate|].
    apply list_elem_of_singleton in Hc'. discriminate.
  - intros (Hq & Hc & R). destruct S as [[Hq' _]|[_ [S|S]]]; [contradiction| |].
    + exfalso. apply Hc. apply (about_elem q). rewrite S. set_solver.
    + rewrite R in S. apply (about_elem q). rewrite S. set_solver.
Qed.

Lemma graph_edges_logged w fuel root indent depth m' a b :
  Graph.getModuleList w fuel Graph.fresh root indent depth = Some m' ->
  (EvEdge a b ∈ Graph.trace m' <->
   a ∈ Graph.cache m' /\ (a ∉ cutoffs (Graph.trace m')) /\
   exists reqs r, resolve w a = Manifest reqs /\ r ∈ reqs /\ b = requireLine r).
Proof.
  intros H. pose proof (graph_run_story _ _ _ _ _ _ a H) as S.
  rewrite cutoffs_elem. split.
  - intros He. assert (EvEdge a b ∈ about a (Graph.trace m')) as Hin
      by (apply about_elem; now split).
    destruct S as [[_ E]|[Hq S]]; [rewrite E in Hin; inversion Hin|].
    destruct (story_cases _ _ _ _ S Hin)
      as [E|[[E _]|[(E & _)|(reqs & r & R & Hr & E & L)]]]; try discriminate E.
    injection E as ->. split; [exact Hq|]. split; [|now exists reqs, r].
    intros Hc. assert (EvCutoff a ∈ about a (Graph.trace m')) as Hc'
      by (apply about_elem; now split).
    rewrite L in Hc'. apply elem_of_cons in Hc' as [Hc'|Hc']; [discriminate|].
    apply list_elem_of_fmap in Hc' as (? & ? & _). discriminate.
  - intros (Hq & Hc & reqs & r & R & Hr & ->).
    destruct S as [[Hq' _]|[_ [S|S]]]; [contradiction| |].
    + exfalso. apply Hc. apply (about_elem a). rewrite S. set_solver.
    + rewrite R in S. apply (about_elem a). rewrite S.
      apply list_elem_of_further, list_elem_of_fmap. now exists r.
Qed.

(** Every requirement of an identity that was inserted with budget left
    has an index, and the indexes of its entry are theirs. *)
Lemma graph_entry_of_requirer w fuel root indent depth m' a reqs :
  Graph.getModuleList w fuel Graph.fresh root indent depth = Some m' ->
  a ∈ Graph.cache m' -> a ∉ cutoffs (Graph.trace m') ->
  resolve w a = Manifest reqs ->
  (forall r, r ∈ reqs -> is_Some (Graph.indexes m' !! requireLine r)) /\
  (forall i,
     (exists s, Graph.packages m' !! a = Some s /\ i ∈ s) <->
     (exists r, r ∈ reqs /\ Graph.indexes m' !! requireLine r = Some i)).
Proof.
  intros H Ha Hc R.
  destruct (graph_run_invariant _ _ _ _ _ _ H) as (_ & Hidx & Hedge & _).
  assert (forall r, r ∈ reqs -> EvEdge a (requireLine r) ∈ Graph.trace m') as Hlog.
  { intros r Hr. apply (graph_edges_logged _ _ _ _ _ _ _ _ H).
    split; [exact Ha|]. split; [exact Hc|]. now exists reqs, r. }
  split.
  - intros r Hr. apply (index_inv_target_indexed _ _ Hidx).
    apply targets_elem. exists a. now apply Hlog.
  - intros i. rewrite (Hedge a i). split.
    + intros (b & Hb & Hi).
      apply edges_elem, (graph_edges_logged _ _ _ _ _ _ _ _ H) in Hb
        as (_ & _ & reqs' & r & R' & Hr & ->).
      rewrite R in R'. injection R' as <-. now exists r.
    + intros (r & Hr & Hi). exists (requireLine r). split; [|exact Hi].
      apply edges_elem. now apply Hlog.
Qed.

(** An identity with an entry was inserted with budget left and has a
    manifest that requires something. *)
Lemma graph_requirer_of_entry w fuel root indent depth m' a :
  Graph.getModuleList w fuel Graph.fresh root indent depth = Some m' ->
  is_Some (Graph.packages m' !! a) ->
  a ∈ Graph.cache m' /\ (a ∉ cutoffs (Graph.trace m')) /\
  exists reqs, resolve w a = Manifest reqs /\ reqs <> [].
Proof.
  intros H [s Hs].
  destruct (graph_run_invariant _ _ _ _ _ _ H) as (_ & _ & Hedge & Hne).
  assert (exists i, i ∈ s) as [i Hi].
  { apply set_choose_L. eapply Hne, Hs. }
  destruct (proj1 (Hedge a i)) as (b & Hb & _); [now exists s|].
  apply edges_elem, (graph_edges_logged _ _ _ _ _ _ _ _ H) in Hb
    as (Ha & Hc & reqs & r & R & Hr & _).
  split; [exact Ha|]. split; [exact Hc|]. exists reqs. split; [exact R|].
  intros ->. inversion Hr.
Qed.

(** X10. The packages map of a run, read with its index table: an
    identity has an entry exactly when it was inserted with budget left, its
    manifest was located and parsed, and the manifest requires something;
    every requirement of such an identity has an index, and the entry holds
    the indexes of its requirements and nothing else. *)
Theorem graph_packages_exact
  (w : World) (fuel : nat) (root indent : string) (depth : Z)
  (m' : Graph.module) (a : string) :
  Graph.getModuleList w fuel Graph.fresh root indent depth = Some m' ->
  (is_Some (Graph.packages m' !! a) <->
   a ∈ Graph.cache m' /\ (a ∉ cutoffs (Graph.trace m')) /\
   exists reqs, resolve w a = Manifest reqs /\ reqs <> []) /\
  (forall reqs,
     a ∈ Graph.cache m' -> a ∉ cutoffs (Graph.trace m') ->
     resolve w a = Manifest reqs ->
     (forall r, r ∈ reqs -> is_Some (Graph.indexes m' !! requireLine r)) /\
     (forall i,
        (exists s, Graph.packages m' !! a = Some s /\ i ∈ s) <->
        (exists r, r ∈ reqs /\ Graph.indexes m' !! requireLine r = Some i))).
Proof.
  intros H. split; [split|].
  - exact (graph_requirer_of_entry _ _ _ _ _ _ a H).
  - intros (Ha & Hc & reqs & R & Hreqs).
    destruct (graph_entry_of_requirer _ _ _ _ _ _ _ _ H Ha Hc R) as [Hindexed Hi].
    destruct reqs as [|r reqs]; [congruence|].
    destruct (Hindexed r) as [i Hr]; [constructor|].
    destruct (proj2 (Hi i)) as (s & Hs & _); [exists r; split; [constructor | exact Hr]|].
    now exists s.
  - intros reqs Ha Hc R. exact (graph_entry_of_requirer _ _ _ _ _ _ _ _ H Ha Hc R).
Qed.

Lemma graph_packages_exact_witness :
  exists m',
    Graph.getModuleList app_world 10 Graph.fresh "example.com/app" EmptyString (-1) = Some m' /\
    (is_Some (Graph.packages m' !! "example.com/app") <->
     "example.com/app" ∈ Graph.cache m' /\
     ("example.com/app" ∉ cutoffs (Graph.trace m')) /\
     exists reqs, resolve app_world "example.com/app" = Manifest reqs /\ reqs <> []).
Proof.
  assert (returned (Graph.getModuleList app_world 10 Graph.fresh "example.com/app" EmptyString (-1)) = true) as Hsome by (vm_compute; reflexivity).
  destruct (Graph.getModuleList app_world 10 Graph.fresh "example.com/app" EmptyString (-1)) as [m'|] eqn:E; [|discriminate Hsome].
  exists m'. split; [reflexivity|].
  exact (proj1 (graph_packages_exact app_world 10 "example.com/app" EmptyString (-1) m'
                  "example.com/app" E)).
Defined.

(** ** The visited set and the index table *)

Lemma walk_targets_visited w :
  (forall m p i d m',
     Graph.walk w m p i d m' ->
     exists tr, Graph.trace m' = Graph.trace m ++ tr /\
       (forall b, b ∈ targets tr -> b ∈ Graph.cache m') /\
       (forall q, q ∈ Graph.cache m' ->
                  q ∈ Graph.cache m \/ q = p \/ q ∈ targets tr)) /\
  (forall p i d reqs m m',
     Graph.walk_requires w p i d reqs m m' ->
     exists tr, Graph.trace m' = Graph.trace m ++ tr /\
       (forall b, b ∈ targets tr -> b ∈ Graph.cache m') /\
       (forall q, q ∈ Graph.cache m' -> q ∈ Graph.cache m \/ q ∈ targets tr)).
Proof.
  apply Graph.walk_mutind.
  - intros m p i d Hin. exists []. rewrite app_nil_r. split; [reflexivity|].
    split; [intros b Hb; inversion Hb | intros q Hq; now left].
  - intros m p i d Hin _. exists [EvVisit p; EvCutoff p].
    split; [cbn; now rewrite <- app_assoc|].
    split; [intros b Hb; inversion Hb|]. cbn. intros q Hq. set_solver.
  - intros m p i d Hin _ _. exists [EvVisit p; EvUnknown p].
    split; [cbn; now rewrite <- app_assoc|].
    split; [intros b Hb; inversion Hb|]. cbn. intros q Hq. set_solver.
  - intros m p i d Hin _ _. exists [EvVisit p]. split; [reflexivity|].
    split; [intros b Hb; inversion Hb|]. cbn. intros q Hq. set_solver.
  - intros m p i d reqs m' Hin _ _ _ (tr & Htr & Ht & Hc).
    exists (EvVisit p :: tr). split; [rewrite Htr; cbn; now rewrite <- app_assoc|].
    split; [exact Ht|]. intros q Hq. destruct (Hc q Hq) as [H|H]; [|tauto].
    cbn in H. set_solver.
  - intros p i d m. exists []. rewrite app_nil_r. split; [reflexivity|].
    split; [intros b Hb; inversion Hb | intros q Hq; now left].
  - intros p i d r rest m m1 m2 Hw (tr1 & Htr1 & Ht1 & Hc1) Hwr (tr2 & Htr2 & Ht2 & Hc2).
    pose proof (walk_requires_cache_mono _ _ _ _ _ _ _ Hwr) as Hmono.
    exists (EvEdge p (requireLine r) :: tr1 ++ tr2). split; [|split].
    + rewrite Htr2, Htr1, recordEdge_trace, <- !app_assoc. reflexivity.
    + intros b Hb. change (b ∈ requireLine r :: targets (tr1 ++ tr2)) in Hb.
      rewrite targets_app in Hb.
      apply elem_of_cons in Hb as [->|Hb].
      * apply Hmono. eapply walk_visits_target, Hw.
      * apply elem_of_app in Hb as [Hb|Hb]; [apply Hmono, Ht1, Hb | apply Ht2, Hb].
    + intros q Hq. change (targets (EvEdge p (requireLine r) :: tr1 ++ tr2))
        with (requireLine r :: targets (tr1 ++ tr2)).
      rewrite targets_app, elem_of_cons, elem_of_app.
      destruct (Hc2 q Hq) as [H|H]; [|tauto].
      destruct (Hc1 q H) as [H1|[H1|H1]]; [|tauto|tauto].
      rewrite recordEdge_cache in H1. tauto.
Qed.

Lemma index_inv_dom m q :
  index_inv m -> (is_Some (Graph.indexes m !! q) <-> q ∈ targets (Graph.trace m)).
Proof.
  intros Hinv. pose proof Hinv as [H _]. split.
  - intros [i Hi]. apply H in Hi.
    apply list_elem_of_lookup_2, elem_of_first_seen in Hi. tauto.
  - intros Hq. now apply index_inv_target_indexed.
Qed.

(** X11. After a run the visited set is the root together with the
    identities of the index table: every identity that got an index was
    inserted, and nothing but the root was inserted without having been
    recorded as a dependency target. *)
Theorem graph_visited_is_root_and_indexed
  (w : World) (fuel : nat) (root indent : string) (depth : Z)
  (m' : Graph.module) (q : string) :
  Graph.getModuleList w fuel Graph.fresh root indent depth = Some m' ->
  (q ∈ Graph.cache m' <-> q = root \/ is_Some (Graph.indexes m' !! q)).
Proof.
  intros H. destruct (graph_run_invariant _ _ _ _ _ _ H) as (_ & Hidx & _).
  rewrite (index_inv_dom _ _ Hidx).
  apply getModuleList_sound in H.
  destruct (proj1 (walk_targets_visited w) _ _ _ _ _ H) as (tr & Htr & Ht & Hc).
  cbn in Htr. subst tr. split.
  - intros Hq. destruct (Hc q Hq) as [Hq'|Hq']; [cbn in Hq'; set_solver | exact Hq'].
  - intros [->|Hq]; [eapply walk_visits_target, H | now apply Ht].
Qed.

Lemma graph_visited_is_root_and_indexed_witness :
  exists m',
    Graph.getModuleList app_world 10 Graph.fresh "example.com/app" EmptyString (-1) = Some m' /\
    ("example.com/b v1.0.0" ∈ Graph.cache m' <->
     "example.com/b v1.0.0" = "example.com/app" \/
     is_Some (Graph.indexes m' !! "example.com/b v1.0.0")).
Proof.
  assert (returned (Graph.getModuleList app_world 10 Graph.fresh "example.com/app" EmptyString (-1)) = true) as Hsome by (vm_compute; reflexivity).
  destruct (Graph.getModuleList app_world 10 Graph.fresh "example.com/app" EmptyString (-1)) as [m'|] eqn:E; [|discriminate Hsome].
  exists m'. split; [reflexivity|].
  exact (graph_visited_is_root_and_indexed app_world 10 "example.com/app" EmptyString
           (-1) m' "example.com/b v1.0.0" E).
Defined.

(** ** The document of the graph variant *)

Lemma StronglySorted_le_lt (l : list nat) :
  StronglySorted Nat.le l -> NoDup l -> StronglySorted lt l.
Proof.
  induction 1 as [|x l Hl IH Hx]; intros Hnd; constructor.
  - apply IH. now apply NoDup_cons in Hnd as [_ Hnd].
  - apply NoDup_cons in Hnd as [Hx' _].
    apply Forall_forall. intros y Hy.
    assert (x <> y) by (intros ->; contradiction).
    pose proof (proj1 (Forall_forall _ _) Hx y Hy). unfold Nat.le in *. lia.
Qed.

Lemma sorted_elements (s : gset nat) :
  StronglySorted lt (merge_sort Nat.le (elements s)) /\
  forall i, i ∈ merge_sort Nat.le (elements s) <-> i ∈ s.
Proof.
  split.
  - apply StronglySorted_le_lt.
    + apply StronglySorted_merge_sort.
      * intros x y z. unfold Nat.le. lia.
      * intros x y. unfold Nat.le. lia.
    + rewrite merge_sort_Permutation. apply NoDup_elements.
  - intros i. rewrite merge_sort_Permutation. apply elem_of_elements.
Qed.

(** X12. What [Flush] hands to the encoder after a run: it does not
    index out of range; [indexes] and [unknown] hold no identity twice; each
    list of [packages] is strictly ascending, and its entries are the
    positions in [indexes] of the requirements of its key's manifest, no
    more and no less. *)
Theorem graph_document_well_formed
  (w : World) (fuel : nat) (root indent : string) (depth : Z)
  (m' : Graph.module) :
  Graph.getModuleList w fuel Graph.fresh root indent depth = Some m' ->
  exists doc,
    Graph.Flush m' = Some doc /\
    NoDup (Graph.Indexes doc) /\ NoDup (Graph.Unknown doc) /\
    forall a l,
      Graph.Packages doc !! a = Some l ->
      StronglySorted lt l /\
      exists reqs,
        resolve w a = Manifest reqs /\
        forall i, i ∈ l <->
                  exists r, r ∈ reqs /\ Graph.Indexes doc !! i = Some (requireLine r).
Proof.
  intros H. destruct (graph_run_invariant _ _ _ _ _ _ H) as (_ & Hidx & Hedge).
  eexists. split; [apply Flush_spec; assumption|].
  cbn [Graph.Indexes Graph.Unknown Graph.Packages].
  split; [apply first_seen_NoDup|]. split; [apply NoDup_elements|].
  intros a l Hl. rewrite lookup_fmap in Hl.
  destruct (Graph.packages m' !! a) as [s|] eqn:Hs; [|discriminate].
  injection Hl as <-.
  destruct (sorted_elements s) as [Hsorted Hmem]. split; [exact Hsorted|].
  destruct (graph_requirer_of_entry _ _ _ _ _ _ a H) as (Ha & Hc & reqs & R & _);
    [now exists s|].
  exists reqs. split; [exact R|]. intros i. rewrite Hmem.
  destruct (graph_entry_of_requirer _ _ _ _ _ _ _ _ H Ha Hc R) as [_ Hi].
  destruct Hidx as [Hbij _].
  split.
  - intros Hin. destruct (proj1 (Hi i)) as (r & Hr & E); [now exists s|].
    exists r. split; [exact Hr|]. now apply Hbij.
  - intros (r & Hr & E). destruct (proj2 (Hi i)) as (s' & Hs' & Hin).
    + exists r. split; [exact Hr|]. now apply Hbij.
    + congruence.
Qed.

Lemma graph_document_well_formed_witness :
  exists m',
    Graph.getModuleList app_world 10 Graph.fresh "example.com/app" EmptyString (-1) = Some m' /\
    exists doc,
      Graph.Flush m' = Some doc /\
      NoDup (Graph.Indexes doc) /\ NoDup (Graph.Unknown doc) /\
      forall a l,
        Graph.Packages doc !! a = Some l ->
        StronglySorted lt l /\
        exists reqs,
          resolve app_world a = Manifest reqs /\
          forall i, i ∈ l <->
                    exists r, r ∈ reqs /\
                              Graph.Indexes doc !! i = Some (requireLine r).
Proof.
  assert (returned (Graph.getModuleList app_world 10 Graph.fresh "example.com/app" EmptyString (-1)) = true) as Hsome by (vm_compute; reflexivity).
  destruct (Graph.getModuleList app_world 10 Graph.fresh "example.com/app" EmptyString (-1)) as [m'|] eqn:E; [|discriminate Hsome].
  exists m'. split; [reflexivity|].
  exact (graph_document_well_formed app_world 10 "example.com/app" EmptyString (-1) m' E).
Defined.

(** ** Negative budgets *)

Lemma requirements_in_mono w (C C' : gset string) q :
  C ⊆ C' -> requirements_in w C q -> requirements_in w C' q.
Proof. intros HC H reqs r R Hr. apply HC. eapply H; eauto. Qed.

Lemma reach_refl w a : reach w a a.
Proof. exists O. constructor. Qed.

Lemma reach_step w a b reqs r :
  reach w a b -> resolve w b = Manifest reqs -> r ∈ reqs -> reach w a (requireLine r).
Proof. intros [n H] R Hr. exists (S n). econstructor; eauto. Qed.

Lemma reach_shift w p reqs r q :
  resolve w p = Manifest reqs -> r ∈ reqs -> reach w (requireLine r) q -> reach w p q.
Proof. intros R Hr [n H]. exists (S n). eapply within_shift; eauto. Qed.

(** A visited set that holds the root and the requirements of each of its
    members holds everything that can be reached from the root. *)
Lemma reach_closed w (C : gset string) root q :
  root ∈ C -> (forall x, x ∈ C -> requirements_in w C x) ->
  reach w root q -> q ∈ C.
Proof.
  intros Hroot Hclosed [n H]. revert Hroot.
  induction H as [n a|n a b reqs r H IH R Hr]; intros Hroot; [exact Hroot|].
  exact (Hclosed b (IH Hroot) reqs r R Hr).
Qed.

Lemma graph_walk_reach w :
  (forall m p i d m',
     Graph.walk w m p i d m' ->
     forall q, q ∈ Graph.cache m' -> q ∈ Graph.cache m \/ reach w p q) /\
  (forall p i d reqs m m',
     Graph.walk_requires w p i d reqs m m' ->
     forall q, q ∈ Graph.cache m' ->
               q ∈ Graph.cache m \/ exists r, r ∈ reqs /\ reach w (requireLine r) q).
Proof.
  apply Graph.walk_mutind.
  - intros m p i d _ q Hq. now left.
  - intros m p i d _ _ q Hq. cbn in Hq.
    apply elem_of_union in Hq as [->%elem_of_singleton|Hq];
      [right; apply reach_refl | now left].
  - intros m p i d _ _ _ q Hq. cbn in Hq.
    apply elem_of_union in Hq as [->%elem_of_singleton|Hq];
      [right; apply reach_refl | now left].
  - intros m p i d _ _ _ q Hq. cbn in Hq.
    apply elem_of_union in Hq as [->%elem_of_singleton|Hq];
      [right; apply reach_refl | now left].
  - intros m p i d reqs m' _ _ R _ IH q Hq.
    destruct (IH q Hq) as [Hq'|(r & Hr & Hreach)].
    + cbn in Hq'. apply elem_of_union in Hq' as [->%elem_of_singleton|Hq'];
        [right; apply reach_refl | now left].
    + right. eapply reach_shift; eauto.
  - intros p i d m q Hq. now left.
  - intros p i d r rest m m1 m2 _ IH1 _ IH2 q Hq.
    destruct (IH2 q Hq) as [Hq1|(r' & Hr' & Hreach)].
    + destruct (IH1 q Hq1) as [Hq0|Hreach].
      * rewrite recordEdge_cache in Hq0. now left.
      * right. exists r. split; [constructor | exact Hreach].
    + right. exists r'. split; [now constructor | exact Hreach].
Qed.

Section GraphNegative.
Import Graph.
Variable w : World.
Variable U : gset string.
Variable k : Z.
Hypothesis Hclosed : closed_world w U.
Hypothesis Hk : Z.of_nat (size U) + k < 2 ^ 63.

(** A negative budget that is at least [-k] minus the number of visited
    identities stays negative all the way down, and then every identity a
    call inserts has all its requirements visited when the call returns. *)
Lemma walk_negative :
  (forall m p i d m',
     walk w m p i d m' ->
     d < 0 -> - d <= Z.of_nat (size (cache m)) + k ->
     cache m ⊆ U -> p ∈ U ->
     cutoffs (trace m') = cutoffs (trace m) /\ cache m' ⊆ U /\
     forall q, q ∈ cache m' -> q ∉ cache m -> requirements_in w (cache m') q) /\
  (forall p i d reqs m m',
     walk_requires w p i d reqs m m' ->
     d < 0 -> - d + 1 <= Z.of_nat (size (cache m)) + k ->
     cache m ⊆ U -> (forall r, r ∈ reqs -> requireLine r ∈ U) ->
     cutoffs (trace m') = cutoffs (trace m) /\ cache m' ⊆ U /\
     (forall r, r ∈ reqs -> requireLine r ∈ cache m') /\
     forall q, q ∈ cache m' -> q ∉ cache m -> requirements_in w (cache m') q).
Proof using Hclosed Hk.
  apply walk_mutind.
  - intros m p i d Hin Hd Hb Hc Hp. split; [reflexivity|]. split; [exact Hc|].
    intros q Hq Hq'. contradiction.
  - intros m p i d Hin -> Hd. lia.
  - intros m p i d Hin _ R Hd Hb Hc Hp. split; [|split].
    + cbn. now rewrite !cutoffs_app, !app_nil_r.
    + cbn. set_solver.
    + cbn. intros q Hq Hq' reqs r R'.
      assert (q = p) as -> by set_solver. congruence.
  - intros m p i d Hin _ R Hd Hb Hc Hp. split; [|split].
    + cbn. now rewrite !cutoffs_app, !app_nil_r.
    + cbn. set_solver.
    + cbn. intros q Hq Hq' reqs r R'.
      assert (q = p) as -> by set_solver. congruence.
  - intros m p i d reqs m' Hin _ R _ IH Hd Hb Hc Hp.
    destruct IH as (IH1 & IH2 & IH3 & IH4).
    + exact Hd.
    + cbn. rewrite size_union by set_solver. rewrite size_singleton. lia.
    + cbn. set_solver.
    + intros r Hr. eapply Hclosed; eauto.
    + split; [|split; [exact IH2|]].
      * rewrite IH1. cbn. now rewrite cutoffs_app, app_nil_r.
      * intros q Hq Hq'. destruct (decide (q = p)) as [->|Hne].
        -- intros reqs' r R' Hr. rewrite R in R'. injection R' as <-. now apply IH3.
        -- apply IH4; [exact Hq|]. cbn. set_solver.
  - intros p i d m Hd Hb Hc Hr. split; [reflexivity|]. split; [exact Hc|].
    split; [intros r H; inversion H | intros q Hq Hq'; contradiction].
  - intros p i d r rest m m1 m2 Hw IH1 Hwr IH2 Hd Hb Hc Hr.
    pose proof (subseteq_size _ _ Hc) as Hsz.
    assert (int_pred d = d - 1) as Hpred by (apply int_pred_exact; lia).
    pose proof (walk_visits_target _ _ _ _ _ _ Hw) as Hline.
    pose proof (walk_requires_cache_mono _ _ _ _ _ _ _ Hwr) as Hmono2.
    destruct IH1 as (IH1a & IH1b & IH1c).
    + lia.
    + rewrite recordEdge_cache. lia.
    + now rewrite recordEdge_cache.
    + apply Hr. constructor.
    + apply walk_cache_mono in Hw. rewrite recordEdge_cache in Hw, IH1c.
      pose proof (subseteq_size _ _ Hw) as Hsz'.
      destruct IH2 as (IH2a & IH2b & IH2c & IH2d).
      * exact Hd.
      * lia.
      * exact IH1b.
      * intros r' Hr'. apply Hr. now constructor.
      * split; [|split; [exact IH2b|split]].
        -- rewrite IH2a, IH1a, recordEdge_trace, cutoffs_app. cbn. now rewrite app_nil_r.
        -- intros r' Hr'. apply elem_of_cons in Hr' as [->|Hr'];
             [apply Hmono2, Hline | now apply IH2c].
        -- intros q Hq Hq'. destruct (decide (q ∈ cache m1)) as [H1|H1].
           ++ eapply requirements_in_mono; [exact Hmono2 | now apply IH1c].
           ++ now apply IH2d.
Qed.

(** Two negative budgets lead through the same steps. *)
Lemma getModuleList_negative_same :
  forall fuel m p i i' d d',
    d < 0 -> d' < 0 ->
    - d <= Z.of_nat (size (cache m)) + k ->
    - d' <= Z.of_nat (size (cache m)) + k ->
    cache m ⊆ U -> p ∈ U ->
    getModuleList w fuel m p i d = getModuleList w fuel m p i' d'.
Proof using Hclosed Hk.
  induction fuel as [|fuel IH]; intros m p i i' d d' Hd Hd' Hb Hb' Hc Hp; [reflexivity|].
  rewrite !getModuleList_unfold.
  destruct (decide (p ∈ cache m)) as [Hin|Hin]; [reflexivity|].
  destruct (Z.eqb_spec d 0) as [->|_]; [lia|].
  destruct (Z.eqb_spec d' 0) as [->|_]; [lia|].
  destruct (resolve w p) as [| |reqs] eqn:R; [reflexivity | reflexivity |].
  assert (forall r, r ∈ reqs -> requireLine r ∈ U) as Hreqs
    by (intros r Hr; eapply Hclosed; eauto).
  assert (cache (visit p m) ⊆ U) as Hc1 by (cbn; set_solver).
  assert (Z.of_nat (size (cache m)) + 1 <= Z.of_nat (size (cache (visit p m)))) as Hs1.
  { cbn. rewrite size_union by set_solver. rewrite size_singleton. lia. }
  clear R. revert Hc1 Hs1 Hreqs. generalize (visit p m) as m1.
  induction reqs as [|r reqs IHr]; intros m1 Hc1 Hs1 Hreqs; cbn [rangeRequires];
    [reflexivity|].
  pose proof (subseteq_size _ _ Hc1) as Hsz.
  assert (int_pred d = d - 1) as Hpred by (apply int_pred_exact; lia).
  assert (int_pred d' = d' - 1) as Hpred' by (apply int_pred_exact; lia).
  rewrite (IH (recordEdge p (requireLine r) m1) (requireLine r)
              (i +:+ "  ") (i' +:+ "  ") (int_pred d) (int_pred d'));
    [|lia|lia|rewrite recordEdge_cache; lia|rewrite recordEdge_cache; lia
     |now rewrite recordEdge_cache|apply Hreqs; constructor].
  destruct (getModuleList w fuel _ _ _ (int_pred d')) as [m2|] eqn:E; [|reflexivity].
  apply getModuleList_sound in E.
  pose proof (walk_cache_mono _ _ _ _ _ _ E) as Hmono. rewrite recordEdge_cache in Hmono.
  pose proof (subseteq_size _ _ Hmono) as Hsz2.
  apply IHr.
  - eapply (proj1 walk_negative) in E as (_ & E & _); [exact E|lia| | |].
    + rewrite recordEdge_cache. lia.
    + now rewrite recordEdge_cache.
    + apply Hreqs. constructor.
  - lia.
  - intros r' Hr'. apply Hreqs. now constructor.
Qed.

End GraphNegative.

(** What a walk with a negative budget leaves behind. *)
Lemma graph_negative_walk w (U : gset string) root indent depth m' :
  closed_world w U -> root ∈ U ->
  depth < 0 -> Z.of_nat (size U) - depth < 2 ^ 63 ->
  Graph.walk w Graph.fresh root indent depth m' ->
  cutoffs (Graph.trace m') = [] /\
  forall q, q ∈ Graph.cache m' <-> reach w root q.
Proof.
  intros Hclosed Hroot Hd Hsmall E.
  assert (Z.of_nat (size U) + - depth < 2 ^ 63) as Hk by lia.
  destruct (proj1 (walk_negative w U (- depth) Hclosed Hk) _ _ _ _ _ E)
    as (Hcut & _ & Hreq).
  { exact Hd. }
  { cbn. rewrite size_empty. lia. }
  { cbn. set_solver. }
  { exact Hroot. }
  split; [exact Hcut|]. intros q. split.
  - intros Hq. destruct (proj1 (graph_walk_reach w) _ _ _ _ _ E q Hq) as [H|H];
      [cbn in H; set_solver | exact H].
  - apply reach_closed.
    + eapply walk_visits_target, E.
    + intros x Hx. apply Hreq; [exact Hx | cbn; set_solver].
Qed.

(** X13. On a finite requirement graph [U], a negative budget [depth]
    with [size U - depth < 2^63] (the default [-1], and the values below it
    that [main] reports but lets through) never reaches zero: the walk
    returns the state of the walk with budget [-1], no call ends in the
    cutoff, and the visited set is exactly the set of identities that can
    be reached from the root along requirements of located, parsed
    manifests. *)
Theorem graph_negative_depth_visits_all_reachable
  (w : World) (U : gset string) (root indent : string) (depth : Z) (fuel : nat) :
  closed_world w U -> root ∈ U ->
  depth < 0 -> Z.of_nat (size U) - depth < 2 ^ 63 ->
  (size U < fuel)%nat ->
  exists m',
    Graph.getModuleList w fuel Graph.fresh root indent depth = Some m' /\
    Graph.getModuleList w fuel Graph.fresh root indent (-1) = Some m' /\
    cutoffs (Graph.trace m') = [] /\
    forall q, q ∈ Graph.cache m' <-> reach w root q.
Proof.
  intros Hclosed Hroot Hd Hsmall Hfuel.
  destruct (getModuleList_total w U Hclosed fuel Graph.fresh root indent depth)
    as (m' & E & _).
  { cbn. set_solver. }
  { exact Hroot. }
  { cbn. rewrite difference_empty_L. exact Hfuel. }
  exists m'. split; [exact E|].
  assert (Z.of_nat (size U) + - depth < 2 ^ 63) as Hk by lia.
  split.
  { rewrite <- E. symmetry.
    apply (getModuleList_negative_same w U (- depth) Hclosed Hk); cbn;
      rewrite ?size_empty; try lia; [set_solver | exact Hroot]. }
  apply getModuleList_sound in E.
  now apply graph_negative_walk with U indent depth.
Qed.

Lemma graph_negative_depth_visits_all_reachable_witness :
  exists m',
    Graph.getModuleList cycle_world 5 Graph.fresh idA EmptyString (-7) = Some m' /\
    Graph.getModuleList cycle_world 5 Graph.fresh idA EmptyString (-1) = Some m' /\
    cutoffs (Graph.trace m') = [] /\
    forall q, q ∈ Graph.cache m' <-> reach cycle_world idA q.
Proof.
  apply (graph_negative_depth_visits_all_reachable cycle_world (list_to_set (table_lines cycle_table))).
  - apply table_world_closed.
  - apply in_by_compute. vm_compute. reflexivity.
  - reflexivity.
  - vm_compute. reflexivity.
  - vm_compute. lia.
Defined.

(** ** The tree variant: negative budgets *)

Lemma tree_walk_requires_cache_mono w i d reqs m m' :
  Tree.walk_requires w i d reqs m m' -> Tree.cache m ⊆ Tree.cache m'.
Proof.
  induction 1 as [|i d r rest m m1 m2 Hw _ IH]; [reflexivity|].
  apply tree_walk_cache_mono in Hw. set_solver.
Qed.

Lemma tree_walk_visits_target w m p i d m' :
  Tree.walk w m p i d m' -> d <> 0 -> p ∈ Tree.cache m'.
Proof.
  intros H Hd. destruct H as [m p i d Hz|m p i d _ Hin|m p i d _ _ _|m p i d _ _ _
                             |m p i d reqs m' _ _ _ Hw].
  - contradiction.
  - exact Hin.
  - cbn. set_solver.
  - cbn. set_solver.
  - apply tree_walk_requires_cache_mono in Hw. cbn in Hw. set_solver.
Qed.

Lemma tree_walk_reach w :
  (forall m p i d m',
     Tree.walk w m p i d m' ->
     forall q, q ∈ Tree.cache m' -> q ∈ Tree.cache m \/ reach w p q) /\
  (forall i d reqs m m',
     Tree.walk_requires w i d reqs m m' ->
     forall q, q ∈ Tree.cache m' ->
               q ∈ Tree.cache m \/ exists r, r ∈ reqs /\ reach w (requireLine r) q).
Proof.
  apply Tree.walk_mutind.
  - intros m p i d _ q Hq. now left.
  - intros m p i d _ _ q Hq. now left.
  - intros m p i d _ _ _ q Hq. cbn in Hq.
    apply elem_of_union in Hq as [->%elem_of_singleton|Hq];
      [right; apply reach_refl | now left].
  - intros m p i d _ _ _ q Hq. cbn in Hq.
    apply elem_of_union in Hq as [->%elem_of_singleton|Hq];
      [right; apply reach_refl | now left].
  - intros m p i d reqs m' _ _ R _ IH q Hq.
    destruct (IH q Hq) as [Hq'|(r & Hr & Hreach)].
    + cbn in Hq'. apply elem_of_union in Hq' as [->%elem_of_singleton|Hq'];
        [right; apply reach_refl | now left].
    + right. eapply reach_shift; eauto.
  - intros i d m q Hq. now left.
  - intros i d r rest m m1 m2 _ IH1 _ IH2 q Hq.
    destruct (IH2 q Hq) as [Hq1|(r' & Hr' & Hreach)].
    + destruct (IH1 q Hq1) as [Hq0|Hreach].
      * now left.
      * right. exists r. split; [constructor | exact Hreach].
    + right. exists r'. split; [now constructor | exact Hreach].
Qed.

Section TreeNegative.
Import Tree.
Variable w : World.
Variable U : gset string.
Variable k : Z.
Hypothesis Hclosed : closed_world w U.
Hypothesis Hk : Z.of_nat (size U) + k < 2 ^ 63.

Lemma tree_walk_negative :
  (forall m p i d m',
     walk w m p i d m' ->
     d < 0 -> - d <= Z.of_nat (size (cache m)) + k ->
     cache m ⊆ U -> p ∈ U ->
     cutoffs (trace m') = cutoffs (trace m) /\ cache m' ⊆ U /\
     forall q, q ∈ cache m' -> q ∉ cache m -> requirements_in w (cache m') q) /\
  (forall i d reqs m m',
     walk_requires w i d reqs m m' ->
     d < 0 -> - d + 1 <= Z.of_nat (size (cache m)) + k ->
     cache m ⊆ U -> (forall r, r ∈ reqs -> requireLine r ∈ U) ->
     cutoffs (trace m') = cutoffs (trace m) /\ cache m' ⊆ U /\
     (forall r, r ∈ reqs -> requireLine r ∈ cache m') /\
     forall q, q ∈ cache m' -> q ∉ cache m -> requirements_in w (cache m') q).
Proof using Hclosed Hk.
  apply walk_mutind.
  - intros m p i d -> Hd. lia.
  - intros m p i d _ Hin Hd Hb Hc Hp. split; [reflexivity|]. split; [exact Hc|].
    intros q Hq Hq'. contradiction.
  - intros m p i d _ Hin R Hd Hb Hc Hp. split; [|split].
    + cbn. now rewrite !cutoffs_app, !app_nil_r.
    + cbn. set_solver.
    + cbn. intros q Hq Hq' reqs r R'.
      assert (q = p) as -> by set_solver. congruence.
  - intros m p i d _ Hin R Hd Hb Hc Hp. split; [|split].
    + cbn. now rewrite !cutoffs_app, !app_nil_r.
    + cbn. set_solver.
    + cbn. intros q Hq Hq' reqs r R'.
      assert (q = p) as -> by set_solver. congruence.
  - intros m p i d reqs m' _ Hin R _ IH Hd Hb Hc Hp.
    destruct IH as (IH1 & IH2 & IH3 & IH4).
    + exact Hd.
    + cbn. rewrite size_union by set_solver. rewrite size_singleton. lia.
    + cbn. set_solver.
    + intros r Hr. eapply Hclosed; eauto.
    + split; [|split; [exact IH2|]].
      * rewrite IH1. cbn. now rewrite cutoffs_app, app_nil_r.
      * intros q Hq Hq'. destruct (decide (q = p)) as [->|Hne].
        -- intros reqs' r R' Hr. rewrite R in R'. injection R' as <-. now apply IH3.
        -- apply IH4; [exact Hq|]. cbn. set_solver.
  - intros i d m Hd Hb Hc Hr. split; [reflexivity|]. split; [exact Hc|].
    split; [intros r H; inversion H | intros q Hq Hq'; contradiction].
  - intros i d r rest m m1 m2 Hw IH1 Hwr IH2 Hd Hb Hc Hr.
    pose proof (subseteq_size _ _ Hc) as Hsz.
    assert (int_pred d = d - 1) as Hpred by (apply int_pred_exact; lia).
    assert (requireLine r ∈ cache m1) as Hline
      by (eapply tree_walk_visits_target; [exact Hw | lia]).
    pose proof (tree_walk_requires_cache_mono _ _ _ _ _ _ Hwr) as Hmono2.
    destruct IH1 as (IH1a & IH1b & IH1c).
    + lia.
    + lia.
    + exact Hc.
    + apply Hr. constructor.
    + apply tree_walk_cache_mono in Hw.
      pose proof (subseteq_size _ _ Hw) as Hsz'.
      destruct IH2 as (IH2a & IH2b & IH2c & IH2d).
      * exact Hd.
      * lia.
      * exact IH1b.
      * intros r' Hr'. apply Hr. now constructor.
      * split; [|split; [exact IH2b|split]].
        -- now rewrite IH2a, IH1a.
        -- intros r' Hr'. apply elem_of_cons in Hr' as [->|Hr'];
             [apply Hmono2, Hline | now apply IH2c].
        -- intros q Hq Hq'. destruct (decide (q ∈ cache m1)) as [H1|H1].
           ++ eapply requirements_in_mono; [exact Hmono2 | now apply IH1c].
           ++ now apply IH2d.
Qed.

Lemma tree_getModuleList_negative_same :
  forall fuel m p i i' d d',
    d < 0 -> d' < 0 ->
    - d <= Z.of_nat (size (cache m)) + k ->
    - d' <= Z.of_nat (size (cache m)) + k ->
    cache m ⊆ U -> p ∈ U ->
    getModuleList w fuel m p i d = getModuleList w fuel m p i' d'.
Proof using Hclosed Hk.
  induction fuel as [|fuel IH]; intros m p i i' d d' Hd Hd' Hb Hb' Hc Hp; [reflexivity|].
  rewrite !tree_getModuleList_unfold.
  destruct (Z.eqb_spec d 0) as [->|_]; [lia|].
  destruct (Z.eqb_spec d' 0) as [->|_]; [lia|].
  destruct (decide (p ∈ cache m)) as [Hin|Hin]; [reflexivity|].
  destruct (resolve w p) as [| |reqs] eqn:R; [reflexivity | reflexivity |].
  assert (forall r, r ∈ reqs -> requireLine r ∈ U) as Hreqs
    by (intros r Hr; eapply Hclosed; eauto).
  change (writeLine i' p (visit p m)) with (writeLine i p (visit p m)).
  assert (cache (writeLine i p (visit p m)) ⊆ U) as Hc1 by (cbn; set_solver).
  assert (Z.of_nat (size (cache m)) + 1
          <= Z.of_nat (size (cache (writeLine i p (visit p m))))) as Hs1.
  { cbn. rewrite size_union by set_solver. rewrite size_singleton. lia. }
  clear R. revert Hc1 Hs1 Hreqs. generalize (writeLine i p (visit p m)) as m1.
  induction reqs as [|r reqs IHr]; intros m1 Hc1 Hs1 Hreqs; cbn [rangeRequires];
    [reflexivity|].
  pose proof (subseteq_size _ _ Hc1) as Hsz.
  assert (int_pred d = d - 1) as Hpred by (apply int_pred_exact; lia).
  assert (int_pred d' = d' - 1) as Hpred' by (apply int_pred_exact; lia).
  rewrite (IH m1 (requireLine r) (i +:+ "  ") (i' +:+ "  ") (int_pred d) (int_pred d'));
    [|lia|lia|lia|lia|exact Hc1|apply Hreqs; constructor].
  destruct (getModuleList w fuel _ _ _ (int_pred d')) as [m2|] eqn:E; [|reflexivity].
  apply tree_getModuleList_sound in E.
  pose proof (tree_walk_cache_mono _ _ _ _ _ _ E) as Hmono.
  pose proof (subseteq_size _ _ Hmono) as Hsz2.
  apply IHr.
  - eapply (proj1 tree_walk_negative) in E as (_ & E & _); [exact E|lia|lia|exact Hc1|].
    apply Hreqs. constructor.
  - lia.
  - intros r' Hr'. apply Hreqs. now constructor.
Qed.

End TreeNegative.

Lemma tree_negative_walk w (U : gset string) root indent depth m' :
  closed_world w U -> root ∈ U ->
  depth < 0 -> Z.of_nat (size U) - depth < 2 ^ 63 ->
  Tree.walk w Tree.fresh root indent depth m' ->
  cutoffs (Tree.trace m') = [] /\
  forall q, q ∈ Tree.cache m' <-> reach w root q.
Proof.
  intros Hclosed Hroot Hd Hsmall E.
  assert (Z.of_nat (size U) + - depth < 2 ^ 63) as Hk by lia.
  destruct (proj1 (tree_walk_negative w U (- depth) Hclosed Hk) _ _ _ _ _ E)
    as (Hcut & _ & Hreq).
  { exact Hd. }
  { cbn. rewrite size_empty. lia. }
  { cbn. set_solver. }
  { exact Hroot. }
  split; [exact Hcut|]. intros q. split.
  - intros Hq. destruct (proj1 (tree_walk_reach w) _ _ _ _ _ E q Hq) as [H|H];
      [cbn in H; set_solver | exact H].
  - apply reach_closed.
    + eapply tree_walk_visits_target; [exact E | lia].
    + intros x Hx. apply Hreq; [exact Hx | cbn; set_solver].
Qed.

(** X14. The same for the tree variant: with a negative budget no leaf
    line is printed at a cutoff, the state is the one of budget [-1], and
    the identities inserted are exactly those that can be reached from the
    root. *)
Theorem tree_negative_depth_visits_all_reachable
  (w : World) (U : gset string) (root indent : string) (depth : Z) (fuel : nat) :
  closed_world w U -> root ∈ U ->
  depth < 0 -> Z.of_nat (size U) - depth < 2 ^ 63 ->
  (size U < fuel)%nat ->
  exists m',
    Tree.getModuleList w fuel Tree.fresh root indent depth = Some m' /\
    Tree.getModuleList w fuel Tree.fresh root indent (-1) = Some m' /\
    cutoffs (Tree.trace m') = [] /\
    forall q, q ∈ Tree.cache m' <-> reach w root q.
Proof.
  intros Hclosed Hroot Hd Hsmall Hfuel.
  destruct (tree_getModuleList_total w U Hclosed fuel Tree.fresh root indent depth)
    as (m' & E & _).
  { cbn. set_solver. }
  { exact Hroot. }
  { cbn. rewrite difference_empty_L. exact Hfuel. }
  exists m'. split; [exact E|].
  assert (Z.of_nat (size U) + - depth < 2 ^ 63) as Hk by lia.
  split.
  { rewrite <- E. symmetry.
    apply (tree_getModuleList_negative_same w U (- depth) Hclosed Hk); cbn;
      rewrite ?size_empty; try lia; [set_solver | exact Hroot]. }
  apply tree_getModuleList_sound in E.
  now apply tree_negative_walk with U indent depth.
Qed.

Lemma tree_negative_depth_visits_all_reachable_witness :
  exists m',
    Tree.getModuleList cycle_world 5 Tree.fresh idA EmptyString (-7) = Some m' /\
    Tree.getModuleList cycle_world 5 Tree.fresh idA EmptyString (-1) = Some m' /\
    cutoffs (Tree.trace m') = [] /\
    forall q, q ∈ Tree.cache m' <-> reach cycle_world idA q.
Proof.
  apply (tree_negative_depth_visits_all_reachable cycle_world (list_to_set (table_lines cycle_table))).
  - apply table_world_closed.
  - apply in_by_compute. vm_compute. reflexivity.
  - reflexivity.
  - vm_compute. reflexivity.
  - vm_compute. lia.
Defined.

(** ** The two buffers of the tree variant *)

Lemma lines_app (a b : list string) : lines (a ++ b) = lines a +:+ lines b.
Proof.
  induction a as [|x a IH]; [reflexivity|].
  cbn [app lines]. now rewrite IH, !string_app_assoc.
Qed.

Lemma printed_app w (a b : list event) : printed w (a ++ b) = printed w a ++ printed w b.
Proof. apply omap_app. Qed.

Lemma unknowns_app (a b : list event) : unknowns (a ++ b) = unknowns a ++ unknowns b.
Proof. apply omap_app. Qed.

Lemma lines_snoc (l : list string) (x : string) :
  lines (l ++ [x]) = lines l +:+ x +:+ newline.
Proof. rewrite lines_app. cbn [lines]. now rewrite string_app_nil_r. Qed.

Lemma tree_buffers_cutoff w i p m :
  tree_buffers w m -> tree_buffers w (Tree.cutoff i p m).
Proof.
  intros (Hw & Hu & Hf). unfold tree_buffers.
  cbn [Tree.cutoff Tree.writeLine Tree.writer Tree.unknown Tree.trace].
  rewrite printed_app, unknowns_app, visits_app, fmap_app. cbn.
  rewrite !app_nil_r, lines_snoc, <- Hw. now repeat split.
Qed.

Lemma tree_buffers_unknown w p m :
  resolve w p = NotLocated ->
  tree_buffers w m -> tree_buffers w (Tree.writeUnknownLine p (Tree.visit p m)).
Proof.
  intros R (Hw & Hu & Hf). unfold tree_buffers.
  cbn [Tree.writeUnknownLine Tree.visit Tree.writer Tree.unknown Tree.trace].
  rewrite !printed_app, !unknowns_app, !visits_app. cbn.
  unfold unlocated at 1. rewrite R. cbn. rewrite !app_nil_r, fmap_app. cbn.
  rewrite lines_snoc, <- Hu. split; [exact Hw|]. split; [reflexivity|].
  rewrite filter_app, <- Hf. rewrite filter_cons. unfold unlocated. now rewrite R.
Qed.

Lemma tree_buffers_line w i p m :
  resolve w p <> NotLocated ->
  tree_buffers w m -> tree_buffers w (Tree.writeLine i p (Tree.visit p m)).
Proof.
  intros R (Hw & Hu & Hf). unfold tree_buffers.
  cbn [Tree.writeLine Tree.visit Tree.writer Tree.unknown Tree.trace].
  rewrite !printed_app, !unknowns_app, !visits_app. cbn.
  assert (unlocated w p = false) as E
    by (unfold unlocated; destruct (resolve w p); [congruence | reflexivity | reflexivity]).
  rewrite E. cbn. rewrite !app_nil_r, fmap_app. cbn.
  rewrite lines_snoc, <- Hw. split; [reflexivity|]. split; [exact Hu|].
  rewrite filter_app, <- Hf. rewrite filter_cons, E. cbn. now rewrite ?filter_nil, ?app_nil_r.
Qed.

Lemma tree_walk_buffers w :
  (forall m p i d m',
     Tree.walk w m p i d m' -> tree_buffers w m -> tree_buffers w m') /\
  (forall i d reqs m m',
     Tree.walk_requires w i d reqs m m' -> tree_buffers w m -> tree_buffers w m').
Proof.
  apply Tree.walk_mutind.
  - intros m p i d _. apply tree_buffers_cutoff.
  - auto.
  - intros m p i d _ _ R. now apply tree_buffers_unknown.
  - intros m p i d _ _ R. apply tree_buffers_line. congruence.
  - intros m p i d reqs m' _ _ R _ IH H. apply IH, tree_buffers_line; [congruence | exact H].
  - auto.
  - auto.
Qed.

(** X15. The two buffers of the tree variant after a run: the first holds
    one line for each identity that was inserted and located and one for
    each call that ended in the cutoff, in the order of the walk; the second
    holds, once each and in the order of their insertion, the inserted
    identities for which no cache path is a hit.  Every line is the identity
    up to its first [ //]. *)
Theorem tree_buffers_of_a_run
  (w : World) (fuel : nat) (root indent : string) (depth : Z) (m' : Tree.module) :
  Tree.getModuleList w fuel Tree.fresh root indent depth = Some m' ->
  Tree.writer m' = lines (Tree.stripComment <$> printed w (Tree.trace m')) /\
  Tree.unknown m' = lines (Tree.stripComment <$> unknowns (Tree.trace m')) /\
  unknowns (Tree.trace m') = filter (fun q => unlocated w q) (visits (Tree.trace m')) /\
  NoDup (unknowns (Tree.trace m')) /\
  forall q, q ∈ unknowns (Tree.trace m') <->
            q ∈ Tree.cache m' /\ resolve w q = NotLocated.
Proof.
  intros H. apply tree_getModuleList_sound in H.
  destruct (proj1 (tree_walk_buffers w) _ _ _ _ _ H) as (Hw & Hu & Hf).
  { repeat split. }
  destruct (tree_visited_once_walk _ _ _ _ _ _ H visited_once_nil) as [Hnd Hmem].
  split; [exact Hw|]. split; [exact Hu|]. split; [exact Hf|]. split.
  - rewrite Hf. now apply NoDup_filter.
  - intros q. rewrite Hf, list_elem_of_filter, Hmem. unfold unlocated.
    destruct (resolve w q); cbn; split; intros [? ?]; split; try assumption;
      try reflexivity; try contradiction; try discriminate.
Qed.

Lemma tree_buffers_of_a_run_witness :
  exists m',
    Tree.getModuleList app_world 10 Tree.fresh "example.com/app" EmptyString (-1) = Some m' /\
    Tree.writer m' = lines (Tree.stripComment <$> printed app_world (Tree.trace m')) /\
    Tree.unknown m' = lines (Tree.stripComment <$> unknowns (Tree.trace m')).
Proof.
  assert (returned (Tree.getModuleList app_world 10 Tree.fresh "example.com/app" EmptyString (-1)) = true) as Hsome by (vm_compute; reflexivity).
  destruct (Tree.getModuleList app_world 10 Tree.fresh "example.com/app" EmptyString (-1)) as [m'|] eqn:E; [|discriminate Hsome].
  exists m'. split; [reflexivity|].
  destruct (tree_buffers_of_a_run app_world 10 "example.com/app" EmptyString (-1) m' E)
    as (Hw & Hu & _).
  now split.
Defined.

(** ** Indentation *)

(** X16. The [indent] argument of [getModuleList] has no effect in either
    variant: it is handed down and grown by two blanks at each level, and
    [writeLine] does not print it, so the lines of the tree carry no
    indentation. *)
Theorem indent_is_never_printed
  (w : World) (fuel : nat) (modPath indent indent' : string) (depth : Z) :
  (forall m, Tree.getModuleList w fuel m modPath indent depth =
             Tree.getModuleList w fuel m modPath indent' depth) /\
  (forall m, Graph.getModuleList w fuel m modPath indent depth =
             Graph.getModuleList w fuel m modPath indent' depth).
Proof.
  split.
  - revert modPath indent indent' depth.
    induction fuel as [|fuel IH]; intros p i i' d m; [reflexivity|].
    rewrite !tree_getModuleList_unfold.
    destruct (d =? 0); [reflexivity|].
    destruct (decide (p ∈ Tree.cache m)); [reflexivity|].
    destruct (resolve w p) as [| |reqs]; [reflexivity | reflexivity |].
    change (Tree.writeLine i' p (Tree.visit p m)) with (Tree.writeLine i p (Tree.visit p m)).
    generalize (Tree.writeLine i p (Tree.visit p m)) as m1.
    induction reqs as [|r reqs IHr]; intros m1; cbn [Tree.rangeRequires]; [reflexivity|].
    rewrite (IH (requireLine r) (i +:+ "  ") (i' +:+ "  ")).
    destruct (Tree.getModuleList w fuel _ _ _ _); [apply IHr | reflexivity].
  - revert modPath indent indent' depth.
    induction fuel as [|fuel IH]; intros p i i' d m; [reflexivity|].
    rewrite !getModuleList_unfold.
    destruct (decide (p ∈ Graph.cache m)); [reflexivity|].
    destruct (d =? 0); [reflexivity|].
    destruct (resolve w p) as [| |reqs]; [reflexivity | reflexivity |].
    generalize (Graph.visit p m) as m1.
    induction reqs as [|r reqs IHr]; intros m1; cbn [Graph.rangeRequires]; [reflexivity|].
    rewrite (IH (requireLine r) (i +:+ "  ") (i' +:+ "  ")).
    destruct (Graph.getModuleList w fuel _ _ _ _); [apply IHr | reflexivity].
Qed.

(** X17. The unknown set of a run holds exactly the identities that were
    inserted with budget left and for which none of the three cache paths
    is a hit; such an identity is never a key of packages. *)
Theorem graph_unknown_exact
  (w : World) (fuel : nat) (root indent : string) (depth : Z)
  (m' : Graph.module) (q : string) :
  Graph.getModuleList w fuel Graph.fresh root indent depth = Some m' ->
  (q ∈ Graph.unknown m' <->
   q ∈ Graph.cache m' /\ (q ∉ cutoffs (Graph.trace m')) /\ resolve w q = NotLocated) /\
  (q ∈ Graph.unknown m' -> Graph.packages m' !! q = None).
Proof.
  intros H. split; [exact (graph_unknown_iff _ _ _ _ _ _ q H)|].
  intros Hq. apply (graph_unknown_iff _ _ _ _ _ _ q H) in Hq as (_ & _ & R).
  destruct (Graph.packages m' !! q) as [s|] eqn:Hs; [|reflexivity].
  destruct (graph_requirer_of_entry _ _ _ _ _ _ q H) as (_ & _ & reqs & R' & _);
    [now exists s|].
  congruence.
Qed.

Lemma graph_unknown_exact_witness :
  exists m',
    Graph.getModuleList app_world 10 Graph.fresh "example.com/app" EmptyString (-1) = Some m' /\
    ("example.com/gone v0.1.0" ∈ Graph.unknown m' <->
     "example.com/gone v0.1.0" ∈ Graph.cache m' /\
     ("example.com/gone v0.1.0" ∉ cutoffs (Graph.trace m')) /\
     resolve app_world "example.com/gone v0.1.0" = NotLocated).
Proof.
  assert (returned (Graph.getModuleList app_world 10 Graph.fresh "example.com/app" EmptyString (-1)) = true) as Hsome by (vm_compute; reflexivity).
  destruct (Graph.getModuleList app_world 10 Graph.fresh "example.com/app" EmptyString (-1)) as [m'|] eqn:E; [|discriminate Hsome].
  exists m'. split; [reflexivity|].
  exact (proj1 (graph_unknown_exact app_world 10 "example.com/app" EmptyString (-1) m'
                  "example.com/gone v0.1.0" E)).
Defined.

(** X18. With a negative budget the two variants insert the same
    identities, and the unknown array of the graph document is a permutation
    of the lines of the second buffer of the tree variant. *)
Theorem variants_agree_without_cutoff
  (w : World) (U : gset string) (root indent : string) (depth : Z) (fuel : nat) :
  closed_world w U -> root ∈ U ->
  depth < 0 -> Z.of_nat (size U) - depth < 2 ^ 63 ->
  (size U < fuel)%nat ->
  exists g t,
    Graph.getModuleList w fuel Graph.fresh root indent depth = Some g /\
    Tree.getModuleList w fuel Tree.fresh root indent depth = Some t /\
    Graph.cache g = Tree.cache t /\
    elements (Graph.unknown g) ≡ₚ unknowns (Tree.trace t) /\
    Tree.unknown t = lines (Tree.stripComment <$> unknowns (Tree.trace t)).
Proof.
  intros Hclosed Hroot Hd Hsmall Hfuel.
  destruct (getModuleList_total w U Hclosed fuel Graph.fresh root indent depth)
    as (g & Eg & _); [cbn; set_solver | exact Hroot
                      | cbn; rewrite difference_empty_L; exact Hfuel |].
  destruct (tree_getModuleList_total w U Hclosed fuel Tree.fresh root indent depth)
    as (t & Et & _); [cbn; set_solver | exact Hroot
                      | cbn; rewrite difference_empty_L; exact Hfuel |].
  exists g, t. split; [exact Eg|]. split; [exact Et|].
  pose proof (getModuleList_sound _ _ _ _ _ _ _ Eg) as Wg.
  pose proof (tree_getModuleList_sound _ _ _ _ _ _ _ Et) as Wt.
  destruct (graph_negative_walk _ _ _ _ _ _ Hclosed Hroot Hd Hsmall Wg) as [Cg Rg].
  destruct (tree_negative_walk _ _ _ _ _ _ Hclosed Hroot Hd Hsmall Wt) as [Ct Rt].
  assert (Graph.cache g = Tree.cache t) as Hcache.
  { apply set_eq. intros q. now rewrite Rg, Rt. }
  destruct (proj1 (tree_walk_buffers w) _ _ _ _ _ Wt) as (_ & Hu & Hf);
    [repeat split|].
  destruct (tree_visited_once_walk _ _ _ _ _ _ Wt visited_once_nil) as [Hnd Hmem].
  split; [exact Hcache|]. split; [|exact Hu].
  apply NoDup_Permutation.
  - apply NoDup_elements.
  - rewrite Hf. now apply NoDup_filter.
  - intros q. rewrite elem_of_elements, (graph_unknown_iff _ _ _ _ _ _ q Eg).
    rewrite Cg, Hf, list_elem_of_filter, <- Hmem, Hcache. unfold unlocated. split.
    + intros (Hq & _ & R). rewrite R. now split.
    + intros [Hloc Hq]. split; [exact Hq|]. split; [apply not_elem_of_nil|].
      destruct (resolve w q); cbn in Hloc; [reflexivity | contradiction | contradiction].
Qed.

Lemma variants_agree_without_cutoff_witness :
  exists g t,
    Graph.getModuleList cycle_world 5 Graph.fresh idA EmptyString (-1) = Some g /\
    Tree.getModuleList cycle_world 5 Tree.fresh idA EmptyString (-1) = Some t /\
    Graph.cache g = Tree.cache t /\
    elements (Graph.unknown g) ≡ₚ unknowns (Tree.trace t) /\
    Tree.unknown t = lines (Tree.stripComment <$> unknowns (Tree.trace t)).
Proof.
  apply (variants_agree_without_cutoff cycle_world (list_to_set (table_lines cycle_table))).
  - apply table_world_closed.
  - apply in_by_compute. vm_compute. reflexivity.
  - reflexivity.
  - vm_compute. reflexivity.
  - vm_compute. lia.
Defined.

(** ** The depth budget of the tree variant *)

Lemma tree_event_within_shift w n p reqs r e :
  resolve w p = Manifest reqs -> r ∈ reqs ->
  tree_event_within w n (requireLine r) e -> tree_event_within w (S n) p e.
Proof.
  intros R Hr. destruct e as [q|q|a b|q]; cbn [tree_event_within].
  - intros [Hn H]. split; [lia|].
    replace (S n - 1)%nat with (S (n - 1)) by lia. now apply within_shift with reqs r.
  - now apply within_shift with reqs.
  - auto.
  - intros [Hn H]. split; [lia|].
    replace (S n - 1)%nat with (S (n - 1)) by lia. now apply within_shift with reqs r.
Qed.

Lemma tree_walk_bounded w :
  (forall m p i d m',
     Tree.walk w m p i d m' ->
     forall n, d = Z.of_nat n -> d < 2 ^ 63 ->
     exists tr, Tree.trace m' = Tree.trace m ++ tr /\
                Forall (tree_event_within w n p) tr) /\
  (forall i d reqs m m',
     Tree.walk_requires w i d reqs m m' ->
     forall n p reqs0,
       d = Z.of_nat (S n) -> d < 2 ^ 63 ->
       resolve w p = Manifest reqs0 -> (forall r, r ∈ reqs -> r ∈ reqs0) ->
       exists tr, Tree.trace m' = Tree.trace m ++ tr /\
                  Forall (tree_event_within w (S n) p) tr).
Proof.
  apply Tree.walk_mutind.
  - intros m p i d Hd n Hn _. exists [EvCutoff p]. split; [reflexivity|].
    repeat constructor.
  - intros m p i d _ _ n _ _. exists []. now rewrite app_nil_r.
  - intros m p i d Hd _ _ n Hn _. exists [EvVisit p; EvUnknown p].
    split; [cbn; now rewrite <- app_assoc|].
    repeat constructor; lia.
  - intros m p i d Hd _ _ n Hn _. exists [EvVisit p]. split; [reflexivity|].
    repeat constructor; lia.
  - intros m p i d reqs m' Hd _ R _ IH n Hn Hsmall.
    destruct n as [|n]; [lia|].
    destruct (IH n p reqs Hn Hsmall R (fun r H => H)) as (tr & Htr & Hall).
    exists (EvVisit p :: tr). split; [rewrite Htr; cbn; now rewrite <- app_assoc|].
    constructor; [|exact Hall]. split; [lia | constructor].
  - intros i d m n p reqs0 _ _ _ _. exists []. now rewrite app_nil_r.
  - intros i d r rest m m1 m2 _ IH1 _ IH2 n p reqs0 Hn Hsmall R Hsub.
    assert (int_pred d = Z.of_nat n) as Hpred by (rewrite int_pred_exact; lia).
    destruct (IH1 n Hpred ltac:(lia)) as (tr1 & Htr1 & Hall1).
    destruct (IH2 n p reqs0 Hn Hsmall R) as (tr2 & Htr2 & Hall2).
    { intros r' Hr'. apply Hsub. now constructor. }
    exists (tr1 ++ tr2). split; [rewrite Htr2, Htr1; now rewrite app_assoc|].
    apply Forall_app. split; [|exact Hall2].
    eapply Forall_impl; [exact Hall1|].
    intros e He. eapply tree_event_within_shift; eauto. apply Hsub. constructor.
Qed.

(** X19. The depth budget of the tree variant: with a budget of [n] the
    identities inserted into the visited set (and so those listed as
    transient) are at most [n - 1] requirement edges away from the root,
    and every line of the first buffer belongs to an identity at most [n]
    edges away; with [n = 0] nothing is inserted. *)
Theorem tree_depth_budget
  (w : World) (root indent : string) (n fuel : nat) (m' : Tree.module) :
  Tree.getModuleList w fuel Tree.fresh root indent (Z.of_nat n) = Some m' ->
  Z.of_nat n < 2 ^ 63 ->
  (forall q, q ∈ Tree.cache m' -> (1 <= n)%nat /\ within w (n - 1) root q) /\
  (forall q, q ∈ unknowns (Tree.trace m') -> (1 <= n)%nat /\ within w (n - 1) root q) /\
  (forall q, q ∈ printed w (Tree.trace m') -> within w n root q).
Proof.
  intros H Hsmall. apply tree_getModuleList_sound in H.
  destruct (proj1 (tree_walk_bounded w) _ _ _ _ _ H n eq_refl Hsmall) as (tr & Htr & Hall).
  cbn in Htr. subst tr.
  destruct (tree_visited_once_walk _ _ _ _ _ _ H visited_once_nil) as [_ Hmem].
  rewrite Forall_forall in Hall. split; [|split].
  - intros q Hq. apply Hmem, visits_elem in Hq. exact (Hall _ Hq).
  - intros q Hq. apply unknowns_elem in Hq. exact (Hall _ Hq).
  - intros q Hq. unfold printed in Hq. apply list_elem_of_omap in Hq as (e & He & Hq).
    specialize (Hall _ He). destruct e as [x|x|a b|x]; try discriminate.
    + destruct (unlocated w x); [discriminate|]. injection Hq as ->.
      destruct Hall as [Hn Hw]. eapply within_mono; [|exact Hw]. lia.
    + injection Hq as ->. exact Hall.
Qed.

Lemma tree_depth_budget_witness :
  exists m',
    Tree.getModuleList chain3_world 10 Tree.fresh idA EmptyString (Z.of_nat 2) = Some m' /\
    (forall q, q ∈ Tree.cache m' -> (1 <= 2)%nat /\ within chain3_world (2 - 1) idA q).
Proof.
  assert (returned (Tree.getModuleList chain3_world 10 Tree.fresh idA EmptyString (Z.of_nat 2)) = true) as Hsome by (vm_compute; reflexivity).
  destruct (Tree.getModuleList chain3_world 10 Tree.fresh idA EmptyString (Z.of_nat 2)) as [m'|] eqn:E; [|discriminate Hsome].
  exists m'. split; [reflexivity|].
  exact (proj1 (tree_depth_budget chain3_world idA EmptyString 2 10 m' E eq_refl)).
Defined.

(** ** The entry points *)

Lemma named_world_resolve (w : World) (names : list (string * string)) (q : string) :
  resolve (named_world w names) q = resolve w q.
Proof.
  unfold resolve, constructFilePath, stat_hit. cbn [named_world gopath os_Stat os_ReadFile
                                                     modfile_Parse].
  destruct (getNameAndVersion _) as [name version].
  repeat (destruct (match os_Stat w _ with Some _ => _ | None => _ end));
    try reflexivity;
    (destruct (os_ReadFile w _); [|reflexivity]);
    (destruct (modfile_Parse w _ _); reflexivity).
Qed.

Lemma named_world_closed (w : World) (names : list (string * string)) (U : gset string) :
  closed_world w U -> closed_world (named_world w names) U.
Proof. intros H q reqs r R. rewrite named_world_resolve in R. eapply H, R. Qed.

Lemma closed_world_add (w : World) (U : gset string) (p : string) :
  closed_world w U -> closed_world w ({[p]} ∪ U).
Proof. intros H q reqs r R Hr. apply elem_of_union_r. eapply H; eauto. Qed.

(** X20. When go.mod is there and its module directive can be read,
    [main] of the graph variant ends with status 0 after [Flush] has written
    the document of the walk from the declared module path, for every value
    of [-max-depth], the invalid ones included: on a finite requirement
    graph the walk returns, and [Flush] does not index out of range. *)
Theorem graph_main_flushes
  (w : World) (e : Env) (U : gset string) (cwd modName : string) (fuel : nat) :
  versionFlag e = false ->
  main_cwd e = Some cwd ->
  stat_missing w (filepath_Join [cwd; "go.mod"]) = false ->
  Graph.getModuleName w cwd = Ret modName ->
  closed_world w U ->
  (size U + 1 < fuel)%nat ->
  exists m' doc,
    Graph.getModuleList w fuel Graph.fresh modName EmptyString (maxDepth e) = Some m' /\
    Graph.Flush m' = Some doc /\
    Graph.main w e fuel = Exited 0 (Some doc).
Proof.
  intros Hv Hcwd Hstat Hname Hclosed Hfuel.
  destruct (getModuleList_total w ({[modName]} ∪ U) (closed_world_add _ _ _ Hclosed)
              fuel Graph.fresh modName EmptyString (maxDepth e)) as (m' & E & _).
  { cbn. set_solver. }
  { set_solver. }
  { cbn. rewrite difference_empty_L.
    pose proof (size_union_alt {[modName]} U) as Hs.
    rewrite size_singleton in Hs.
    pose proof (subseteq_size (U ∖ {[modName]}) U ltac:(set_solver)). lia. }
  destruct (graph_run_invariant _ _ _ _ _ _ E) as (_ & Hidx & Hedge).
  pose proof (Flush_spec m' Hidx Hedge) as Hdoc.
  eexists m', _. split; [exact E|]. split; [exact Hdoc|].
  unfold Graph.main, Graph.List. now rewrite Hv, Hcwd, Hstat, Hname, E, Hdoc.
Qed.

Lemma graph_main_flushes_witness :
  exists m' doc,
    Graph.getModuleList app_world 10 Graph.fresh "example.com/app" EmptyString (-1)
    = Some m' /\
    Graph.Flush m' = Some doc /\
    Graph.main app_world (run_in "/go/src/example.com/app" (-1)) 10
    = Exited 0 (Some doc).
Proof.
  apply (graph_main_flushes app_world (run_in "/go/src/example.com/app" (-1))
           (list_to_set (table_lines app_table)) "/go/src/example.com/app").
  - reflexivity.
  - reflexivity.
  - reflexivity.
  - reflexivity.
  - apply named_world_closed, table_world_closed.
  - vm_compute. lia.
Defined.

(** X21. Without a module name the graph variant does not walk: when
    go.mod is reported missing, cannot be read or cannot be parsed, [main]
    ends with status 1 and [Flush] is not reached; when go.mod parses but
    has no module directive, the dereference [f.Module.Mod.Path] panics. *)
Theorem graph_main_without_module_name
  (w : World) (e : Env) (cwd : string) (fuel : nat) :
  versionFlag e = false ->
  main_cwd e = Some cwd ->
  (stat_missing w (filepath_Join [cwd; "go.mod"]) = true \/
   os_ReadFile w (filepath_Join [cwd; "go.mod"]) = None \/
   (exists fileBytes,
      os_ReadFile w (filepath_Join [cwd; "go.mod"]) = Some fileBytes /\
      modfile_Parse w (filepath_Join [cwd; "go.mod"]) fileBytes = None) ->
   Graph.main w e fuel = Exited 1 None) /\
  (forall fileBytes f,
     stat_missing w (filepath_Join [cwd; "go.mod"]) = false ->
     os_ReadFile w (filepath_Join [cwd; "go.mod"]) = Some fileBytes ->
     modfile_Parse w (filepath_Join [cwd; "go.mod"]) fileBytes = Some f ->
     Module_Path f = None ->
     Graph.main w e fuel = Panicked).
Proof.
  intros Hv Hcwd. unfold Graph.main, Graph.List, Graph.getModuleName.
  rewrite Hv, Hcwd. split.
  - intros [H|[H|(fileBytes & H1 & H2)]].
    + now rewrite H.
    + rewrite H. now destruct (stat_missing w _).
    + rewrite H1, H2. now destruct (stat_missing w _).
  - intros fileBytes f H0 H1 H2 H3. now rewrite H0, H1, H2, H3.
Qed.

Lemma graph_main_without_module_name_witness :
  Graph.main norequire_world (run_in "/go/src/example.com/app" (-1)) 5 = Panicked.
Proof.
  apply (proj2 (graph_main_without_module_name
                  norequire_world (run_in "/go/src/example.com/app" (-1))
                  "/go/src/example.com/app" 5 eq_refl eq_refl)
               "/go/src/example.com/app/go.mod"
               {| Module_Path := None; Requires := [] |});
    reflexivity.
Defined.

(** X22. A [-max-depth] of 0 is reported as invalid but not rejected:
    the run goes on and ends with status 0.  The graph variant inserts the
    root, cuts it off and flushes a document without packages, indexes and
    unknown identities; the tree variant flushes the line of the root as the
    only direct dependency. *)
Theorem max_depth_zero_is_not_rejected
  (w : World) (e : Env) (cwd modName : string) (fuel : nat) :
  versionFlag e = false ->
  maxDepth e = 0 ->
  main_cwd e = Some cwd ->
  stat_missing w (filepath_Join [cwd; "go.mod"]) = false ->
  (1 <= fuel)%nat ->
  (Graph.getModuleName w cwd = Ret modName ->
   Graph.main w e fuel = Exited 0 (Some (bare_document []))) /\
  (Tree.getModuleName w cwd = Ret modName ->
   Tree.main w e fuel =
   Exited 0 (Some (Tree.Flush (Tree.writeLine EmptyString modName Tree.fresh)))).
Proof.
  intros Hv Hd Hcwd Hstat Hfuel. destruct fuel as [|fuel]; [lia|]. split; intros Hname.
  - unfold Graph.main, Graph.List. rewrite Hv, Hcwd, Hstat, Hname, Hd.
    rewrite getModuleList_unfold.
    destruct (decide (modName ∈ Graph.cache Graph.fresh)) as [Hin|_];
      [cbn in Hin; set_solver|].
    reflexivity.
  - unfold Tree.main, Tree.List. rewrite Hv, Hcwd, Hstat, Hname, Hd.
    rewrite tree_getModuleList_unfold. reflexivity.
Qed.

Lemma max_depth_zero_is_not_rejected_witness :
  Graph.main app_world (run_in "/go/src/example.com/app" 0) 1
  = Exited 0 (Some (bare_document [])).
Proof.
  apply (proj1 (max_depth_zero_is_not_rejected
                  app_world (run_in "/go/src/example.com/app" 0)
                  "/go/src/example.com/app" "example.com/app" 1
                  eq_refl eq_refl eq_refl eq_refl (le_n 1))).
  reflexivity.
Defined.

(** X23. The walkers look the root up in the cache like any dependency:
    when none of the three cache paths of the declared module path is a
    hit, which is the case for a project checked out outside the cache root,
    the run ends with status 0 and reports the root as its only unknown
    identity, without reading the requirements of the go.mod it took the
    name from. *)
Theorem project_outside_the_cache_is_unknown
  (w : World) (e : Env) (cwd modName : string) (fuel : nat) :
  versionFlag e = false ->
  maxDepth e <> 0 ->
  main_cwd e = Some cwd ->
  stat_missing w (filepath_Join [cwd; "go.mod"]) = false ->
  resolve w modName = NotLocated ->
  (1 <= fuel)%nat ->
  (Graph.getModuleName w cwd = Ret modName ->
   Graph.main w e fuel = Exited 0 (Some (bare_document [modName]))) /\
  (Tree.getModuleName w cwd = Ret modName ->
   Tree.main w e fuel =
   Exited 0 (Some (Tree.Flush (Tree.writeUnknownLine modName Tree.fresh)))).
Proof.
  intros Hv Hd Hcwd Hstat R Hfuel. destruct fuel as [|fuel]; [lia|].
  apply Z.eqb_neq in Hd. split; intros Hname.
  - unfold Graph.main, Graph.List. rewrite Hv, Hcwd, Hstat, Hname.
    rewrite getModuleList_unfold, Hd, R.
    destruct (decide (modName ∈ Graph.cache Graph.fresh)) as [Hin|_];
      [cbn in Hin; set_solver|].
    unfold Graph.Flush. cbn [Graph.packages Graph.indexes Graph.unknown
                               Graph.markUnknown Graph.visit Graph.fresh].
    rewrite map_to_list_empty. cbn.
    rewrite map_to_list_empty, map_size_empty. cbn.
    now rewrite union_empty_r_L, elements_singleton.
  - unfold Tree.main, Tree.List. rewrite Hv, Hcwd, Hstat, Hname.
    rewrite tree_getModuleList_unfold, Hd, R.
    destruct (decide (modName ∈ Tree.cache Tree.fresh)) as [Hin|_];
      [cbn in Hin; set_solver|].
    reflexivity.
Qed.

Lemma project_outside_the_cache_is_unknown_witness :
  Graph.main stray_world (run_in "/home/user/proj" (-1)) 1
  = Exited 0 (Some (bare_document ["example.com/app"])).
Proof.
  apply (proj1 (project_outside_the_cache_is_unknown
                  stray_world (run_in "/home/user/proj" (-1))
                  "/home/user/proj" "example.com/app" 1
                  eq_refl ltac:(discriminate) eq_refl eq_refl eq_refl (le_n 1))).
  reflexivity.
Defined.

(** X24. When [getModuleName] returns a name, [main] of the tree variant
    ends with status 0 after [Flush] has written its banners around the two
    buffers, whose text is that of the walk from the name: on a finite
    requirement graph the walk returns for every value of [-max-depth]. *)
Theorem tree_main_flushes
  (w : World) (e : Env) (U : gset string) (cwd modName : string) (fuel : nat) :
  versionFlag e = false ->
  main_cwd e = Some cwd ->
  stat_missing w (filepath_Join [cwd; "go.mod"]) = false ->
  Tree.getModuleName w cwd = Ret modName ->
  closed_world w U ->
  (size U + 1 < fuel)%nat ->
  exists m',
    Tree.getModuleList w fuel Tree.fresh modName EmptyString (maxDepth e) = Some m' /\
    Tree.main w e fuel = Exited 0 (Some (Tree.Flush m')) /\
    Tree.writer m' = lines (Tree.stripComment <$> printed w (Tree.trace m')) /\
    Tree.unknown m' = lines (Tree.stripComment <$> unknowns (Tree.trace m')).
Proof.
  intros Hv Hcwd Hstat Hname Hclosed Hfuel.
  destruct (tree_getModuleList_total w ({[modName]} ∪ U) (closed_world_add _ _ _ Hclosed)
              fuel Tree.fresh modName EmptyString (maxDepth e)) as (m' & E & _).
  { cbn. set_solver. }
  { set_solver. }
  { cbn. rewrite difference_empty_L.
    pose proof (size_union_alt {[modName]} U) as Hs.
    rewrite size_singleton in Hs.
    pose proof (subseteq_size (U ∖ {[modName]}) U ltac:(set_solver)). lia. }
  exists m'. split; [exact E|]. split.
  - unfold Tree.main, Tree.List. now rewrite Hv, Hcwd, Hstat, Hname, E.
  - apply tree_getModuleList_sound in E.
    destruct (proj1 (tree_walk_buffers w) _ _ _ _ _ E) as (Hw & Hu & _);
      [repeat split | now split].
Qed.

Lemma layout_world_closed : closed_world layout_world ∅.
Proof.
  intros q reqs r R. unfold resolve in R.
  destruct (constructFilePath layout_world _) as [rawPath []]; [|discriminate R].
  destruct (os_ReadFile layout_world _); discriminate R.
Qed.

Lemma tree_main_flushes_witness :
  exists m',
    Tree.getModuleList layout_world 2 Tree.fresh "github.com/foo/bar" EmptyString (-1)
    = Some m' /\
    Tree.main layout_world (run_in "/go/src/github.com/foo/bar" (-1)) 2
    = Exited 0 (Some (Tree.Flush m')) /\
    Tree.writer m' = lines (Tree.stripComment <$> printed layout_world (Tree.trace m')) /\
    Tree.unknown m' = lines (Tree.stripComment <$> unknowns (Tree.trace m')).
Proof.
  apply (tree_main_flushes layout_world (run_in "/go/src/github.com/foo/bar" (-1)) ∅
           "/go/src/github.com/foo/bar").
  - reflexivity.
  - reflexivity.
  - reflexivity.
  - reflexivity.
  - exact layout_world_closed.
  - vm_compute. lia.
Defined.

(** ** The directory [main] works in *)




(** ** C1: termination, single insertion and full expansion *)

(** After a call of the tree variant the identity is in the visited set or
    was printed at the cutoff, and so is every requirement of every identity
    the call inserted. *)
Lemma tree_walk_expands w :
  (forall m p i d m',
     Tree.walk w m p i d m' ->
     exists tr, Tree.trace m' = Tree.trace m ++ tr /\
       (p ∈ Tree.cache m' \/ p ∈ cutoffs tr) /\
       forall q reqs r,
         q ∈ Tree.cache m' -> q ∉ Tree.cache m ->
         resolve w q = Manifest reqs -> r ∈ reqs ->
         requireLine r ∈ Tree.cache m' \/ requireLine r ∈ cutoffs tr) /\
  (forall i d reqs m m',
     Tree.walk_requires w i d reqs m m' ->
     exists tr, Tree.trace m' = Tree.trace m ++ tr /\
       (forall r, r ∈ reqs ->
                  requireLine r ∈ Tree.cache m' \/ requireLine r ∈ cutoffs tr) /\
       forall q reqs' r,
         q ∈ Tree.cache m' -> q ∉ Tree.cache m ->
         resolve w q = Manifest reqs' -> r ∈ reqs' ->
         requireLine r ∈ Tree.cache m' \/ requireLine r ∈ cutoffs tr).
Proof.
  apply Tree.walk_mutind.
  - intros m p i d _. exists [EvCutoff p]. split; [reflexivity|].
    split; [right; cbn; set_solver|]. intros q reqs r Hq Hq'. contradiction.
  - intros m p i d _ Hin. exists []. rewrite app_nil_r. split; [reflexivity|].
    split; [now left|]. intros q reqs r Hq Hq'. contradiction.
  - intros m p i d _ Hin R. exists [EvVisit p; EvUnknown p].
    split; [cbn; now rewrite <- app_assoc|].
    split; [left; cbn; set_solver|]. cbn. intros q reqs r Hq Hq' R'.
    assert (q = p) as -> by set_solver. congruence.
  - intros m p i d _ Hin R. exists [EvVisit p]. split; [reflexivity|].
    split; [left; cbn; set_solver|]. cbn. intros q reqs r Hq Hq' R'.
    assert (q = p) as -> by set_solver. congruence.
  - intros m p i d reqs m' _ Hin R Hw (tr & Htr & Hreqs & Hnew).
    exists (EvVisit p :: tr). split; [rewrite Htr; cbn; now rewrite <- app_assoc|].
    split.
    + left. apply tree_walk_requires_cache_mono in Hw. cbn in Hw. set_solver.
    + intros q reqs' r Hq Hq' R' Hr.
      change (cutoffs (EvVisit p :: tr)) with (cutoffs tr).
      destruct (decide (q = p)) as [->|Hne].
      * rewrite R in R'. injection R' as <-. now apply Hreqs.
      * apply (Hnew q reqs' r); [exact Hq | cbn; set_solver | exact R' | exact Hr].
  - intros i d m. exists []. rewrite app_nil_r. split; [reflexivity|].
    split; [intros r H; inversion H | intros q reqs r Hq Hq'; contradiction].
  - intros i d r0 rest m m1 m2 Hw (tr1 & Htr1 & Hp1 & Hnew1) Hwr (tr2 & Htr2 & Hr2 & Hnew2).
    pose proof (tree_walk_requires_cache_mono _ _ _ _ _ _ Hwr) as Hmono.
    exists (tr1 ++ tr2). split; [rewrite Htr2, Htr1; now rewrite app_assoc|].
    rewrite cutoffs_app. split.
    + intros r Hr. rewrite elem_of_app.
      apply elem_of_cons in Hr as [->|Hr].
      * destruct Hp1 as [H|H]; [left; now apply Hmono | tauto].
      * destruct (Hr2 r Hr); tauto.
    + intros q reqs' r Hq Hq' R' Hr. rewrite elem_of_app.
      destruct (decide (q ∈ Tree.cache m1)) as [H1|H1].
      * destruct (Hnew1 q reqs' r H1 Hq' R' Hr) as [H|H]; [left; now apply Hmono | tauto].
      * destruct (Hnew2 q reqs' r Hq H1 R' Hr); tauto.
Qed.

(** C1. On a finite requirement graph ([U] holds every identity a
    manifest can require, and the root) the walk returns, in both variants
    and for every depth bound: [size U + 1] units of fuel are enough, and
    more fuel gives the same result.  Whatever it returns, no identity was
    inserted into the visited set twice and the set holds exactly the
    inserted identities.  In the graph variant the root is inserted, every
    edge is recorded after its requirer was inserted, and an identity that
    was inserted with budget left and has a parsed manifest has exactly one
    recorded edge for each requirement, in declaration order, each target
    being inserted in its turn.  In the tree variant the root is inserted
    unless the budget is 0, and every requirement of an inserted identity
    with a parsed manifest is itself inserted or printed at the cutoff.
    With a negative budget both variants insert exactly the identities that
    can be reached from the root and cut nothing off.  On the cycle
    A -> B -> A the graph variant inserts A and B once each under every
    bound, the tree variant whenever the bound leaves budget for B; with
    the bound 1 the tree variant inserts A only and prints B at the
    cutoff. *)
Theorem C1_walk_terminates_and_visits_once
  (w : World) (U : gset string) (root indent : string) (depth : Z) :
  closed_world w U -> root ∈ U ->
  (exists m', Graph.getModuleList w (S (size U)) Graph.fresh root indent depth = Some m') /\
  (exists m', Tree.getModuleList w (S (size U)) Tree.fresh root indent depth = Some m') /\
  (forall fuel fuel' m',
     (fuel <= fuel')%nat ->
     Graph.getModuleList w fuel Graph.fresh root indent depth = Some m' ->
     Graph.getModuleList w fuel' Graph.fresh root indent depth = Some m') /\
  (forall fuel fuel' m',
     (fuel <= fuel')%nat ->
     Tree.getModuleList w fuel Tree.fresh root indent depth = Some m' ->
     Tree.getModuleList w fuel' Tree.fresh root indent depth = Some m') /\
  (forall fuel m',
     Graph.getModuleList w fuel Graph.fresh root indent depth = Some m' ->
     visited_once (Graph.cache m') (Graph.trace m') /\
     edges_after_visit [] (Graph.trace m') /\
     root ∈ Graph.cache m' /\
     (forall q reqs,
        q ∈ Graph.cache m' -> q ∉ cutoffs (Graph.trace m') ->
        resolve w q = Manifest reqs ->
        about q (Graph.trace m')
        = EvVisit q :: map (fun r => EvEdge q (requireLine r)) reqs /\
        forall r, r ∈ reqs -> requireLine r ∈ Graph.cache m') /\
     (depth < 0 -> Z.of_nat (size U) - depth < 2 ^ 63 ->
      cutoffs (Graph.trace m') = [] /\
      forall q, q ∈ Graph.cache m' <-> reach w root q)) /\
  (forall fuel m',
     Tree.getModuleList w fuel Tree.fresh root indent depth = Some m' ->
     visited_once (Tree.cache m') (Tree.trace m') /\
     (depth <> 0 -> root ∈ Tree.cache m') /\
     (forall q reqs r,
        q ∈ Tree.cache m' -> resolve w q = Manifest reqs -> r ∈ reqs ->
        requireLine r ∈ Tree.cache m' \/ requireLine r ∈ cutoffs (Tree.trace m')) /\
     (depth < 0 -> Z.of_nat (size U) - depth < 2 ^ 63 ->
      cutoffs (Tree.trace m') = [] /\
      forall q, q ∈ Tree.cache m' <-> reach w root q)) /\
  (forall bound,
     bound <> 0 ->
     (visits ∘ Graph.trace)
       <$> Graph.getModuleList cycle_world 3 Graph.fresh idA EmptyString bound
     = Some [idA; idB]) /\
  (forall bound,
     bound <> 0 -> int_pred bound <> 0 ->
     (visits ∘ Tree.trace)
       <$> Tree.getModuleList cycle_world 3 Tree.fresh idA EmptyString bound
     = Some [idA; idB]) /\
  (fun m => (visits (Tree.trace m), cutoffs (Tree.trace m)))
    <$> Tree.getModuleList cycle_world 3 Tree.fresh idA EmptyString 1
  = Some ([idA], [idB]).
Proof.
  intros Hclosed Hroot.
  assert (size (U ∖ ∅) < S (size U))%nat as Hfuel.
  { assert (U ∖ ∅ ⊆ U) as Hsub by set_solver. apply subseteq_size in Hsub. lia. }
  split; [|split; [|split; [|split; [|split; [|split; [|split; [|split]]]]]]].
  - destruct (getModuleList_total w U Hclosed (S (size U)) Graph.fresh root indent depth)
      as (m' & E & _); [set_solver | exact Hroot | exact Hfuel | eauto].
  - destruct (tree_getModuleList_total w U Hclosed (S (size U)) Tree.fresh root indent depth)
      as (m' & E & _); [set_solver | exact Hroot | exact Hfuel | eauto].
  - intros fuel fuel' m' Hle H. exact (getModuleList_fuel_mono w _ _ _ _ _ _ _ Hle H).
  - intros fuel fuel' m' Hle H. exact (tree_getModuleList_fuel_mono w _ _ _ _ _ _ _ Hle H).
  - intros fuel m' H.
    pose proof (graph_run_invariant w fuel root indent depth m' H) as (Hv & _).
    pose proof (getModuleList_sound _ _ _ _ _ _ _ H) as Hwalk.
    split; [exact Hv|]. split.
    { exact (walk_edges_after_visit _ _ _ _ _ _ Hwalk I visited_once_nil). }
    split; [eapply walk_visits_target, Hwalk|]. split.
    + intros q reqs Hq Hc R.
      assert (about q (Graph.trace m')
              = EvVisit q :: map (fun r => EvEdge q (requireLine r)) reqs) as Habout.
      { destruct (graph_run_story _ _ _ _ _ _ q H) as [[Hq' _]|[_ [S|S]]];
          [contradiction | | now rewrite R in S].
        exfalso. apply Hc, cutoffs_elem, (about_elem q). rewrite S. set_solver. }
      split; [exact Habout|]. intros r Hr.
      destruct (proj1 (walk_targets_visited w) _ _ _ _ _ Hwalk) as (tr & Htr & Ht & _).
      cbn in Htr. subst tr. apply Ht, targets_elem. exists q.
      apply (about_elem q). rewrite Habout.
      apply list_elem_of_further, list_elem_of_fmap. now exists r.
    + intros Hd Hsmall. now apply graph_negative_walk with U indent depth.
  - intros fuel m' H. apply tree_getModuleList_sound in H.
    split; [exact (tree_visited_once_walk _ _ _ _ _ _ H visited_once_nil)|].
    split; [intros Hd; now apply (tree_walk_visits_target _ _ _ _ _ _ H)|]. split.
    + destruct (proj1 (tree_walk_expands w) _ _ _ _ _ H) as (tr & Htr & _ & Hnew).
      cbn in Htr. subst tr. intros q reqs r Hq R Hr.
      apply (Hnew q reqs r); [exact Hq | cbn; set_solver | exact R | exact Hr].
    + intros Hd Hsmall. now apply tree_negative_walk with U indent depth.
  - exact cycle_graph_any_depth.
  - exact cycle_tree_any_depth.
  - vm_compute. reflexivity.
Qed.

Lemma C1_walk_terminates_and_visits_once_witness :
  exists m',
    Graph.getModuleList cycle_world
      (S (size ({[idA]} ∪ list_to_set (table_lines cycle_table) : gset string)))
      Graph.fresh idA EmptyString 2 = Some m'.
Proof.
  apply (C1_walk_terminates_and_visits_once cycle_world
           ({[idA]} ∪ list_to_set (table_lines cycle_table)) idA EmptyString 2).
  - apply table_world_closed_with.
  - apply elem_of_union_l, elem_of_singleton. reflexivity.
Defined.

(** The tree variant on the cycle A -> B -> A with a positive bound: with
    the bound 1, B is printed at the cutoff and never inserted; with the
    bound 2, A and B are inserted once each and the line of A is printed a
    second time at the cutoff below B. *)
Lemma C1_counterexample :
  (fun m => (visits (Tree.trace m), bool_decide (idB ∈ Tree.cache m), Tree.writer m))
    <$> Tree.getModuleList cycle_world 3 Tree.fresh idA EmptyString 1
  = Some ([idA], false, idA +:+ newline +:+ idB +:+ newline) /\
  (fun m => (visits (Tree.trace m), cutoffs (Tree.trace m), Tree.writer m))
    <$> Tree.getModuleList cycle_world 3 Tree.fresh idA EmptyString 2
  = Some ([idA; idB], [idA],
          idA +:+ newline +:+ idB +:+ newline +:+ idA +:+ newline).
Proof. split; vm_compute; reflexivity. Qed.
